(** * Continuous k-nearest-neighbour graphs (cknn.py): a shallow embedding

    The development follows [src/cknn/cknn.py].  Matrix entries (distances,
    ratios, edge weights, thresholds) are rationals: the operations the
    verified properties depend on are comparison, minimum, maximum and the
    test against zero, which float64 performs exactly.  The sentinel
    [INF = 1.0e308] is the rational 10^308.

    The routines the program imports are modelled by their contract:
    [check_array] and [radius_neighbors_graph] (scikit-learn: finite input,
    precomputed metric, connectivity mode, a point is never its own
    neighbour) and [connected_components] (scipy, weak connectivity, labels
    numbered in order of first node).  [has_path] (networkx) is called on an
    array where it expects a graph object; its answers are a parameter of
    [cut_rng].  Arrays are dense. *)

From Stdlib Require Import String.
From Stdlib Require Import List Arith Bool Lia ZArith QArith Lqa.
From Stdlib Require Import Permutation Sorted.
Import ListNotations.

Close Scope Q_scope.
Open Scope nat_scope.

(** ** Exceptions and results *)

Inductive exn : Type :=
| ValueError
| IndexError
| TypeError
| AttributeError
| GraphException    (* Exception("Difficult to find connected graph") *)
| NetworkXError.    (* an exception raised inside networkx *)

Inductive result (A : Type) : Type :=
| Ok (a : A)
| Raise (e : exn).

Arguments Ok {A} a.
Arguments Raise {A} e.

Definition bind {A B} (r : result A) (f : A -> result B) : result B :=
  match r with
  | Ok a => f a
  | Raise e => Raise e
  end.

Notation "x <- c ;; k" := (bind c (fun x => k))
  (at level 61, c at next level, right associativity).

Fixpoint mapM {A B} (f : A -> result B) (l : list A) : result (list B) :=
  match l with
  | [] => Ok []
  | x :: t => y <- f x ;; ys <- mapM f t ;; Ok (y :: ys)
  end.

(** ** Matrices *)

Definition matrix := list (list Q).

Definition mget (m : matrix) (i j : nat) : Q := nth j (nth i m []) 0%Q.

Definition shape0 (m : matrix) : nat := length m.
Definition shape1 (m : matrix) : nat := length (hd [] m).

Definition tabulate (r c : nat) (f : nat -> nat -> Q) : matrix :=
  map (fun i => map (f i) (seq 0 c)) (seq 0 r).

Fixpoint set_nth {A} (l : list A) (j : nat) (x : A) : list A :=
  match l, j with
  | [], _ => []
  | _ :: t, O => x :: t
  | y :: t, S j' => y :: set_nth t j' x
  end.

(** [m[i, j] = x] for a position inside the matrix. *)
Definition mset (m : matrix) (i j : nat) (x : Q) : matrix :=
  set_nth m i (set_nth (nth i m []) j x).

Definition is_square (m : matrix) : bool :=
  forallb (fun row => length row =? length m) m.

Definition square (n : nat) (m : matrix) : Prop :=
  length m = n /\ Forall (fun row => length row = n) m.

Definition nonzerob (x : Q) : bool := negb (Qeq_bool x 0%Q).

(** An edge of the graph stored in [g]: a non-zero entry. *)
Definition edge (g : matrix) (u v : nat) : bool := nonzerob (mget g u v).

(** The edge relation with direction forgotten. *)
Definition wedge (g : matrix) (u v : nat) : bool := edge g u v || edge g v u.

(** [m.nonzero()]: coordinates of the non-zero entries, row-major. *)
Definition nonzero (m : matrix) : list (nat * nat) :=
  flat_map (fun i =>
    map (fun j => (i, j))
        (filter (fun j => nonzerob (mget m i j)) (seq 0 (length (nth i m [])))))
    (seq 0 (length m)).

(** ** Reachability *)

Section Reach.
Variable e : nat -> nat -> bool.

(** [warshall k u v]: [v] is reached from [u] through intermediate nodes
    below [k] only. *)
Fixpoint warshall (k : nat) (u v : nat) : bool :=
  match k with
  | O => (u =? v) || e u v
  | S k' => warshall k' u v || (warshall k' u k' && warshall k' k' v)
  end.

Inductive walk : nat -> nat -> Prop :=
| walk_refl : forall u, walk u u
| walk_step : forall u w v, e u w = true -> walk w v -> walk u v.

Inductive bwalk (k : nat) : nat -> nat -> Prop :=
| bw_refl : forall u, bwalk k u u
| bw_edge : forall u v, e u v = true -> bwalk k u v
| bw_step : forall u w v, e u w = true -> w < k -> bwalk k w v -> bwalk k u v.
End Reach.

(** Directed reachability in the graph whose edges are the non-zero entries
    of [g]. *)
Definition reachable (g : matrix) (u v : nat) : bool :=
  warshall (edge g) (length g) u v.

(** ** [connected_components] *)

Definition conn (g : matrix) (u v : nat) : bool :=
  warshall (wedge g) (length g) u v.

(** A node opens a new component when no earlier node is connected to it. *)
Definition is_root (g : matrix) (u : nat) : bool :=
  forallb (fun v => negb (conn g v u)) (seq 0 u).

Definition root_of (g : matrix) (u : nat) : nat :=
  hd u (filter (fun v => conn g v u) (seq 0 (length g))).

Definition label_of (g : matrix) (u : nat) : nat :=
  length (filter (is_root g) (seq 0 (root_of g u))).

Definition n_components_of (g : matrix) : nat :=
  length (filter (is_root g) (seq 0 (length g))).

Definition connected_components (g : matrix) : nat * list nat :=
  (n_components_of g, map (label_of g) (seq 0 (length g))).

(** ** numpy helpers *)

(** [INF = 1.0e308] *)
Definition INF : Q := inject_Z (10 ^ 308).

(** [np.argmin] of a flat array: the index of the first minimum. *)
Fixpoint argmin_from (bi : nat) (b : Q) (i : nat) (l : list Q) : nat :=
  match l with
  | [] => bi
  | x :: t =>
      if Qle_bool b x then argmin_from bi b (S i) t
      else argmin_from i x (S i) t
  end.

Definition argmin (l : list Q) : result nat :=
  match l with
  | [] => Raise ValueError
  | x :: t => Ok (argmin_from 0 x 1 t)
  end.

Fixpoint max_from (b : Q) (l : list Q) : Q :=
  match l with
  | [] => b
  | x :: t => max_from (if Qle_bool b x then x else b) t
  end.

(** [np.max] *)
Definition np_max (l : list Q) : result Q :=
  match l with
  | [] => Raise ValueError
  | x :: t => Ok (max_from x t)
  end.

(** The positions selected by the boolean mask [labels == p]. *)
Definition mask_indices (labels : list nat) (p : nat) : list nat :=
  filter (fun i => nth i labels 0 =? p) (seq 0 (length labels)).

(** [prev[labels == p][:, labels == q]]; a boolean mask must be as long as
    the axis it indexes. *)
Definition crop (prev : matrix) (labels : list nat) (p q : nat)
  : result matrix :=
  if negb (length labels =? shape0 prev) then Raise IndexError
  else if negb (length labels =? shape1 prev) then Raise IndexError
  else Ok (map (fun i => map (fun j => mget prev i j) (mask_indices labels q))
               (mask_indices labels p)).

(** ** [concat_cluster] (without [prev_indices]) *)

(** The body of the double loop: the value written to [next_dmatrix[i][j]]. *)
Definition next_entry (prev_dmatrix : matrix) (labels : list nat)
    (i j : nat) : result Q :=
  if i =? j then Ok INF
  else
    cropped_dmatrix <- crop prev_dmatrix labels i j ;;
    let flat := concat cropped_dmatrix in
    d_argmin <- argmin flat ;;
    Ok (nth d_argmin flat 0%Q).

Definition concat_cluster (prev_dmatrix : matrix) (n_components : nat)
    (labels : list nat) : result matrix :=
  if negb (shape0 prev_dmatrix =? shape1 prev_dmatrix) then Raise ValueError
  else
    let arange := seq 0 n_components in
    mapM (fun i => mapM (next_entry prev_dmatrix labels i) arange) arange.

(** ** scikit-learn helpers *)

(** The largest finite float64, [(2^53 - 1) * 2^971].  A rational of larger
    magnitude stands for what float64 holds in its place, [inf]. *)
Definition DBL_MAX : Q := inject_Z ((2 ^ 53 - 1) * 2 ^ 971).

Definition finiteb (x : Q) : bool :=
  Qle_bool (- DBL_MAX)%Q x && Qle_bool x DBL_MAX.

Definition all_finite (m : matrix) : bool := forallb (forallb finiteb) m.

(** [check_array]: a non-empty two-dimensional array of finite numbers. *)
Definition check_array (m : matrix) : result matrix :=
  if (0 <? shape0 m) && (0 <? shape1 m)
     && forallb (fun row => length row =? shape1 m) m
     && all_finite m
  then Ok m else Raise ValueError.

(** [radius_neighbors_graph(X, radius, metric='precomputed')]: [X] is
    validated (square, finite); entry (i, j) is 1 when [i <> j] and
    [X[i][j] <= radius]. *)
Definition radius_neighbors_graph (X : matrix) (radius : Q) : result matrix :=
  if is_square X && all_finite X then
    Ok (tabulate (length X) (length X) (fun i j =>
          if negb (i =? j) && Qle_bool (mget X i j) radius then 1%Q else 0%Q))
  else Raise ValueError.

(** ** The estimator object *)

(** What the caller is handed: a scipy sparse matrix or a dense array. *)
Inductive array : Type :=
| csr_matrix (m : matrix)
| ndarray (m : matrix).

Module CkNN.
Record t : Type := mk {
  n_neighbors : Z;
  neighbors : string;
  delta : option Q;
  k : option Z;
  metric : string;
  t_ : option Q;          (* [None] is ['inf'] *)
  include_self : bool;
  is_sparse : bool;
  directed : bool;
  connected : bool;
  conn_type : string;
  verbose : Z;
  ckng : option array
}.

Definition set_delta (self : t) (d : option Q) : t :=
  mk (n_neighbors self) (neighbors self) d (k self) (metric self) (t_ self)
     (include_self self) (is_sparse self) (directed self) (connected self)
     (conn_type self) (verbose self) (ckng self).

Definition set_k (self : t) (kk : option Z) : t :=
  mk (n_neighbors self) (neighbors self) (delta self) kk (metric self)
     (t_ self) (include_self self) (is_sparse self) (directed self)
     (connected self) (conn_type self) (verbose self) (ckng self).

Definition set_ckng (self : t) (g : option array) : t :=
  mk (n_neighbors self) (neighbors self) (delta self) (k self) (metric self)
     (t_ self) (include_self self) (is_sparse self) (directed self)
     (connected self) (conn_type self) (verbose self) g.
End CkNN.

(** Python's [int(x)]: truncation towards zero. *)
Definition py_int (x : Q) : Z := Z.quot (Qnum x) (Zpos (Qden x)).

(** ** [connect_rng], nature mode ([minimize=False]) *)

Record loop_state : Type := mk_state {
  ls_radius : Q;
  ls_rng : matrix;
  ls_cropped : matrix;
  ls_n_components : nat;
  ls_labels : list nat
}.

(** One pass through the body of [while n_components != 1]. *)
Definition connect_step (st : loop_state) : result loop_state :=
  cropped_dmatrix <-
    concat_cluster (ls_cropped st) (ls_n_components st) (ls_labels st) ;;
  argmin_dmatrix <- mapM argmin cropped_dmatrix ;;
  let r_ptr := seq 0 (shape0 cropped_dmatrix) in
  radius <- np_max (map (fun pa => mget cropped_dmatrix (fst pa) (snd pa))
                        (combine r_ptr argmin_dmatrix)) ;;
  rng <- radius_neighbors_graph cropped_dmatrix radius ;;
  let (n_components, labels) := connected_components rng in
  Ok (mk_state radius rng cropped_dmatrix n_components labels).

(** The loop; [None] when the fuel runs out before the loop ends.  The first
    component of the result lists the component count found at the end of
    each round executed, in order. *)
Fixpoint connect_loop (fuel : nat) (st : loop_state)
  : option (result (list nat * loop_state)) :=
  if ls_n_components st =? 1 then Some (Ok ([], st))
  else
    match fuel with
    | O => None
    | S fuel' =>
        match connect_step st with
        | Raise e => Some (Raise e)
        | Ok st' =>
            match connect_loop fuel' st' with
            | Some (Ok (ns, st'')) =>
                Some (Ok (ls_n_components st' :: ns, st''))
            | other => other
            end
        end
    end.

(** The state on entry to the loop. *)
Definition connect_init (dmatrix : matrix) (radius : Q) : result loop_state :=
  dmatrix <- check_array dmatrix ;;
  rng <- radius_neighbors_graph dmatrix radius ;;
  let (n_components, labels) := connected_components rng in
  Ok (mk_state radius rng dmatrix n_components labels).

(** The threshold is stored back in the object. *)
Definition store_threshold (self : CkNN.t) (radius : Q) : CkNN.t :=
  if String.eqb (CkNN.neighbors self) "delta"
  then CkNN.set_delta self (Some radius)
  else CkNN.set_k self (Some (py_int (radius + (5 # 10))%Q)).

Definition connect_rng (fuel : nat) (self : CkNN.t) (dmatrix : matrix)
    (radius : Q) : option (result (matrix * CkNN.t)) :=
  match connect_init dmatrix radius with
  | Raise e => Some (Raise e)
  | Ok st0 =>
      match connect_loop fuel st0 with
      | None => None
      | Some (Raise e) => Some (Raise e)
      | Some (Ok (_, st)) =>
          Some (g <- radius_neighbors_graph dmatrix (ls_radius st) ;;
                Ok (g, store_threshold self (ls_radius st)))
      end
  end.

(** ** Specification predicates *)

(** The minimum of the block of [M] cut out by the labels [p] and [q]. *)
Definition block_min (M : matrix) (labels : list nat) (p q : nat) (v : Q)
  : Prop :=
  (exists i j, i < length labels /\ j < length labels /\
               nth i labels 0 = p /\ nth j labels 0 = q /\ v = mget M i j) /\
  (forall i j, i < length labels -> j < length labels ->
               nth i labels 0 = p -> nth j labels 0 = q ->
               (v <= mget M i j)%Q).

(** Every entry off the diagonal lies below the sentinel. *)
Definition below_sentinel (n : nat) (M : matrix) : Prop :=
  forall i j, i < n -> j < n -> i <> j -> (mget M i j < INF)%Q.

(** What holds of the loop state at every test of [n_components != 1]. *)
Definition loop_inv (st : loop_state) : Prop :=
  exists n, 0 < n /\ square n (ls_cropped st) /\ square n (ls_rng st) /\
    below_sentinel n (ls_cropped st) /\
    connected_components (ls_rng st) = (ls_n_components st, ls_labels st) /\
    all_finite (ls_cropped st) = true.

Definition below_sentinelb (M : matrix) : bool :=
  forallb (fun i =>
    forallb (fun j => (i =? j) || negb (Qle_bool INF (mget M i j)))
            (seq 0 (length M)))
    (seq 0 (length M)).

(** [v] is the least entry of [row]. *)
Definition row_min (row : list Q) (v : Q) : Prop :=
  In v row /\ forall x, In x row -> (v <= x)%Q.

(** [r] is the greatest of the row minima of [M]. *)
Definition max_of_row_minima (M : matrix) (r : Q) : Prop :=
  (exists p, p < length M /\ row_min (nth p M []) r) /\
  (forall p v, p < length M -> row_min (nth p M []) v -> (v <= r)%Q).

(** ** [cut_rng] *)

(** [rng + critical_conn]: the shapes must agree. *)
Definition madd (a b : matrix) : result matrix :=
  if (shape0 a =? shape0 b) && (shape1 a =? shape1 b) then
    Ok (tabulate (shape0 a) (shape1 a)
                 (fun i j => (mget a i j + mget b i j)%Q))
  else Raise ValueError.

(** [np.bincount]: how often each of 0 .. max occurs; empty for no input. *)
Definition bincount (l : list nat) : list nat :=
  match l with
  | [] => []
  | _ => map (count_occ Nat.eq_dec l) (seq 0 (S (list_max l)))
  end.

(** [enumerate] *)
Definition enumerate {A} (l : list A) : list (nat * A) :=
  combine (seq 0 (length l)) l.

(** [np.argsort] of a row (equal values in their given order). *)
Fixpoint insert_by (row : list Q) (c : nat) (l : list nat) : list nat :=
  match l with
  | [] => [c]
  | d :: t =>
      if Qle_bool (nth c row 0%Q) (nth d row 0%Q) then c :: d :: t
      else d :: insert_by row c t
  end.

Definition argsort (row : list Q) : list nat :=
  fold_right (insert_by row) [] (seq 0 (length row)).

(** The position [(i, j)] lies inside [g]. *)
Definition in_range (g : matrix) (i j : nat) : bool :=
  (i <? length g) && (j <? length (nth i g [])).

(** [m[i, j] = x]: a position outside the array raises. *)
Definition setitem (m : matrix) (i j : nat) (x : Q) : result matrix :=
  if in_range m i j then Ok (mset m i j x) else Raise IndexError.

(** [a[idx]] for an array [idx] of row numbers: the rows of [a] with these
    numbers, in that order; a number past the last row raises. *)
Definition take_rows (a : list (list nat)) (idx : list nat)
  : result (list (list nat)) :=
  mapM (fun t => if t <? length a then Ok (nth t a []) else Raise IndexError)
       idx.

(** Lines 287-292.  The row and column numbers of the [m] base-graph edges
    of row [i_row] are laid out as a 2 x [m] array, and the argsort of the
    negated weights, a permutation of [0 .. m - 1], selects ROWS of that
    array: [indices] is what the inner loop iterates over. *)
Definition row_indices (rng : matrix) (i_row : nat)
  : result (list (list nat)) :=
  let part := filter (fun rc => fst rc =? i_row) (nonzero rng) in
  let r_rng_part := map fst part in
  let c_rng_part := map snd part in
  let ind_indices :=
    argsort (map (fun rc => (- mget rng (fst rc) (snd rc))%Q) part) in
  let indices := [r_rng_part; c_rng_part] in
  take_rows indices ind_indices.

Section CutRng.
(** [has_path] of networkx.  It is handed the array [rng_conn] where it
    expects a graph object; what it answers there, or the exception it ends
    in, is taken as given. *)
Variable has_path : matrix -> nat -> nat -> result bool.

(** [has_path(rng_conn, i, j) or has_path(rng_conn, j, i)] *)
Definition still_joined (rng_conn : matrix) (i j : nat) : result bool :=
  a <- has_path rng_conn i j ;;
  if a then Ok true else has_path rng_conn j i.

(** The inner [for i, j in indices ... else]: a row of [indices] that is not
    a pair cannot be unpacked; the first pair for which the test succeeds
    after [rng_conn[i, j] = 0] ends the loop; a pair that fails the test is
    set to 1; running out of pairs raises. *)
Fixpoint prune_row (rng_conn : matrix) (indices : list (list nat))
  : result matrix :=
  match indices with
  | [] => Raise GraphException
  | [i; j] :: rest =>
      removed <- setitem rng_conn i j 0%Q ;;
      joined <- still_joined removed i j ;;
      if joined then Ok removed
      else restored <- setitem removed i j 1%Q ;; prune_row restored rest
  | _ :: _ => Raise ValueError
  end.

(** The body of the outer loop for one [(i_row, n_conn)]. *)
Definition cut_row (rng : matrix) (rng_conn : matrix) (rc : nat * nat)
  : result matrix :=
  if 0 <? snd rc then
    indices <- row_indices rng (fst rc) ;; prune_row rng_conn indices
  else Ok rng_conn.

Definition cut_rng (rng critical_conn : matrix) : result matrix :=
  rng_conn <- madd rng critical_conn ;;
  let conn_row := map fst (nonzero critical_conn) in
  fold_left (fun acc rc => g <- acc ;; cut_row rng g rc)
            (enumerate (bincount conn_row)) (Ok rng_conn).

(** The pairs of [pre] all fail the test, each tried on the graph the ones
    before it left. *)
Fixpoint all_rejected (rng_conn : matrix) (pre : list (list nat)) : bool :=
  match pre with
  | [] => true
  | [i; j] :: rest =>
      in_range rng_conn i j &&
      match still_joined (mset rng_conn i j 0%Q) i j with
      | Ok false => all_rejected (mset (mset rng_conn i j 0%Q) i j 1%Q) rest
      | _ => false
      end
  | _ :: _ => false
  end.
End CutRng.

(** The graph after the pairs of [pre] were each cleared and set to 1. *)
Definition restore_all (rng_conn : matrix) (pre : list (list nat)) : matrix :=
  fold_left (fun g row =>
               match row with
               | [i; j] => mset (mset g i j 0%Q) i j 1%Q
               | _ => g
               end) pre rng_conn.

(** *** The pruning as the specification words it *)

Definition weight_of (rng : matrix) (ij : nat * nat) : Q :=
  mget rng (fst ij) (snd ij).

(** Heaviest first, equal weights in their given order. *)
Fixpoint insert_desc (w : nat * nat -> Q) (x : nat * nat)
    (l : list (nat * nat)) : list (nat * nat) :=
  match l with
  | [] => [x]
  | y :: t =>
      if Qle_bool (w y) (w x) then x :: y :: t
      else y :: insert_desc w x t
  end.

Definition argsort_desc (w : nat * nat -> Q) (l : list (nat * nat))
  : list (nat * nat) :=
  fold_right (insert_desc w) [] l.

(** The candidates of row [i_row]: its base-graph edges, heaviest first. *)
Definition candidates_as_specified (rng : matrix) (i_row : nat)
  : list (nat * nat) :=
  argsort_desc (weight_of rng)
    (filter (fun ij => fst ij =? i_row) (nonzero rng)).

(** A path joins [i] and [j] in one direction or the other. *)
Definition joined_as_specified (rng_conn : matrix) (i j : nat) : bool :=
  reachable rng_conn i j || reachable rng_conn j i.

(** A removal that keeps the ends joined is kept and the loop goes on; the
    first removal that does not is undone and ends the loop. *)
Fixpoint prune_row_as_specified (rng_conn : matrix)
    (cands : list (nat * nat)) : matrix :=
  match cands with
  | [] => rng_conn
  | (i, j) :: rest =>
      let removed := mset rng_conn i j 0%Q in
      if joined_as_specified removed i j
      then prune_row_as_specified removed rest
      else mset removed i j 1%Q
  end.

Definition cut_rng_as_specified (rng critical_conn : matrix)
  : result matrix :=
  rng_conn <- madd rng critical_conn ;;
  let conn_row := map fst (nonzero critical_conn) in
  Ok (fold_left
        (fun g rc =>
           if 0 <? snd rc
           then prune_row_as_specified g (candidates_as_specified rng (fst rc))
           else g)
        (enumerate (bincount conn_row)) rng_conn).

(** All nodes below [n] are joined when directions are ignored. *)
Definition connected_graph (n : nat) (g : matrix) : Prop :=
  forall u v, u < n -> v < n -> walk (wedge g) u v.

(** ** [connect_rng], force mode ([minimize=True]) *)

(** Lines 314-315: the index map, an array of shape (2, nd, nd) with
    [indices[0][r][c] = c] and [indices[1][r][c] = r]. *)
Definition index_map (nd : nat) : list (list (list nat)) :=
  [map (fun _ => seq 0 nd) (seq 0 nd);
   map (fun r => map (fun _ => r) (seq 0 nd)) (seq 0 nd)].

(** The truth value Python asks of an array in [if prev_indices:]: an empty
    array is false, an array of one element is as that element, and an
    array of more than one element has no truth value: asking raises. *)
Definition array_truth (a : list (list (list nat))) : result bool :=
  match concat (concat a) with
  | [] => Ok false
  | [x] => Ok (negb (x =? 0))
  | _ => Raise ValueError
  end.

Section ForceMode.
Variable has_path : matrix -> nat -> nat -> result bool.
(** What [concat_cluster] does after its test [if prev_indices:], the rest
    of the first round and the rounds after it: not embedded. *)
Variable force_rounds :
  bool -> matrix -> matrix -> nat -> list nat -> result matrix.

(** Force mode up to the first test of the index map.  On a base graph of
    one component the loop is not entered. *)
Definition connect_rng_force (same_nbrs : bool) (dmatrix : matrix)
    (radius : Q) : result matrix :=
  dmatrix <- check_array dmatrix ;;
  rng <- radius_neighbors_graph dmatrix radius ;;
  let rng_orig := rng in
  let rng_minimize := tabulate (shape0 rng) (shape1 rng) (fun _ _ => 0%Q) in
  let nd := shape0 dmatrix in
  let indices := index_map nd in
  let (n_components, labels) := connected_components rng in
  if n_components =? 1 then
    if same_nbrs then cut_rng has_path rng_orig rng_minimize
    else madd rng_orig rng_minimize
  else
    (* concat_cluster(cropped_dmatrix, n_components, labels,
                      prev_indices=indices) *)
    if negb (shape0 dmatrix =? shape1 dmatrix) then Raise ValueError
    else
      b <- array_truth indices ;;
      force_rounds b dmatrix rng n_components labels.
End ForceMode.

(** ** The ratio matrix (lines 184-187) *)

Fixpoint insert_asc (x : Q) (l : list Q) : list Q :=
  match l with
  | [] => [x]
  | y :: t => if Qle_bool x y then x :: y :: t else y :: insert_asc x t
  end.

Definition sort_asc (l : list Q) : list Q := fold_right insert_asc [] l.

(** [np.partition(a, kth)] returns the whole array, each row rearranged so
    that position [kth] holds the value a sort would put there, smaller
    values before it and larger ones after; a sorted row is such a row. *)
Definition np_partition (a : matrix) (kth : nat) : result matrix :=
  if forallb (fun row => kth <? length row) a then Ok (map sort_asc a)
  else Raise ValueError.

Definition dot_rows (a b : list Q) : Q :=
  fold_right Qplus 0%Q (map (fun ab => (fst ab * snd ab)%Q) (combine a b)).

(** [P.dot(P.T)] *)
Definition dot_transpose (P : matrix) : matrix :=
  tabulate (length P) (length P)
           (fun i j => dot_rows (nth i P []) (nth j P [])).

(** [m[cr_ptr, cr_ptr] = x] *)
Definition set_diagonal (m : matrix) (x : Q) : matrix :=
  fold_left (fun acc i => mset acc i i x) (seq 0 (length m)) m.

Section Numeric.
Variable np_sqrt : Q -> Q.

Definition ratio_matrix (dmatrix : matrix) (n_neighbors : nat)
  : result matrix :=
  darray_n_nbrs <- np_partition dmatrix n_neighbors ;;
  let denom := dot_transpose darray_n_nbrs in
  let ratio :=
    tabulate (shape0 dmatrix) (shape1 dmatrix)
      (fun i j => (mget dmatrix i j / np_sqrt (mget denom i j))%Q) in
  Ok (set_diagonal ratio 0%Q).

(** The ratio as the specification words it: [D[i][j] / sqrt(a[i] * a[j])]
    with [a[i]] the entry at position [n] of the sorted row [i]. *)
Definition nth_neighbor_distance (dmatrix : matrix) (n i : nat) : Q :=
  nth n (sort_asc (nth i dmatrix [])) 0%Q.

Definition ratio_as_specified (dmatrix : matrix) (n i j : nat) : Q :=
  (mget dmatrix i j
   / np_sqrt (nth_neighbor_distance dmatrix n i
              * nth_neighbor_distance dmatrix n j))%Q.
End Numeric.

(** ** Choosing the graph routine (lines 189-232) *)

(** The call made to obtain the adjacency; a threshold that was not passed
    is [None]. *)
Inductive graph_call : Type :=
| call_radius_neighbors_graph (X : matrix) (radius : option Q)
| call_kneighbors_graph (X : matrix) (n_neighbors : option Z)
| call_connect_rng (dmatrix : matrix) (radius : option Q)
                   (minimize same_nbrs : bool).

(** Python's [not x] for an optional number: [None] and zero are false. *)
Definition not_delta (d : option Q) : bool :=
  match d with
  | None => true
  | Some q => Qeq_bool q 0%Q
  end.

Definition not_k (kk : option Z) : bool :=
  match kk with
  | None => true
  | Some z => (z =? 0)%Z
  end.

(** [if cond: ValueError(...)]: the exception object is built and dropped;
    nothing is raised. *)
Definition build_and_drop (cond : bool) (e : exn) : result unit := Ok tt.

(** Lines 210-215: [order_matrix[r, argsorted[r][p]] = p]. *)
Definition order_row (row : list Q) : list Q :=
  fold_left (fun acc pc => set_nth acc (snd pc)
                                   (inject_Z (Z.of_nat (fst pc))))
            (enumerate (argsort row))
            (map (fun _ => 0%Q) row).

Definition order_matrix (ratio_matrix : matrix) : matrix :=
  map order_row ratio_matrix.

Definition select_graph_call (self : CkNN.t) (ratio_matrix : matrix)
  : result graph_call :=
  if String.eqb (CkNN.neighbors self) "delta" then
    _ <- build_and_drop (not_delta (CkNN.delta self)) ValueError ;;
    if CkNN.connected self then
      if String.eqb (CkNN.conn_type self) "nature" then
        Ok (call_connect_rng ratio_matrix (CkNN.delta self) false false)
      else if String.eqb (CkNN.conn_type self) "force" then
        Ok (call_connect_rng ratio_matrix (CkNN.delta self) true false)
      else Raise ValueError
    else Ok (call_radius_neighbors_graph ratio_matrix (CkNN.delta self))
  else if String.eqb (CkNN.neighbors self) "k" then
    _ <- build_and_drop (not_k (CkNN.k self)) ValueError ;;
    if CkNN.connected self then
      let order := order_matrix ratio_matrix in
      let kq := option_map inject_Z (CkNN.k self) in
      if String.eqb (CkNN.conn_type self) "nature" then
        Ok (call_connect_rng order kq false false)
      else if String.eqb (CkNN.conn_type self) "force" then
        Ok (call_connect_rng order kq true true)
      else Raise ValueError
    else Ok (call_kneighbors_graph ratio_matrix (CkNN.k self))
  else Raise ValueError.

(** Lines 226-230: [adjacency + adjacency.T] with every stored entry set
    to 1. *)
Definition symmetrize (adjacency : matrix) : matrix :=
  tabulate (shape0 adjacency) (shape1 adjacency)
    (fun i j => if nonzerob (mget adjacency i j + mget adjacency j i)%Q
                then 1%Q else 0%Q).

(** ** [CkNearestNeighbors.cknneighbors_graph] and the module function *)

Section GraphBuilder.
Variable np_sqrt : Q -> Q.
(** [squareform(pdist(X, metric=metric))] *)
Variable pdist_squareform : matrix -> string -> result matrix.
(** Lines 242-245, the weights for a finite [t]. *)
Variable kernel_weights : matrix -> matrix -> Q -> matrix.
(** The graph calls outside the part embedded here: [kneighbors_graph],
    [connect_rng] with [minimize=True], and any call whose threshold is
    [None]. *)
Variable library_call : graph_call -> result matrix.

Definition run_graph_call (fuel : nat) (self : CkNN.t) (c : graph_call)
  : option (result (matrix * CkNN.t)) :=
  match c with
  | call_radius_neighbors_graph X (Some radius) =>
      Some (g <- radius_neighbors_graph X radius ;; Ok (g, self))
  | call_connect_rng dmatrix (Some radius) false _ =>
      connect_rng fuel self dmatrix radius
  | other => Some (g <- library_call other ;; Ok (g, self))
  end.

(** Lines 166-187: the checks, the distance matrix and the ratio matrix. *)
Definition prepare (self : CkNN.t) (X : matrix) : result (matrix * matrix) :=
  let n_samples := Z.of_nat (shape0 X) in
  if ((CkNN.n_neighbors self <? 1) || (CkNN.n_neighbors self >? n_samples - 1))%Z
  then Raise ValueError
  else if (n_samples <? 2)%Z then Raise ValueError
  else
    dmatrix <-
      (if String.eqb (CkNN.metric self) "precomputed" then
         if negb (shape0 X =? shape1 X) then Raise ValueError else Ok X
       else pdist_squareform X (CkNN.metric self)) ;;
    ratio <- ratio_matrix np_sqrt dmatrix (Z.to_nat (CkNN.n_neighbors self)) ;;
    Ok (dmatrix, ratio).

(** Lines 226-252: what is done with the adjacency once it is there. *)
Definition finish (self self1 : CkNN.t) (dmatrix adjacency : matrix)
  : array * CkNN.t :=
  let adjacency :=
    if String.eqb (CkNN.neighbors self) "k" && negb (CkNN.directed self)
    then symmetrize adjacency else adjacency in
  let adjacency :=
    set_diagonal adjacency (if CkNN.include_self self then 1%Q else 0%Q) in
  let neigh :=
    match CkNN.t_ self with
    | None => adjacency
    | Some t => kernel_weights dmatrix adjacency t
    end in
  let self2 := CkNN.set_ckng self1 (Some (csr_matrix neigh)) in
  (if CkNN.is_sparse self then csr_matrix neigh else ndarray neigh, self2).

(** Lines 189-252: from the ratio matrix to the value returned. *)
Definition graph_from_ratio (fuel : nat) (self : CkNN.t)
    (dmatrix ratio : matrix) : option (result (array * CkNN.t)) :=
  match select_graph_call self ratio with
  | Raise e => Some (Raise e)
  | Ok c =>
      match run_graph_call fuel self c with
      | None => None
      | Some (Raise e) => Some (Raise e)
      | Some (Ok (adjacency, self1)) =>
          Some (Ok (finish self self1 dmatrix adjacency))
      end
  end.

(** The method: its return value and the object as it leaves it. *)
Definition cknneighbors_graph_method (fuel : nat) (self : CkNN.t) (X : matrix)
  : option (result (array * CkNN.t)) :=
  match prepare self X with
  | Raise e => Some (Raise e)
  | Ok (dmatrix, ratio) => graph_from_ratio fuel self dmatrix ratio
  end.

(** The module-level function (lines 115-131); [params] carries the keyword
    arguments, its [ckng] is not read. *)
Definition cknneighbors_graph (fuel : nat) (X : matrix) (params : CkNN.t)
    (return_instance : bool) : option (result (CkNN.t + array)) :=
  let cknn := CkNN.set_ckng params None in
  match cknneighbors_graph_method fuel cknn X with
  | None => None
  | Some (Raise e) => Some (Raise e)
  | Some (Ok (_, cknn')) =>
      if return_instance then Some (Ok (inl cknn'))
      else
        match CkNN.ckng cknn' with
        | Some a => Some (Ok (inr a))
        | None => Some (Raise AttributeError)
        end
  end.
End GraphBuilder.

(** [M[i][j] == M[j][i]] for all positions of [M]. *)
Definition is_symmetric (M : matrix) : bool :=
  forallb (fun i =>
    forallb (fun j => Qeq_bool (mget M i j) (mget M j i))
            (seq 0 (length M)))
    (seq 0 (length M)).


(** Row [i] of [g] holds no edge. *)
Definition empty_row (g : matrix) (i : nat) : bool :=
  forallb (fun j => negb (edge g i j)) (seq 0 (length (nth i g []))).

(** The graph [radius_neighbors_graph] returns on a square matrix. *)
Definition rgraph (X : matrix) (radius : Q) : matrix :=
  tabulate (length X) (length X) (fun i j =>
    if negb (i =? j) && Qle_bool (mget X i j) radius then 1%Q else 0%Q).

(** [owner] maps the points of [D] to the clusters of the loop state: the
    points of a cluster are joined in the radius graph of [D] at the current
    threshold, and every entry of the reduced matrix between two clusters is
    the least distance between two of their points. *)
Definition clusters_of (D : matrix) (st : loop_state) (owner : nat -> nat)
  : Prop :=
  (forall i, i < length D -> owner i < length (ls_cropped st)) /\
  (forall i j, i < length D -> j < length D -> owner i = owner j ->
     walk (wedge (rgraph D (ls_radius st))) i j) /\
  (forall p q, p < length (ls_cropped st) -> q < length (ls_cropped st) ->
     p <> q ->
     exists i j, i < length D /\ j < length D /\ owner i = p /\ owner j = q /\
                 mget (ls_cropped st) p q = mget D i j) /\
  (forall i j, i < length D -> j < length D -> owner i <> owner j ->
     (mget (ls_cropped st) (owner i) (owner j) <= mget D i j)%Q).

Definition loop_inv_full (D : matrix) (st : loop_state) : Prop :=
  loop_inv st /\
  ls_rng st = rgraph (ls_cropped st) (ls_radius st) /\
  exists owner, clusters_of D st owner.

(** ** Sample inputs *)

(** Four points on a line at 0, 1, 10 and 12. *)
Definition line4 : matrix :=
  [[0; 1; 10; 12]; [1; 0; 9; 11]; [10; 9; 0; 2]; [12; 11; 2; 0]]%Q.

(** Three points on a line at 0, 1 and 5. *)
Definition line3 : matrix := [[0; 1; 5]; [1; 0; 4]; [5; 4; 0]]%Q.

(** Two points whose distance, 1.5e308, is a finite float64 above the
    sentinel. *)
Definition far2 : matrix :=
  [[0; inject_Z (15 * 10 ^ 307)]; [inject_Z (15 * 10 ^ 307); 0]]%Q.

(** The loop state on entry for [line3] at radius 1, and after one round. *)
Definition line3_start : loop_state :=
  mk_state 1 [[0; 1; 0]; [1; 0; 0]; [0; 0; 0]]%Q line3 2 [0; 0; 1].

Definition line3_next : loop_state :=
  mk_state 4 [[0; 1]; [1; 0]]%Q [[INF; 4]; [4; INF]]%Q 1 [0; 0].

(** The loop state for [far2] at radius 1: on entry, and after any round. *)
Definition far2_start : loop_state :=
  mk_state 1 [[0; 0]; [0; 0]]%Q far2 2 [0; 1].

Definition far2_stuck : loop_state :=
  mk_state INF [[0; 0]; [0; 0]]%Q
    [[INF; inject_Z (15 * 10 ^ 307)]; [inject_Z (15 * 10 ^ 307); INF]]%Q
    2 [0; 1].

(** An estimator object in radius mode and one in count mode. *)
Definition cknn_delta : CkNN.t :=
  CkNN.mk 1 "delta" (Some 4%Q) None "precomputed" None
          false true false true "nature" 0 None.

Definition cknn_k : CkNN.t :=
  CkNN.mk 1 "k" None (Some 1%Z) "precomputed" None
          false true false true "nature" 0 None.

(** [has_path] as networkx answers when it is handed an array: a node
    reaches itself, and a query between two distinct nodes ends in an
    exception. *)
Definition has_path_on_array (g : matrix) (i j : nat) : result bool :=
  if i =? j then Ok true else Raise NetworkXError.

(** The part of force mode that is not embedded is not reached by the
    sample runs. *)
Definition no_force_rounds (b : bool) (dmatrix rng : matrix) (n : nat)
    (labels : list nat) : result matrix := Ok rng.

(** A triangle 0, 1, 2 with every edge in both directions, and node 3 apart;
    the critical connection joins 0 to 3. *)
Definition tri_rng : matrix :=
  [[0; 1; 1; 0]; [1; 0; 1; 0]; [1; 0; 0; 0]; [0; 0; 0; 0]]%Q.

Definition tri_critical : matrix :=
  [[0; 0; 0; 1]; [0; 0; 0; 0]; [0; 0; 0; 0]; [0; 0; 0; 0]]%Q.

(** Node 1 hangs on the heavy edge 0 -> 1 alone; 0 and 2 are joined both
    ways; the critical connection joins 0 to 3. *)
Definition bridge_rng : matrix :=
  [[0; 2; 1; 0]; [0; 0; 0; 0]; [1; 0; 0; 0]; [0; 0; 0; 0]]%Q.

(** Node 0 joined both ways to 1 and to 2. *)
Definition fan_rng : matrix := [[0; 1; 1]; [1; 0; 0]; [1; 0; 0]]%Q.

(** A critical connection from node 0 to itself. *)
Definition self_critical : matrix := [[1; 0; 0]; [0; 0; 0]; [0; 0; 0]]%Q.

(** Two nodes joined both ways, the critical connection on top of 0 -> 1. *)
Definition pair_rng : matrix := [[0; 1]; [1; 0]]%Q.
Definition pair_critical : matrix := [[0; 1]; [0; 0]]%Q.

(** A square root rounded down to the denominator of its argument. *)
Definition sqrt_down (x : Q) : Q :=
  Qmake (Z.sqrt (Qnum x * Zpos (Qden x))) (Qden x).

(** No point coordinates, no finite [t] and no library call are used by the
    sample runs. *)
Definition no_pdist (X : matrix) (metric : string) : result matrix :=
  Raise ValueError.
Definition no_weights (dmatrix adjacency : matrix) (t : Q) : matrix :=
  adjacency.
Definition none_threshold (c : graph_call) : result matrix := Raise TypeError.

(** [n_neighbors=1, neighbors='delta', delta=None, metric='precomputed'],
    the rest as in the signature. *)
Definition params_no_delta : CkNN.t :=
  CkNN.mk 1 "delta" None None "precomputed" None
          false true false false "nature" 0 None.

Definition params_no_k : CkNN.t :=
  CkNN.mk 1 "k" None None "precomputed" None
          false true false false "nature" 0 None.

(** [n_neighbors=1, delta=1, metric='precomputed', is_sparse=False]. *)
Definition params_dense : CkNN.t :=
  CkNN.mk 1 "delta" (Some 1%Q) None "precomputed" None
          false false false false "nature" 0 None.

(** The critical connection leaves node 3, which has no base-graph edge. *)
Definition from3_critical : matrix :=
  [[0; 0; 0; 0]; [0; 0; 0; 0]; [0; 0; 0; 0]; [1; 0; 0; 0]]%Q.

(** [n_neighbors=1, neighbors='k', k=1, metric='precomputed',
    connected=True, conn_type='nature'], undirected. *)
Definition params_k_connected : CkNN.t :=
  CkNN.mk 1 "k" None (Some 1%Z) "precomputed" None
          false true false true "nature" 0 None.

(** [n_neighbors=1, delta=1, metric='precomputed'], defaults otherwise. *)
Definition params_delta1 : CkNN.t :=
  CkNN.mk 1 "delta" (Some 1%Q) None "precomputed" None
          false true false false "nature" 0 None.

(** [n_neighbors=3] on three points: out of range. *)
Definition params_too_many : CkNN.t :=
  CkNN.mk 3 "delta" (Some 1%Q) None "precomputed" None
          false true false false "nature" 0 None.

(** An unknown [neighbors] value. *)
Definition params_unknown : CkNN.t :=
  CkNN.mk 1 "radius" (Some 1%Q) None "precomputed" None
          false true false false "nature" 0 None.

(** * Proofs *)

(** ** Lists, [mapM] and matrices *)

Lemma mapM_ok_inv {A B} (f : A -> result B) l ys :
  mapM f l = Ok ys ->
  length ys = length l /\
  forall i d d', i < length l -> f (nth i l d') = Ok (nth i ys d).
Proof.
  revert ys. induction l as [|x l IH]; simpl; intros ys H.
  - inversion H; subst. split; [reflexivity|]. intros; lia.
  - destruct (f x) as [y|e] eqn:Hx; simpl in H; [|discriminate].
    destruct (mapM f l) as [ys'|e] eqn:Hl; simpl in H; [|discriminate].
    inversion H; subst. destruct (IH ys' eq_refl) as [Hlen Hnth].
    split; [simpl; congruence|].
    intros [|i] d d' Hi; simpl; [assumption|]. apply Hnth. simpl in Hi. lia.
Qed.

Lemma mapM_ok_ex {A B} (f : A -> result B) l :
  (forall x, In x l -> exists y, f x = Ok y) ->
  exists ys, mapM f l = Ok ys.
Proof.
  induction l as [|x l IH]; simpl; intros H.
  - eexists; reflexivity.
  - destruct (H x (or_introl eq_refl)) as [y Hy]. rewrite Hy. simpl.
    destruct IH as [ys Hys]; [intros; apply H; auto|].
    rewrite Hys. simpl. eexists; reflexivity.
Qed.

Lemma nth_seq0 i n d : i < n -> nth i (seq 0 n) d = i.
Proof. intros. rewrite seq_nth; lia. Qed.

Lemma mget_tabulate r c f i j :
  i < r -> j < c -> mget (tabulate r c f) i j = f i j.
Proof.
  intros Hi Hj. unfold mget, tabulate.
  rewrite (nth_indep _ [] (map (f 0) (seq 0 c)))
    by (rewrite length_map, length_seq; exact Hi).
  rewrite (map_nth (fun i => map (f i) (seq 0 c)) (seq 0 r) 0 i).
  rewrite nth_seq0 by exact Hi.
  rewrite (nth_indep _ 0%Q (f i 0)) by (rewrite length_map, length_seq; exact Hj).
  rewrite (map_nth (f i) (seq 0 c) 0 j). now rewrite nth_seq0.
Qed.

Lemma square_tabulate n f : square n (tabulate n n f).
Proof.
  split.
  - unfold tabulate. now rewrite length_map, length_seq.
  - apply Forall_forall. intros row Hin. unfold tabulate in Hin.
    apply in_map_iff in Hin. destruct Hin as [i [<- _]].
    now rewrite length_map, length_seq.
Qed.

Lemma square_is_square n m : square n m -> is_square m = true.
Proof.
  intros [Hl Hr]. unfold is_square. apply forallb_forall. intros row Hin.
  rewrite Forall_forall in Hr. apply Nat.eqb_eq. rewrite (Hr _ Hin). lia.
Qed.

Lemma is_square_square m : is_square m = true -> square (length m) m.
Proof.
  unfold is_square. intros H. split; [reflexivity|].
  apply Forall_forall. intros row Hin.
  rewrite forallb_forall in H. now apply Nat.eqb_eq, H.
Qed.

Lemma square_shape n m : square n m -> shape0 m = n /\ shape1 m = n.
Proof.
  intros [Hl Hr]. unfold shape0, shape1. split; [assumption|].
  destruct m as [|row m]; simpl in *; [assumption|].
  now inversion Hr.
Qed.

Lemma square_row n m i : square n m -> i < n -> length (nth i m []) = n.
Proof.
  intros [Hl Hr] Hi. rewrite Forall_forall in Hr. apply Hr, nth_In. lia.
Qed.

(** ** [argmin] and [np_max] *)

Lemma argmin_from_spec l : forall bi b i pre,
  length pre = i -> bi < i -> nth bi (pre ++ l) 0%Q = b ->
  (forall x, In x pre -> (b <= x)%Q) ->
  let a := argmin_from bi b i l in
  a < i + length l /\ forall x, In x (pre ++ l) -> (nth a (pre ++ l) 0 <= x)%Q.
Proof.
  induction l as [|y l IH]; intros bi b i pre Hlen Hbi Hb Hmin; simpl.
  - rewrite app_nil_r in *. split; [lia|]. intros x Hx. rewrite Hb. auto.
  - assert (Happ : pre ++ y :: l = (pre ++ [y]) ++ l)
      by now rewrite <- app_assoc.
    destruct (Qle_bool b y) eqn:Hle.
    + rewrite Happ in *.
      destruct (IH bi b (S i) (pre ++ [y])) as [H1 H2].
      * rewrite length_app; simpl; lia.
      * lia.
      * exact Hb.
      * intros x Hx. apply in_app_or in Hx. destruct Hx as [Hx|[<-|[]]]; auto.
        now apply Qle_bool_iff.
      * split; [lia|exact H2].
    + assert (Hlt : (y < b)%Q).
      { apply Qnot_le_lt. intros Hc. apply Qle_bool_iff in Hc. congruence. }
      rewrite Happ.
      destruct (IH i y (S i) (pre ++ [y])) as [H1 H2].
      * rewrite length_app; simpl; lia.
      * lia.
      * rewrite app_nth1 by (rewrite length_app; simpl; lia).
        rewrite app_nth2 by lia. rewrite Hlen, Nat.sub_diag. reflexivity.
      * intros x Hx. apply in_app_or in Hx. destruct Hx as [Hx|[<-|[]]].
        -- apply Qlt_le_weak. eapply Qlt_le_trans; [exact Hlt|auto].
        -- apply Qle_refl.
      * split; [lia|exact H2].
Qed.

Lemma argmin_spec l a :
  argmin l = Ok a ->
  a < length l /\ forall x, In x l -> (nth a l 0 <= x)%Q.
Proof.
  destruct l as [|y l]; simpl; [discriminate|]. intros H. inversion H; subst.
  destruct (argmin_from_spec l 0 y 1 [y] eq_refl) as [H1 H2]; try lia.
  - reflexivity.
  - intros x [<-|[]]. apply Qle_refl.
  - simpl in *. split; [lia|exact H2].
Qed.

Lemma argmin_ok l : l <> [] -> exists a, argmin l = Ok a.
Proof. destruct l; [congruence|]. intros _. eexists; reflexivity. Qed.

Lemma max_from_spec l : forall b,
  (b <= max_from b l)%Q /\
  (forall x, In x l -> (x <= max_from b l)%Q) /\
  (max_from b l = b \/ In (max_from b l) l).
Proof.
  induction l as [|y l IH]; intros b; simpl.
  - split; [apply Qle_refl|]. split; [intros x []|now left].
  - destruct (Qle_bool b y) eqn:Hle.
    + apply Qle_bool_iff in Hle. destruct (IH y) as [H1 [H2 H3]].
      split; [eapply Qle_trans; eauto|].
      split; [intros x [<-|Hx]; auto|]. right. destruct H3; auto.
    + assert (Hlt : (y < b)%Q).
      { apply Qnot_le_lt. intros Hc. apply Qle_bool_iff in Hc. congruence. }
      destruct (IH b) as [H1 [H2 H3]].
      split; [assumption|].
      split.
      * intros x [<-|Hx]; auto. apply Qlt_le_weak. eapply Qlt_le_trans; eauto.
      * destruct H3; auto.
Qed.

Lemma np_max_spec l r :
  np_max l = Ok r -> In r l /\ forall x, In x l -> (x <= r)%Q.
Proof.
  destruct l as [|y l]; simpl; [discriminate|]. intros H. inversion H; subst.
  destruct (max_from_spec l y) as [H1 [H2 H3]]. split.
  - destruct H3 as [->|H3]; auto.
  - intros x [<-|Hx]; auto.
Qed.

(** ** [concat_cluster] *)

Lemma mask_indices_In labels p i :
  In i (mask_indices labels p) <-> i < length labels /\ nth i labels 0 = p.
Proof.
  unfold mask_indices. rewrite filter_In, in_seq, Nat.eqb_eq. lia.
Qed.

Lemma In_block (M : matrix) I J x :
  In x (concat (map (fun i => map (fun j => mget M i j) J) I)) <->
  exists i j, In i I /\ In j J /\ x = mget M i j.
Proof.
  rewrite in_concat. split.
  - intros [row [Hrow Hx]]. apply in_map_iff in Hrow.
    destruct Hrow as [i [<- Hi]]. apply in_map_iff in Hx.
    destruct Hx as [j [<- Hj]]. eauto.
  - intros [i [j [Hi [Hj ->]]]].
    exists (map (fun j => mget M i j) J). split.
    + apply in_map_iff. eauto.
    + apply in_map_iff. eauto.
Qed.

Lemma crop_square n M labels p q :
  square n M -> length labels = n ->
  crop M labels p q =
  Ok (map (fun i => map (fun j => mget M i j) (mask_indices labels q))
          (mask_indices labels p)).
Proof.
  intros Hsq Hlen. destruct (square_shape _ _ Hsq) as [H0 H1]. unfold crop.
  rewrite H0, H1, Hlen, Nat.eqb_refl. reflexivity.
Qed.

Lemma next_entry_diag M labels p : next_entry M labels p p = Ok INF.
Proof. unfold next_entry. now rewrite Nat.eqb_refl. Qed.

Lemma next_entry_min n M labels p q :
  square n M -> length labels = n -> p <> q ->
  (exists i, i < n /\ nth i labels 0 = p) ->
  (exists j, j < n /\ nth j labels 0 = q) ->
  exists v, next_entry M labels p q = Ok v /\ block_min M labels p q v.
Proof.
  intros Hsq Hlen Hpq [i0 [Hi0 Hli0]] [j0 [Hj0 Hlj0]].
  unfold next_entry. apply Nat.eqb_neq in Hpq. rewrite Hpq.
  rewrite (crop_square _ _ _ p q Hsq Hlen). simpl.
  set (flat := concat _).
  assert (Hne : flat <> []).
  { intros Hnil.
    assert (Hin : In (mget M i0 j0) flat).
    { apply In_block. exists i0, j0.
      repeat split; apply mask_indices_In; split; congruence || lia. }
    rewrite Hnil in Hin. destruct Hin. }
  destruct (argmin_ok _ Hne) as [a Ha]. rewrite Ha. simpl.
  exists (nth a flat 0%Q). split; [reflexivity|].
  destruct (argmin_spec _ _ Ha) as [Hlt Hmin]. split.
  - assert (Hin : In (nth a flat 0%Q) flat) by now apply nth_In.
    apply In_block in Hin. destruct Hin as [i [j [Hi [Hj Hv]]]].
    apply mask_indices_In in Hi, Hj. exists i, j. tauto.
  - intros i j Hi Hj Hli Hlj. apply Hmin, In_block. exists i, j.
    repeat split; apply mask_indices_In; auto.
Qed.

(** What [concat_cluster] returns on a square matrix whose rows and columns
    are all labelled and whose clusters are non-empty. *)
Lemma concat_cluster_spec n M C labels :
  square n M -> length labels = n ->
  (forall p, p < C -> exists i, i < n /\ nth i labels 0 = p) ->
  exists M', concat_cluster M C labels = Ok M' /\ square C M' /\
    forall p q, p < C -> q < C ->
      (p = q -> mget M' p q = INF) /\
      (p <> q -> block_min M labels p q (mget M' p q)).
Proof.
  intros Hsq Hlen Hne. destruct (square_shape _ _ Hsq) as [H0 H1].
  unfold concat_cluster. rewrite H0, H1, Nat.eqb_refl. simpl.
  assert (Hcell : forall p q, p < C -> q < C ->
            exists v, next_entry M labels p q = Ok v).
  { intros p q Hp Hq. destruct (Nat.eq_dec p q) as [->|Hpq].
    - rewrite next_entry_diag. eauto.
    - destruct (next_entry_min _ _ _ _ _ Hsq Hlen Hpq (Hne p Hp) (Hne q Hq)) as [v [Hv _]].
      eauto. }
  destruct (mapM_ok_ex
              (fun i => mapM (next_entry M labels i) (seq 0 C)) (seq 0 C))
    as [M' HM'].
  { intros p Hp. apply in_seq in Hp. apply mapM_ok_ex.
    intros q Hq. apply in_seq in Hq. apply Hcell; lia. }
  exists M'. split; [exact HM'|].
  destruct (mapM_ok_inv _ _ _ HM') as [HlenM Hrows].
  rewrite length_seq in HlenM, Hrows.
  assert (Hrow : forall p, p < C ->
            mapM (next_entry M labels p) (seq 0 C) = Ok (nth p M' [])).
  { intros p Hp. specialize (Hrows p [] 0 Hp).
    now rewrite nth_seq0 in Hrows. }
  split.
  - split; [assumption|]. apply Forall_forall. intros row Hin.
    destruct (In_nth _ _ [] Hin) as [p [Hp <-]].
    rewrite HlenM in Hp. destruct (mapM_ok_inv _ _ _ (Hrow p Hp)) as [Hl _].
    now rewrite length_seq in Hl.
  - intros p q Hp Hq.
    destruct (mapM_ok_inv _ _ _ (Hrow p Hp)) as [_ Hcells].
    rewrite length_seq in Hcells. specialize (Hcells q 0%Q 0 Hq).
    rewrite nth_seq0 in Hcells by exact Hq. fold (mget M' p q) in Hcells.
    split.
    + intros ->. rewrite next_entry_diag in Hcells. congruence.
    + intros Hpq.
      destruct (next_entry_min _ _ _ _ _ Hsq Hlen Hpq (Hne p Hp) (Hne q Hq))
        as [v [Hv Hmin]].
      rewrite Hv in Hcells. inversion Hcells; subst. exact Hmin.
Qed.

(** ** Reachability *)

Section ReachFacts.
Variable e : nat -> nat -> bool.

Lemma warshall_S k u v :
  warshall e k u v = true -> warshall e (S k) u v = true.
Proof. simpl. intros ->. reflexivity. Qed.

Lemma warshall_mono k k' u v :
  k <= k' -> warshall e k u v = true -> warshall e k' u v = true.
Proof. induction 1; auto using warshall_S. Qed.

Lemma warshall_refl k u : warshall e k u u = true.
Proof.
  apply (warshall_mono 0 k); [lia|]. simpl. now rewrite Nat.eqb_refl.
Qed.

Lemma warshall_edge k u v : e u v = true -> warshall e k u v = true.
Proof.
  intros H. apply (warshall_mono 0 k); [lia|]. simpl. rewrite H.
  apply orb_true_r.
Qed.

Lemma walk_trans u w v : walk e u w -> walk e w v -> walk e u v.
Proof. induction 1; eauto using walk_step. Qed.

Lemma walk_edge u v : e u v = true -> walk e u v.
Proof. intros H. eapply walk_step; [exact H|apply walk_refl]. Qed.

Lemma warshall_sound k : forall u v,
  warshall e k u v = true -> walk e u v.
Proof.
  induction k as [|k IH]; simpl; intros u v H.
  - apply orb_true_iff in H. destruct H as [H|H].
    + apply Nat.eqb_eq in H. subst. apply walk_refl.
    + now apply walk_edge.
  - apply orb_true_iff in H. destruct H as [H|H]; [auto|].
    apply andb_true_iff in H. destruct H as [H1 H2].
    eapply walk_trans; eauto.
Qed.

Lemma bwalk_split k u v :
  bwalk e (S k) u v ->
  bwalk e k u v \/ (bwalk e k u k /\ bwalk e k k v).
Proof.
  induction 1 as [u|u v He|u w v He Hw _ IH].
  - left. apply bw_refl.
  - left. now apply bw_edge.
  - assert (Hc : w < k \/ w = k) by lia. destruct Hc as [Hlt| ->].
    + destruct IH as [IH|[IH1 IH2]].
      * left. eapply bw_step; eauto.
      * right. split; [eapply bw_step; eauto|assumption].
    + destruct IH as [IH|[_ IH2]]; right; split; auto using bw_edge.
Qed.

Lemma warshall_complete k : forall u v,
  bwalk e k u v -> warshall e k u v = true.
Proof.
  induction k as [|k IH]; intros u v H.
  - simpl. inversion H; subst.
    + now rewrite Nat.eqb_refl.
    + rewrite H0. apply orb_true_r.
    + lia.
  - simpl. destruct (bwalk_split _ _ _ H) as [H1|[H1 H2]].
    + now rewrite (IH _ _ H1).
    + rewrite (IH _ _ H1), (IH _ _ H2). apply orb_true_r.
Qed.

Lemma walk_bwalk n u v :
  (forall a b, e a b = true -> a < n) -> walk e u v -> bwalk e n u v.
Proof.
  intros Hsrc. induction 1 as [u|u w v He Hwalk IH].
  - apply bw_refl.
  - inversion Hwalk; subst.
    + now apply bw_edge.
    + eapply bw_step; eauto.
Qed.

Lemma warshall_iff n u v :
  (forall a b, e a b = true -> a < n) ->
  warshall e n u v = true <-> walk e u v.
Proof.
  intros Hsrc. split.
  - apply warshall_sound.
  - intros H. now apply warshall_complete, walk_bwalk.
Qed.
End ReachFacts.

Lemma walk_incl (e e' : nat -> nat -> bool) u v :
  (forall a b, e a b = true -> walk e' a b) -> walk e u v -> walk e' u v.
Proof.
  intros Hinc. induction 1 as [u|u w v He _ IH].
  - apply walk_refl.
  - eapply walk_trans; [apply Hinc; exact He|exact IH].
Qed.

Lemma walk_sym (e : nat -> nat -> bool) u v :
  (forall a b, e a b = e b a) -> walk e u v -> walk e v u.
Proof.
  intros Hsym. induction 1 as [u|u w v He _ IH].
  - apply walk_refl.
  - eapply walk_trans; [exact IH|]. apply walk_edge. now rewrite Hsym.
Qed.

(** ** Edges of a matrix *)

Lemma mget_out_row (g : matrix) u v : length g <= u -> mget g u v = 0%Q.
Proof.
  intros H. unfold mget. rewrite (nth_overflow g) by exact H. now destruct v.
Qed.

Lemma mget_out_col (g : matrix) u v :
  length (nth u g []) <= v -> mget g u v = 0%Q.
Proof. intros H. unfold mget. now rewrite nth_overflow. Qed.

Lemma edge_src g u v : edge g u v = true -> u < length g.
Proof.
  unfold edge, nonzerob. intros H.
  destruct (Nat.lt_ge_cases u (length g)) as [Hlt|Hge]; [assumption|].
  rewrite mget_out_row in H by exact Hge. discriminate.
Qed.

Lemma edge_dst n g u v : square n g -> edge g u v = true -> v < n.
Proof.
  intros Hsq H. pose proof (edge_src _ _ _ H) as Hu.
  destruct (Nat.lt_ge_cases v n) as [Hlt|Hge]; [assumption|].
  unfold edge, nonzerob in H. rewrite mget_out_col in H; [discriminate|].
  destruct Hsq as [Hl Hr]. rewrite (square_row n g u (conj Hl Hr)); lia.
Qed.

Lemma wedge_sym g a b : wedge g a b = wedge g b a.
Proof. unfold wedge. apply orb_comm. Qed.

Lemma wedge_src n g u v : square n g -> wedge g u v = true -> u < length g.
Proof.
  intros Hsq H. unfold wedge in H. apply orb_true_iff in H.
  destruct H as [H|H].
  - eapply edge_src; eauto.
  - destruct Hsq as [Hl Hr]. rewrite Hl. eapply edge_dst; [split|]; eauto.
Qed.

Lemma reachable_iff g u v : reachable g u v = true <-> walk (edge g) u v.
Proof. unfold reachable. apply warshall_iff. apply edge_src. Qed.

Lemma conn_iff n g u v :
  square n g -> conn g u v = true <-> walk (wedge g) u v.
Proof.
  intros Hsq. unfold conn. apply warshall_iff.
  intros a b. apply (wedge_src n g a b Hsq).
Qed.

(** ** [connected_components] *)

Lemma conn_refl g u : conn g u u = true.
Proof. apply warshall_refl. Qed.

Lemma conn_edge g u v : wedge g u v = true -> conn g u v = true.
Proof. apply warshall_edge. Qed.

Lemma filter_length_lt {A} (f : A -> bool) l w :
  In w l -> f w = false -> length (filter f l) < length l.
Proof.
  induction l as [|x l IH]; simpl; [tauto|]. intros [->|Hin] Hf.
  - rewrite Hf. pose proof (filter_length_le f l). lia.
  - specialize (IH Hin Hf). destruct (f x); simpl; lia.
Qed.

Lemma filter_seq_none f s n :
  (forall v, s <= v < s + n -> f v = false) -> filter f (seq s n) = [].
Proof.
  revert s. induction n as [|n IH]; intros s H; simpl; [reflexivity|].
  rewrite (H s) by lia. apply IH. intros v Hv. apply H. lia.
Qed.

Lemma filter_seq_first f n r :
  r < n -> f r = true -> (forall v, v < r -> f v = false) ->
  hd r (filter f (seq 0 n)) = r.
Proof.
  intros Hr Hf Hlow.
  replace n with (r + (n - r)) by lia. rewrite seq_app, filter_app.
  rewrite filter_seq_none by (intros v Hv; apply Hlow; lia).
  simpl. destruct (n - r) as [|m] eqn:Hm; [lia|]. simpl. now rewrite Hf.
Qed.

Lemma filter_seq_rank f n : forall p r,
  p < length (filter f (seq 0 n)) ->
  nth p (filter f (seq 0 n)) 0 = r ->
  length (filter f (seq 0 r)) = p.
Proof.
  induction n as [|n IH]; intros p r Hp Hr; [simpl in Hp; lia|].
  rewrite seq_S, filter_app in Hp, Hr. simpl in Hp, Hr.
  destruct (Nat.lt_ge_cases p (length (filter f (seq 0 n)))) as [Hlt|Hge].
  - rewrite app_nth1 in Hr by exact Hlt. now apply IH.
  - rewrite app_nth2 in Hr by exact Hge. rewrite length_app in Hp.
    destruct (f n); simpl in *; [|lia].
    assert (Hz : p - length (filter f (seq 0 n)) = 0) by lia.
    rewrite Hz in Hr. subst r. lia.
Qed.

Lemma is_root_false g u v : v < u -> conn g v u = true -> is_root g u = false.
Proof.
  intros Hlt Hc. unfold is_root. apply not_true_is_false. intros H.
  rewrite forallb_forall in H.
  specialize (H v). rewrite Hc in H. simpl in H.
  assert (In v (seq 0 u)) by (apply in_seq; lia). now apply H in H0.
Qed.

Lemma is_root_inv g u :
  is_root g u = true -> forall v, v < u -> conn g v u = false.
Proof.
  unfold is_root. rewrite forallb_forall. intros H v Hv.
  apply negb_true_iff, H, in_seq. lia.
Qed.

Lemma is_root_ex g u :
  is_root g u = false -> exists v, v < u /\ conn g v u = true.
Proof.
  unfold is_root. intros H.
  destruct (existsb (fun v => conn g v u) (seq 0 u)) eqn:He.
  - apply existsb_exists in He. destruct He as [v [Hin Hv]].
    apply in_seq in Hin. exists v. split; [lia|assumption].
  - exfalso. assert (Ht : forallb (fun v => negb (conn g v u)) (seq 0 u) = true).
    { apply forallb_forall. intros v Hin. apply negb_true_iff.
      destruct (conn g v u) eqn:Hc; [|reflexivity].
      assert (existsb (fun v => conn g v u) (seq 0 u) = true)
        by (apply existsb_exists; eauto).
      congruence. }
    congruence.
Qed.

Lemma components_labels_length g :
  length (snd (connected_components g)) = length g.
Proof. simpl. now rewrite length_map, length_seq. Qed.

Lemma components_label_nth g i :
  i < length g -> nth i (snd (connected_components g)) 0 = label_of g i.
Proof.
  intros Hi. simpl.
  rewrite (nth_indep _ 0 (label_of g 0)) by (now rewrite length_map, length_seq).
  rewrite (map_nth (label_of g) (seq 0 (length g)) 0 i). now rewrite nth_seq0.
Qed.

(** Every label below the component count is carried by some node. *)
Lemma components_nonempty g p :
  p < n_components_of g ->
  exists i, i < length g /\ nth i (snd (connected_components g)) 0 = p.
Proof.
  unfold n_components_of. intros Hp.
  set (roots := filter (is_root g) (seq 0 (length g))) in *.
  set (r := nth p roots 0).
  assert (Hin : In r roots) by now apply nth_In.
  apply filter_In in Hin. destruct Hin as [Hr Hroot]. apply in_seq in Hr.
  exists r. split; [lia|]. rewrite components_label_nth by lia.
  unfold label_of, root_of.
  rewrite filter_seq_first.
  - now apply (filter_seq_rank (is_root g) (length g)).
  - lia.
  - apply conn_refl.
  - now apply is_root_inv.
Qed.

Lemma components_pos g : 0 < length g -> 1 <= n_components_of g.
Proof.
  intros H. unfold n_components_of.
  destruct (length g) as [|n]; [lia|]. simpl. lia.
Qed.

(** An edge between two distinct nodes leaves fewer components than nodes. *)
Lemma components_lt g u v :
  u < length g -> v < length g -> u <> v -> wedge g u v = true ->
  n_components_of g < length g.
Proof.
  intros Hu Hv Huv He. unfold n_components_of.
  apply Nat.lt_le_trans with (length (seq 0 (length g)));
    [|rewrite length_seq; lia].
  destruct (Nat.lt_ge_cases u v) as [Hlt|Hge].
  - apply (filter_length_lt _ _ v); [apply in_seq; lia|].
    apply (is_root_false g v u Hlt). now apply conn_edge.
  - apply (filter_length_lt _ _ u); [apply in_seq; lia|].
    apply (is_root_false g u v); [lia|]. apply conn_edge.
    now rewrite wedge_sym.
Qed.

(** ** The merging loop *)

Lemma combine_seq (l : list nat) d : forall s,
  combine (seq s (length l)) l =
  map (fun p => (p, nth (p - s) l d)) (seq s (length l)).
Proof.
  induction l as [|x l IH]; intros s; simpl; [reflexivity|].
  rewrite Nat.sub_diag. f_equal. rewrite IH. apply map_ext_in.
  intros p Hp. apply in_seq in Hp.
  replace (p - s) with (S (p - S s)) by lia. reflexivity.
Qed.

(** ** Finite entries *)

Lemma finiteb_nth row j :
  forallb finiteb row = true -> finiteb (nth j row 0%Q) = true.
Proof.
  intros H. destruct (Nat.lt_ge_cases j (length row)) as [Hlt|Hge].
  - rewrite forallb_forall in H. now apply H, nth_In.
  - rewrite nth_overflow by exact Hge. vm_compute. reflexivity.
Qed.

Lemma finiteb_mget M i j : all_finite M = true -> finiteb (mget M i j) = true.
Proof.
  intros H. unfold mget. apply finiteb_nth.
  destruct (Nat.lt_ge_cases i (length M)) as [Hlt|Hge].
  - unfold all_finite in H. rewrite forallb_forall in H. now apply H, nth_In.
  - now rewrite nth_overflow by exact Hge.
Qed.

Lemma all_finite_square n M :
  square n M ->
  (forall i j, i < n -> j < n -> finiteb (mget M i j) = true) ->
  all_finite M = true.
Proof.
  intros Hsq H. unfold all_finite. apply forallb_forall. intros row Hrow.
  apply forallb_forall. intros x Hx.
  destruct (In_nth _ _ [] Hrow) as [i [Hi Hr]].
  destruct (In_nth _ _ 0%Q Hx) as [j [Hj Hv]].
  pose proof Hsq as [Hl _]. rewrite Hl in Hi.
  rewrite <- Hr, (square_row n M i Hsq Hi) in Hj.
  rewrite <- Hv, <- Hr. now apply H.
Qed.

Lemma INF_finite : finiteb INF = true.
Proof. vm_compute. reflexivity. Qed.

Lemma radius_graph_square n X radius :
  square n X -> all_finite X = true ->
  radius_neighbors_graph X radius =
  Ok (tabulate n n (fun i j =>
        if negb (i =? j) && Qle_bool (mget X i j) radius then 1%Q else 0%Q)).
Proof.
  intros Hsq Hfin. unfold radius_neighbors_graph.
  rewrite (square_is_square n X Hsq), Hfin. destruct Hsq as [-> _].
  reflexivity.
Qed.

Lemma radius_graph_finite D radius g :
  radius_neighbors_graph D radius = Ok g -> all_finite D = true.
Proof.
  unfold radius_neighbors_graph.
  destruct (is_square D); [|discriminate].
  destruct (all_finite D); [reflexivity|discriminate].
Qed.

Lemma radius_graph_edge n X radius i j :
  i < n -> j < n -> i <> j -> (mget X i j <= radius)%Q ->
  edge (tabulate n n (fun i j =>
          if negb (i =? j) && Qle_bool (mget X i j) radius then 1%Q else 0%Q))
       i j = true.
Proof.
  intros Hi Hj Hij Hle. unfold edge. rewrite mget_tabulate by assumption.
  apply Nat.eqb_neq in Hij. rewrite Hij. simpl.
  apply Qle_bool_iff in Hle. rewrite Hle. reflexivity.
Qed.

(** One round on a state with at least two components: the round succeeds,
    keeps the invariant and leaves strictly fewer components. *)
Lemma connect_step_decreases st :
  loop_inv st -> 2 <= ls_n_components st ->
  exists st', connect_step st = Ok st' /\ loop_inv st' /\
              1 <= ls_n_components st' < ls_n_components st.
Proof.
  intros [n [Hn [HsqM [HsqG [Hbelow [Hcc Hfin]]]]]] HC.
  destruct st as [radius rng M C labels].
  cbn [ls_radius ls_rng ls_cropped ls_n_components ls_labels] in *.
  unfold connected_components in Hcc. injection Hcc as HCeq Hlab.
  assert (Hlen : length labels = n).
  { rewrite <- Hlab, length_map, length_seq. now destruct HsqG. }
  assert (Hne : forall p, p < C -> exists i, i < n /\ nth i labels 0 = p).
  { intros p Hp. rewrite <- HCeq in Hp.
    destruct (components_nonempty rng p Hp) as [i [Hi Hl]].
    exists i. destruct HsqG as [HlG _]. split; [lia|].
    now rewrite <- Hlab. }
  destruct (concat_cluster_spec n M C labels HsqM Hlen Hne)
    as [cdm [Hcdm [Hsqc Hent]]].
  unfold connect_step. cbn [ls_cropped ls_n_components ls_labels].
  rewrite Hcdm. cbn [bind].
  (* the row-wise argmin *)
  assert (Hrowlen : forall p, p < C -> length (nth p cdm []) = C)
    by (intros p Hp; now apply square_row).
  destruct (mapM_ok_ex argmin cdm) as [amins Ham].
  { intros row Hin. apply argmin_ok.
    destruct Hsqc as [_ Hr]. rewrite Forall_forall in Hr.
    specialize (Hr _ Hin). intros ->. simpl in Hr. lia. }
  rewrite Ham. cbn [bind].
  destruct (mapM_ok_inv _ _ _ Ham) as [Hlam Hnth].
  assert (HlenC : length cdm = C) by now destruct Hsqc.
  unfold shape0. rewrite HlenC, <- Hlam in *.
  rewrite (combine_seq amins 0), map_map. cbn [fst snd].
  rewrite Hlam in *.
  set (picked := map _ (seq 0 C)).
  assert (Hpk : forall p, p < C ->
            In (mget cdm p (nth p amins 0)) picked).
  { intros p Hp. unfold picked. apply in_map_iff. exists p.
    rewrite Nat.sub_0_r. split; [reflexivity|apply in_seq; lia]. }
  destruct (np_max picked) as [radius'|e] eqn:Hmax.
  2:{ unfold np_max in Hmax. destruct picked eqn:Hp0; [|discriminate].
      exfalso. apply (Hpk 0). lia. }
  cbn [bind]. destruct (np_max_spec _ _ Hmax) as [_ Hub].
  assert (Hfin' : all_finite cdm = true).
  { apply (all_finite_square C cdm Hsqc). intros p q Hp Hq.
    destruct (Hent p q Hp Hq) as [Hd Hmin].
    destruct (Nat.eq_dec p q) as [Hpq|Hpq].
    - rewrite (Hd Hpq). apply INF_finite.
    - destruct (Hmin Hpq) as [[i [j [_ [_ [_ [_ ->]]]]]] _].
      now apply finiteb_mget. }
  rewrite (radius_graph_square C cdm radius' Hsqc Hfin'). cbn [bind].
  set (rng' := tabulate C C _).
  unfold connected_components.
  eexists. split; [reflexivity|].
  cbn [ls_cropped ls_n_components ls_labels ls_rng].
  assert (Hsq' : square C rng') by apply square_tabulate.
  assert (Hbelow' : below_sentinel C cdm).
  { intros p q Hp Hq Hpq. destruct (Hent p q Hp Hq) as [_ Hmin].
    destruct (Hmin Hpq) as [[i [j [Hi [Hj [Hli [Hlj ->]]]]]] _].
    apply Hbelow; try lia. intros ->. congruence. }
  split.
  - exists C. cbn [ls_cropped ls_n_components ls_labels ls_rng].
    split; [lia|]. split; [exact Hsqc|]. split; [exact Hsq'|].
    split; [exact Hbelow'|]. split; [reflexivity|exact Hfin'].
  - assert (HlG : length rng' = C) by now destruct Hsq'.
    split.
    + apply components_pos. lia.
    + (* cluster 0 is joined to its nearest cluster *)
      set (a0 := nth 0 amins 0).
      assert (Ha0 : argmin (nth 0 cdm []) = Ok a0)
        by (apply (Hnth 0 0 []); lia).
      destruct (argmin_spec _ _ Ha0) as [Ha0lt Ha0min].
      rewrite Hrowlen in Ha0lt by lia.
      fold (mget cdm 0 a0) in Ha0min.
      assert (Hneq : 0 <> a0).
      { intros <-. destruct (Hent 0 0) as [Hd _]; try lia.
        rewrite (Hd eq_refl) in Ha0min.
        assert (H01 : (INF <= mget cdm 0 1)%Q).
        { apply Ha0min. unfold mget. apply nth_In. rewrite Hrowlen; lia. }
        specialize (Hbelow' 0 1). apply Qle_not_lt in H01. apply H01.
        apply Hbelow'; lia. }
      apply Nat.lt_le_trans with (length rng'); [|lia].
      apply (components_lt rng' 0 a0); try lia.
      unfold wedge. apply orb_true_iff. left. unfold rng'.
      apply radius_graph_edge; try lia. apply Hub, Hpk. lia.
Qed.

Lemma below_sentinelb_spec M :
  below_sentinelb M = true -> below_sentinel (length M) M.
Proof.
  unfold below_sentinelb. intros H i j Hi Hj Hij.
  rewrite forallb_forall in H.
  assert (Hrow := H i ltac:(apply in_seq; lia)).
  rewrite forallb_forall in Hrow.
  assert (Hc := Hrow j ltac:(apply in_seq; lia)).
  apply Nat.eqb_neq in Hij. rewrite Hij in Hc. simpl in Hc.
  apply Qnot_le_lt. intros Hle. apply Qle_bool_iff in Hle.
  rewrite Hle in Hc. discriminate.
Qed.

Lemma check_array_square n M :
  square n M -> 0 < n -> all_finite M = true -> check_array M = Ok M.
Proof.
  intros Hsq Hn Hfin. destruct (square_shape n M Hsq) as [H0 H1].
  unfold check_array. rewrite H0, H1, Hfin.
  assert (Hf : forallb (fun row => length row =? n) M = true).
  { apply forallb_forall. intros row Hin. destruct Hsq as [_ Hr].
    rewrite Forall_forall in Hr. apply Nat.eqb_eq. auto. }
  rewrite Hf. destruct n; [lia|]. reflexivity.
Qed.

Lemma connect_init_ok n D radius g :
  square n D -> 0 < n -> radius_neighbors_graph D radius = Ok g ->
  connect_init D radius =
  Ok (mk_state radius g D (n_components_of g)
               (map (label_of g) (seq 0 (length g)))) /\
  square n g.
Proof.
  intros Hsq Hn Hg. unfold connect_init.
  pose proof (radius_graph_finite _ _ _ Hg) as Hfin.
  rewrite (check_array_square n D Hsq Hn Hfin). cbn [bind].
  rewrite Hg. cbn [bind].
  split; [reflexivity|].
  rewrite (radius_graph_square n D radius Hsq Hfin) in Hg. injection Hg as <-.
  apply square_tabulate.
Qed.

Lemma connect_loop_terminates fuel : forall st,
  loop_inv st -> 1 <= ls_n_components st -> ls_n_components st <= S fuel ->
  exists ns st', connect_loop fuel st = Some (Ok (ns, st')) /\
    length ns <= ls_n_components st - 1 /\
    Sorted gt (ls_n_components st :: ns) /\
    ls_n_components st' = 1.
Proof.
  induction fuel as [|fuel IH]; intros st Hinv H1 Hle.
  - assert (Hone : ls_n_components st = 1) by lia.
    exists [], st. simpl. rewrite Hone. simpl.
    repeat split; try lia. repeat constructor.
  - destruct (Nat.eq_dec (ls_n_components st) 1) as [Hone|Hne].
    + exists [], st. simpl. rewrite Hone. simpl.
      repeat split; try lia. repeat constructor.
    + destruct (connect_step_decreases st Hinv) as [st1 [Hstep [Hinv1 Hdec]]];
        [lia|].
      destruct (IH st1 Hinv1) as [ns [st' [Hloop [Hlen [Hsorted Hfin]]]]];
        try lia.
      exists (ls_n_components st1 :: ns), st'.
      cbn [connect_loop]. apply Nat.eqb_neq in Hne. rewrite Hne.
      rewrite Hstep, Hloop. split; [reflexivity|].
      split; [simpl; lia|]. split; [|assumption].
      constructor; [assumption|]. constructor. lia.
Qed.

Lemma row_min_argmin row a :
  argmin row = Ok a -> row_min row (nth a row 0%Q).
Proof.
  intros Ha. destruct (argmin_spec _ _ Ha) as [Hlt Hmin].
  split; [now apply nth_In|assumption].
Qed.

(** What one round computes, whatever the state it starts from. *)
Lemma connect_step_inv st st' :
  connect_step st = Ok st' ->
  concat_cluster (ls_cropped st) (ls_n_components st) (ls_labels st)
    = Ok (ls_cropped st') /\
  max_of_row_minima (ls_cropped st') (ls_radius st') /\
  radius_neighbors_graph (ls_cropped st') (ls_radius st') = Ok (ls_rng st') /\
  connected_components (ls_rng st') = (ls_n_components st', ls_labels st').
Proof.
  unfold connect_step.
  destruct (concat_cluster _ _ _) as [cdm|e] eqn:Hcdm; cbn [bind];
    [|discriminate].
  destruct (mapM argmin cdm) as [amins|e] eqn:Ham; cbn [bind]; [|discriminate].
  destruct (mapM_ok_inv _ _ _ Ham) as [Hlam Hnth].
  unfold shape0. rewrite <- Hlam, (combine_seq amins 0), map_map. cbn [fst snd].
  rewrite Hlam.
  set (picked := map _ (seq 0 (length cdm))).
  destruct (np_max picked) as [radius'|e] eqn:Hmax; cbn [bind]; [|discriminate].
  destruct (radius_neighbors_graph cdm radius') as [rng'|e] eqn:Hg;
    cbn [bind]; [|discriminate].
  unfold connected_components. intros H. injection H as <-.
  cbn [ls_cropped ls_n_components ls_labels ls_rng ls_radius].
  split; [reflexivity|]. split; [|split; [assumption|reflexivity]].
  destruct (np_max_spec _ _ Hmax) as [Hin Hub].
  assert (Hpk : forall p, p < length cdm ->
            row_min (nth p cdm []) (mget cdm p (nth p amins 0))).
  { intros p Hp. apply row_min_argmin. apply Hnth. exact Hp. }
  split.
  - apply in_map_iff in Hin. destruct Hin as [p [Hp Hin]].
    apply in_seq in Hin. rewrite Nat.sub_0_r in Hp. exists p.
    split; [lia|]. rewrite <- Hp. apply Hpk. lia.
  - intros p v Hp [_ Hv]. apply Qle_trans with (mget cdm p (nth p amins 0)).
    + apply Hv. apply (Hpk p Hp).
    + apply Hub. apply in_map_iff. exists p. rewrite Nat.sub_0_r.
      split; [reflexivity|apply in_seq; lia].
Qed.

(** ** [concat_cluster]: the reduced matrix *)

Lemma clusters_inhabited labels C :
  forallb (fun p => existsb (Nat.eqb p) labels) (seq 0 C) = true ->
  forall p, p < C -> exists i, i < length labels /\ nth i labels 0 = p.
Proof.
  intros H p Hp. rewrite forallb_forall in H.
  assert (He := H p ltac:(apply in_seq; lia)).
  apply existsb_exists in He. destruct He as [x [Hin Hx]].
  apply Nat.eqb_eq in Hx. subst x.
  destruct (In_nth _ _ 0 Hin) as [i [Hi Hnth]]. eauto.
Qed.

(** C3. On a square matrix whose rows and columns are each given one of
    [C] labels, every label in use, [concat_cluster] returns a [C] by [C]
    matrix; off the diagonal, entry (p, q) is the least [M[i][j]] with [i]
    labelled [p] and [j] labelled [q]; on the diagonal it is [INF]. *)
Theorem concat_cluster_block_minimum (M : matrix) (C : nat)
    (labels : list nat) :
  is_square M = true ->
  length labels = length M ->
  forallb (fun p => existsb (Nat.eqb p) labels) (seq 0 C) = true ->
  exists M', concat_cluster M C labels = Ok M' /\ square C M' /\
    forall p q, p < C -> q < C ->
      (p = q -> mget M' p q = INF) /\
      (p <> q -> block_min M labels p q (mget M' p q)).
Proof.
  intros Hsq Hlen Hfull.
  apply (concat_cluster_spec (length M)).
  - now apply is_square_square.
  - exact Hlen.
  - rewrite <- Hlen. now apply clusters_inhabited.
Qed.

Lemma concat_cluster_block_minimum_witness :
  (is_square line4 = true /\
   length [0; 0; 1; 1] = length line4 /\
   forallb (fun p => existsb (Nat.eqb p) [0; 0; 1; 1]) (seq 0 2) = true) /\
  exists M', concat_cluster line4 2 [0; 0; 1; 1] = Ok M' /\ square 2 M' /\
    forall p q, p < 2 -> q < 2 ->
      (p = q -> mget M' p q = INF) /\
      (p <> q -> block_min line4 [0; 0; 1; 1] p q (mget M' p q)).
Proof.
  split.
  - split; [reflexivity|]. split; reflexivity.
  - apply (concat_cluster_block_minimum line4 2 [0; 0; 1; 1]); reflexivity.
Defined.

Example concat_cluster_line4 :
  concat_cluster line4 2 [0; 0; 1; 1] = Ok [[INF; 9]; [9; INF]]%Q.
Proof. vm_compute. reflexivity. Qed.

(** ** [connect_rng]: one round *)

(** C2 (as the code has it). A round of the nature-mode loop reduces the
    current matrix with [concat_cluster], sets the threshold to the greatest
    of the row minima of the reduced matrix, and builds the next radius graph
    from that reduced matrix. *)
Theorem connect_step_threshold (st st' : loop_state) :
  connect_step st = Ok st' ->
  exists cdm,
    concat_cluster (ls_cropped st) (ls_n_components st) (ls_labels st)
      = Ok cdm /\
    ls_cropped st' = cdm /\
    max_of_row_minima cdm (ls_radius st') /\
    radius_neighbors_graph cdm (ls_radius st') = Ok (ls_rng st').
Proof.
  intros H. destruct (connect_step_inv st st' H) as [Hc [Hm [Hg _]]].
  exists (ls_cropped st'). auto.
Qed.

Lemma connect_step_threshold_witness :
  connect_step line3_start = Ok line3_next /\
  exists cdm,
    concat_cluster (ls_cropped line3_start) (ls_n_components line3_start)
      (ls_labels line3_start) = Ok cdm /\
    ls_cropped line3_next = cdm /\
    max_of_row_minima cdm (ls_radius line3_next) /\
    radius_neighbors_graph cdm (ls_radius line3_next)
      = Ok (ls_rng line3_next).
Proof.
  split.
  - vm_compute. reflexivity.
  - apply (connect_step_threshold line3_start line3_next).
    vm_compute. reflexivity.
Defined.

(** On [line3] with radius 1 the loop is entered with two components, and the
    graph built in the round is the 2 by 2 graph of the reduced matrix, not
    the radius graph of the 3 by 3 input at the new threshold. *)
Lemma connect_step_not_from_input :
  connect_init line3 1 = Ok line3_start /\
  ls_n_components line3_start = 2 /\
  connect_step line3_start = Ok line3_next /\
  radius_neighbors_graph line3 (ls_radius line3_next)
    = Ok [[0; 1; 0]; [1; 0; 1]; [0; 1; 0]]%Q /\
  radius_neighbors_graph line3 (ls_radius line3_next)
    <> Ok (ls_rng line3_next).
Proof.
  split; [vm_compute; reflexivity|].
  split; [reflexivity|].
  split; [vm_compute; reflexivity|].
  split; [vm_compute; reflexivity|].
  vm_compute. discriminate.
Qed.

(** ** [connect_rng]: termination *)

Lemma init_inv n D radius g :
  square n D -> 0 < n -> below_sentinel n D ->
  radius_neighbors_graph D radius = Ok g ->
  loop_inv (mk_state radius g D (n_components_of g)
                     (map (label_of g) (seq 0 (length g)))).
Proof.
  intros Hsq Hn Hb Hg.
  destruct (connect_init_ok n D radius g Hsq Hn Hg) as [_ HsqG].
  exists n. cbn [ls_cropped ls_n_components ls_labels ls_rng].
  split; [exact Hn|]. split; [exact Hsq|]. split; [exact HsqG|].
  split; [exact Hb|]. split; [reflexivity|].
  exact (radius_graph_finite _ _ _ Hg).
Qed.

Lemma radius_graph_length D radius g :
  radius_neighbors_graph D radius = Ok g ->
  is_square D = true /\ length g = length D.
Proof.
  unfold radius_neighbors_graph. destruct (is_square D); [|discriminate].
  destruct (all_finite D); [|discriminate]. cbn [andb].
  intros H. injection H as <-. split; [reflexivity|].
  unfold tabulate. now rewrite length_map, length_seq.
Qed.

Lemma components_le_length g : n_components_of g <= length g.
Proof.
  unfold n_components_of.
  apply Nat.le_trans with (length (seq 0 (length g)));
    [apply filter_length_le|rewrite length_seq; lia].
Qed.

(** C4 (as the code has it). In nature mode, when every distance between two
    distinct points lies below the sentinel and the base graph has [C >= 2]
    components, the loop ends with one component after at most [C - 1]
    rounds, the component count falling strictly from round to round. *)
Theorem connect_loop_rounds (dmatrix : matrix) (radius : Q) (g : matrix) :
  below_sentinelb dmatrix = true ->
  radius_neighbors_graph dmatrix radius = Ok g ->
  2 <= n_components_of g ->
  exists st0, connect_init dmatrix radius = Ok st0 /\
    ls_n_components st0 = n_components_of g /\
    forall fuel, n_components_of g - 1 <= fuel ->
      exists ns st, connect_loop fuel st0 = Some (Ok (ns, st)) /\
        length ns <= n_components_of g - 1 /\
        Sorted gt (n_components_of g :: ns) /\
        ls_n_components st = 1.
Proof.
  intros Hb Hg HC.
  destruct (radius_graph_length _ _ _ Hg) as [Hsqb Hlen].
  pose proof (is_square_square _ Hsqb) as Hsq.
  pose proof (components_le_length g) as Hle.
  assert (Hn : 0 < length dmatrix) by lia.
  destruct (connect_init_ok _ _ _ _ Hsq Hn Hg) as [Hinit _].
  eexists. split; [exact Hinit|]. split; [reflexivity|].
  intros fuel Hfuel.
  apply (connect_loop_terminates fuel
           (mk_state radius g dmatrix (n_components_of g)
                     (map (label_of g) (seq 0 (length g))))).
  - apply (init_inv (length dmatrix)); auto.
    now apply below_sentinelb_spec.
  - cbn [ls_n_components]. lia.
  - cbn [ls_n_components]. lia.
Qed.

Lemma connect_loop_rounds_witness :
  (below_sentinelb line4 = true /\
   radius_neighbors_graph line4 (1 # 2) = Ok (tabulate 4 4 (fun _ _ => 0%Q)) /\
   2 <= n_components_of (tabulate 4 4 (fun _ _ => 0%Q))) /\
  exists st0, connect_init line4 (1 # 2) = Ok st0 /\
    ls_n_components st0 = n_components_of (tabulate 4 4 (fun _ _ => 0%Q)) /\
    forall fuel,
      n_components_of (tabulate 4 4 (fun _ _ => 0%Q)) - 1 <= fuel ->
      exists ns st, connect_loop fuel st0 = Some (Ok (ns, st)) /\
        length ns <= n_components_of (tabulate 4 4 (fun _ _ => 0%Q)) - 1 /\
        Sorted gt (n_components_of (tabulate 4 4 (fun _ _ => 0%Q)) :: ns) /\
        ls_n_components st = 1.
Proof.
  split.
  - split; [vm_compute; reflexivity|].
    split; [vm_compute; reflexivity|vm_compute; lia].
  - apply (connect_loop_rounds line4 (1 # 2)).
    + vm_compute. reflexivity.
    + vm_compute. reflexivity.
    + vm_compute. lia.
Defined.

Example connect_loop_line4 :
  match connect_init line4 (1 # 2) with
  | Ok st0 =>
      ls_n_components st0 = 4 /\
      match connect_loop 3 st0 with
      | Some (Ok (ns, st)) => ns = [2; 1] /\ ls_radius st = 9%Q
      | _ => False
      end
  | Raise _ => False
  end.
Proof. vm_compute. repeat split. Qed.

Lemma far2_loop_stuck fuel : connect_loop fuel far2_stuck = None.
Proof.
  induction fuel as [|fuel IH]; [reflexivity|].
  cbn [connect_loop].
  replace (ls_n_components far2_stuck =? 1) with false by reflexivity.
  replace (connect_step far2_stuck) with (Ok far2_stuck)
    by (vm_compute; reflexivity).
  now rewrite IH.
Qed.

Lemma far2_diverges fuel : connect_loop fuel far2_start = None.
Proof.
  destruct fuel as [|fuel]; [reflexivity|].
  cbn [connect_loop].
  replace (ls_n_components far2_start =? 1) with false by reflexivity.
  replace (connect_step far2_start) with (Ok far2_stuck)
    by (vm_compute; reflexivity).
  now rewrite far2_loop_stuck.
Qed.

Lemma array_truth_many a :
  2 <= length (concat (concat a)) -> array_truth a = Raise ValueError.
Proof.
  unfold array_truth. destruct (concat (concat a)) as [|x [|y l]]; simpl;
    [lia|lia|reflexivity].
Qed.

Lemma index_map_size nd : 0 < nd -> 2 <= length (concat (concat (index_map nd))).
Proof.
  destruct nd as [|k]; [lia|]. intros _. unfold index_map.
  simpl. rewrite !length_app, concat_app, length_app. simpl. lia.
Qed.

(** In force mode a base graph of two or more components never gets through
    its first round: [concat_cluster] asks the index map, an array of
    [2 * nd * nd] elements, for its truth value. *)
Lemma connect_rng_force_raises hp rest same_nbrs dmatrix radius g :
  radius_neighbors_graph dmatrix radius = Ok g ->
  n_components_of g <> 1 ->
  connect_rng_force hp rest same_nbrs dmatrix radius = Raise ValueError.
Proof.
  intros Hg HC. unfold connect_rng_force.
  destruct (check_array dmatrix) as [d|e] eqn:Hca.
  2:{ unfold check_array in Hca.
      destruct ((0 <? shape0 dmatrix) && (0 <? shape1 dmatrix)
                && forallb (fun row => length row =? shape1 dmatrix) dmatrix
                && all_finite dmatrix); [discriminate|].
      now injection Hca as <-. }
  assert (Hd : d = dmatrix /\ 0 < length dmatrix).
  { unfold check_array in Hca.
    destruct (0 <? shape0 dmatrix) eqn:H0; cbn [andb] in Hca;
      [|discriminate].
    apply Nat.ltb_lt in H0.
    destruct ((0 <? shape1 dmatrix)
              && forallb (fun row => length row =? shape1 dmatrix) dmatrix
              && all_finite dmatrix); [|discriminate].
    injection Hca as <-. split; [reflexivity|exact H0]. }
  destruct Hd as [-> Hn]. cbn [bind]. rewrite Hg. cbn [bind].
  unfold connected_components. apply Nat.eqb_neq in HC. rewrite HC.
  destruct (radius_graph_length _ _ _ Hg) as [Hsqb _].
  destruct (square_shape _ _ (is_square_square _ Hsqb)) as [H0 H1].
  rewrite H0, H1, Nat.eqb_refl. cbn [negb].
  rewrite array_truth_many by now apply index_map_size.
  reflexivity.
Qed.

(** On [far2] at radius 1 the base graph has two components and every
    distance is a finite float64, yet no amount of fuel lets the
    nature-mode loop end: the nearest "cluster" of each row is its own
    diagonal sentinel.  On [line3] at radius 1 the base graph has two
    components and force mode raises [ValueError] in its first round. *)
Lemma connect_loop_does_not_end :
  (radius_neighbors_graph far2 1 = Ok [[0; 0]; [0; 0]]%Q /\
   n_components_of [[0; 0]; [0; 0]]%Q = 2 /\
   connect_init far2 1 = Ok far2_start /\
   forall fuel, connect_loop fuel far2_start = None) /\
  (radius_neighbors_graph line3 1
     = Ok [[0; 1; 0]; [1; 0; 0]; [0; 0; 0]]%Q /\
   n_components_of [[0; 1; 0]; [1; 0; 0]; [0; 0; 0]]%Q = 2 /\
   connect_rng_force has_path_on_array no_force_rounds false line3 1
     = Raise ValueError /\
   connect_rng_force has_path_on_array no_force_rounds true line3 1
     = Raise ValueError).
Proof.
  split.
  - split; [vm_compute; reflexivity|].
    split; [vm_compute; reflexivity|].
    split; [vm_compute; reflexivity|].
    exact far2_diverges.
  - split; [vm_compute; reflexivity|].
    split; [vm_compute; reflexivity|].
    split; vm_compute; reflexivity.
Qed.

(** ** [connect_rng] on a connected base graph *)

Lemma py_int_count (r : Q) (c : nat) :
  (r == inject_Z (Z.of_nat c))%Q ->
  py_int (r + (5 # 10))%Q = Z.of_nat c.
Proof.
  destruct r as [p q]. unfold Qeq, py_int, Qplus. simpl.
  intros H. rewrite Z.mul_1_r in H. subst p.
  rewrite Z.quot_div_nonneg by lia.
  symmetry. apply (Z.div_unique _ _ _ (5 * Z.pos q)); lia.
Qed.

Lemma connect_loop_single fuel st :
  ls_n_components st = 1 -> connect_loop fuel st = Some (Ok ([], st)).
Proof. intros H. destruct fuel; simpl; now rewrite H. Qed.

(** C8 (as the code has it). When the base radius graph is a single
    component, nature-mode [connect_rng] returns that base graph.  In radius
    mode it stores the threshold it was given.  In count mode it stores
    [int(radius + 0.5)]: for a whole-number threshold below 2^52, where
    adding 0.5 is exact, that is the threshold it was given. *)
Theorem connect_rng_connected_input (fuel : nat) (self : CkNN.t)
    (dmatrix : matrix) (radius : Q) (g : matrix) :
  radius_neighbors_graph dmatrix radius = Ok g ->
  n_components_of g = 1 ->
  connect_rng fuel self dmatrix radius
    = Some (Ok (g, store_threshold self radius)) /\
  (CkNN.neighbors self = "delta"%string ->
   CkNN.delta (store_threshold self radius) = Some radius) /\
  (CkNN.neighbors self <> "delta"%string ->
   forall c : nat, (Z.of_nat c < 2 ^ 52)%Z ->
   (radius == inject_Z (Z.of_nat c))%Q ->
   CkNN.k (store_threshold self radius) = Some (Z.of_nat c)).
Proof.
  intros Hg Hone.
  destruct (radius_graph_length _ _ _ Hg) as [Hsqb Hlen].
  pose proof (is_square_square _ Hsqb) as Hsq.
  pose proof (components_le_length g) as Hle.
  assert (Hn : 0 < length dmatrix) by lia.
  destruct (connect_init_ok _ _ _ _ Hsq Hn Hg) as [Hinit _].
  split; [|split].
  - unfold connect_rng. rewrite Hinit.
    rewrite connect_loop_single by exact Hone.
    cbn [ls_radius]. rewrite Hg. reflexivity.
  - intros Hd. unfold store_threshold. rewrite Hd. reflexivity.
  - intros Hd c _ Hc. unfold store_threshold.
    apply String.eqb_neq in Hd. rewrite Hd. cbn [CkNN.set_k CkNN.k].
    now rewrite (py_int_count radius c Hc).
Qed.

Lemma connect_rng_connected_input_witness :
  (radius_neighbors_graph line3 4
     = Ok [[0; 1; 0]; [1; 0; 1]; [0; 1; 0]]%Q /\
   n_components_of [[0; 1; 0]; [1; 0; 1]; [0; 1; 0]]%Q = 1) /\
  connect_rng 0 cknn_k line3 4
    = Some (Ok ([[0; 1; 0]; [1; 0; 1]; [0; 1; 0]]%Q,
                store_threshold cknn_k 4)) /\
  (CkNN.neighbors cknn_k = "delta"%string ->
   CkNN.delta (store_threshold cknn_k 4) = Some 4%Q) /\
  (CkNN.neighbors cknn_k <> "delta"%string ->
   forall c : nat, (Z.of_nat c < 2 ^ 52)%Z ->
   (4 == inject_Z (Z.of_nat c))%Q ->
   CkNN.k (store_threshold cknn_k 4) = Some (Z.of_nat c)).
Proof.
  assert (H1 : radius_neighbors_graph line3 4
               = Ok [[0; 1; 0]; [1; 0; 1]; [0; 1; 0]]%Q)
    by (vm_compute; reflexivity).
  assert (H2 : n_components_of [[0; 1; 0]; [1; 0; 1]; [0; 1; 0]]%Q = 1)
    by (vm_compute; reflexivity).
  split; [split; [exact H1|exact H2]|].
  exact (connect_rng_connected_input 0 cknn_k line3 4 _ H1 H2).
Defined.

(** In count mode a threshold of 4.5 on [line3], whose base graph is one
    component, is returned as the count 5. *)
Lemma connect_rng_rounds_count :
  radius_neighbors_graph line3 (9 # 2)
    = Ok [[0; 1; 0]; [1; 0; 1]; [0; 1; 0]]%Q /\
  n_components_of [[0; 1; 0]; [1; 0; 1]; [0; 1; 0]]%Q = 1 /\
  connect_rng 0 cknn_k line3 (9 # 2)
    = Some (Ok ([[0; 1; 0]; [1; 0; 1]; [0; 1; 0]]%Q,
                CkNN.set_k cknn_k (Some 5%Z))) /\
  ~ (inject_Z 5 == 9 # 2)%Q.
Proof.
  split; [vm_compute; reflexivity|].
  split; [vm_compute; reflexivity|].
  split; [vm_compute; reflexivity|].
  vm_compute. discriminate.
Qed.

Example connect_rng_count_mode :
  connect_rng 0 cknn_k line3 4
    = Some (Ok ([[0; 1; 0]; [1; 0; 1]; [0; 1; 0]]%Q,
                CkNN.set_k cknn_k (Some 4%Z))).
Proof. vm_compute. reflexivity. Qed.

(** ** Updating one entry *)

Lemma set_nth_length {A} (l : list A) j x : length (set_nth l j x) = length l.
Proof.
  revert j. induction l as [|y l IH]; intros [|j]; simpl; auto.
Qed.

Lemma nth_set_nth {A} (l : list A) j x k d :
  nth k (set_nth l j x) d =
  if (k =? j) && (j <? length l) then x else nth k l d.
Proof.
  revert j k. induction l as [|y l IH]; intros j k; simpl.
  - destruct j, k; simpl; try reflexivity.
    now rewrite andb_false_r.
  - destruct j as [|j], k as [|k]; simpl; try reflexivity.
    rewrite IH. reflexivity.
Qed.

Lemma mget_mset g i j x a b :
  mget (mset g i j x) a b =
  if (a =? i) && (b =? j) && in_range g i j then x else mget g a b.
Proof.
  unfold mget, mset, in_range. rewrite nth_set_nth.
  destruct (a =? i) eqn:Hai; simpl; [|reflexivity].
  apply Nat.eqb_eq in Hai. subst a.
  destruct (i <? length g) eqn:Hi; simpl.
  - rewrite nth_set_nth. reflexivity.
  - now rewrite andb_false_r.
Qed.

Lemma mget_mset_same g i j : mget (mset g i j 0%Q) i j = 0%Q.
Proof.
  rewrite mget_mset, !Nat.eqb_refl. simpl.
  destruct (in_range g i j) eqn:Hr; [reflexivity|].
  unfold in_range in Hr. apply andb_false_iff in Hr. destruct Hr as [Hr|Hr].
  - apply Nat.ltb_ge in Hr. now apply mget_out_row.
  - apply Nat.ltb_ge in Hr. now apply mget_out_col.
Qed.

Lemma mget_mset_other g i j x a b :
  (a, b) <> (i, j) -> mget (mset g i j x) a b = mget g a b.
Proof.
  intros Hne. rewrite mget_mset.
  destruct (a =? i) eqn:Ha; simpl; [|reflexivity].
  destruct (b =? j) eqn:Hb; simpl; [|reflexivity].
  apply Nat.eqb_eq in Ha, Hb. subst. congruence.
Qed.

Lemma mset_length g i j x : length (mset g i j x) = length g.
Proof. unfold mset. apply set_nth_length. Qed.

Lemma mset_row_length g i j x a :
  length (nth a (mset g i j x) []) = length (nth a g []).
Proof.
  unfold mset. rewrite nth_set_nth.
  destruct ((a =? i) && (i <? length g)) eqn:H; [|reflexivity].
  apply andb_true_iff in H. destruct H as [H _]. apply Nat.eqb_eq in H.
  subst. apply set_nth_length.
Qed.

Lemma mset_square n g i j x : square n g -> square n (mset g i j x).
Proof.
  intros [Hl Hr]. split; [now rewrite mset_length|].
  apply Forall_forall. intros row Hin.
  destruct (In_nth _ _ [] Hin) as [a [Ha <-]].
  rewrite mset_length in Ha. rewrite mset_row_length.
  apply (square_row n g a (conj Hl Hr)). lia.
Qed.

Lemma edge_in_range g i j : edge g i j = true -> in_range g i j = true.
Proof.
  intros H. unfold in_range. apply andb_true_iff. split; apply Nat.ltb_lt.
  - eapply edge_src; eauto.
  - destruct (Nat.lt_ge_cases j (length (nth i g []))) as [Hlt|Hge]; auto.
    unfold edge, nonzerob in H. rewrite mget_out_col in H by exact Hge.
    discriminate.
Qed.

(** Removing an entry removes at most that edge. *)
Lemma edge_removed_sub g i j a b :
  edge (mset g i j 0%Q) a b = true -> edge g a b = true /\ (a, b) <> (i, j).
Proof.
  unfold edge. intros H. split.
  - rewrite mget_mset in H.
    destruct ((a =? i) && (b =? j) && in_range g i j); [discriminate|exact H].
  - intros Heq. injection Heq as -> ->. rewrite mget_mset_same in H.
    discriminate.
Qed.

Lemma edge_removed_other g i j a b :
  edge g a b = true -> (a, b) <> (i, j) -> edge (mset g i j 0%Q) a b = true.
Proof. unfold edge. intros H Hne. now rewrite mget_mset_other. Qed.

(** Setting the entry to 1 again gives back every edge there was. *)
Lemma edge_restored g i j a b :
  edge g a b = true -> edge (mset (mset g i j 0%Q) i j 1%Q) a b = true.
Proof.
  intros H. unfold edge. rewrite mget_mset.
  destruct ((a =? i) && (b =? j)) eqn:Hab; simpl.
  - apply andb_true_iff in Hab. destruct Hab as [Ha Hb].
    apply Nat.eqb_eq in Ha, Hb. subst.
    assert (Hr : in_range (mset g i j 0%Q) i j = true).
    { unfold in_range. rewrite mset_length, mset_row_length.
      now apply edge_in_range. }
    rewrite Hr. reflexivity.
  - rewrite mget_mset, Hab. exact H.
Qed.

Lemma nonzero_In m i j : In (i, j) (nonzero m) <-> edge m i j = true.
Proof.
  unfold nonzero. rewrite in_flat_map. split.
  - intros [a [Ha Hin]]. apply in_map_iff in Hin.
    destruct Hin as [b [Heq Hb]]. injection Heq as <- <-.
    apply filter_In in Hb. tauto.
  - intros H. pose proof (edge_in_range _ _ _ H) as Hr.
    unfold in_range in Hr. apply andb_true_iff in Hr.
    destruct Hr as [Hi Hj]. apply Nat.ltb_lt in Hi, Hj.
    exists i. split; [apply in_seq; lia|].
    apply in_map_iff. exists j. split; [reflexivity|].
    apply filter_In. split; [apply in_seq; lia|exact H].
Qed.

(** ** The candidates of a row *)

Lemma in_range_mset g i j x a b :
  in_range (mset g i j x) a b = in_range g a b.
Proof. unfold in_range. now rewrite mset_length, mset_row_length. Qed.

Lemma insert_by_perm row c l : Permutation (insert_by row c l) (c :: l).
Proof.
  induction l as [|d l IH]; simpl; [reflexivity|].
  destruct (Qle_bool (nth c row 0%Q) (nth d row 0%Q)); [reflexivity|].
  rewrite IH. apply perm_swap.
Qed.

Lemma argsort_perm row : Permutation (argsort row) (seq 0 (length row)).
Proof.
  unfold argsort. induction (seq 0 (length row)) as [|c l IH]; simpl.
  - constructor.
  - rewrite insert_by_perm. now constructor.
Qed.

Lemma argsort_In row c : In c (argsort row) <-> c < length row.
Proof.
  split; intros H.
  - apply (Permutation_in _ (argsort_perm row)) in H. apply in_seq in H. lia.
  - apply (Permutation_in _ (Permutation_sym (argsort_perm row))).
    apply in_seq. lia.
Qed.

(** Selecting a row that is not there raises [IndexError], whichever
    position the row number has in [idx]. *)
Lemma take_rows_out a idx t :
  In t idx -> length a <= t -> take_rows a idx = Raise IndexError.
Proof.
  unfold take_rows. induction idx as [|x idx IH]; intros Hin Hge;
    [destruct Hin|].
  cbn [mapM]. destruct (x <? length a) eqn:Hx; cbn [bind]; [|reflexivity].
  destruct Hin as [->|Hin].
  - apply Nat.ltb_lt in Hx. lia.
  - now rewrite (IH Hin Hge).
Qed.

(** A row without base-graph edges offers no candidate. *)
Lemma row_indices_none rng i_row :
  filter (fun rc => fst rc =? i_row) (nonzero rng) = [] ->
  row_indices rng i_row = Ok [].
Proof. intros H. unfold row_indices. rewrite H. reflexivity. Qed.

(** With one base-graph edge the only row of [indices] holds one number. *)
Lemma row_indices_one rng i_row rc :
  filter (fun rc => fst rc =? i_row) (nonzero rng) = [rc] ->
  row_indices rng i_row = Ok [[fst rc]].
Proof. intros H. unfold row_indices. rewrite H. reflexivity. Qed.

(** With two base-graph edges the rows of [indices] are the pair of the two
    row numbers and the pair of the two column numbers, the former first
    unless the second edge is the heavier. *)
Lemma row_indices_two rng i_row rc1 rc2 :
  filter (fun rc => fst rc =? i_row) (nonzero rng) = [rc1; rc2] ->
  row_indices rng i_row =
  Ok (if Qle_bool (- mget rng (fst rc1) (snd rc1))
                  (- mget rng (fst rc2) (snd rc2))
      then [[fst rc1; fst rc2]; [snd rc1; snd rc2]]
      else [[snd rc1; snd rc2]; [fst rc1; fst rc2]]).
Proof.
  intros H. unfold row_indices. rewrite H.
  cbn [map argsort length seq fold_right insert_by nth].
  destruct (Qle_bool _ _); reflexivity.
Qed.

(** With three or more base-graph edges the selection of rows fails. *)
Lemma row_indices_many rng i_row :
  3 <= length (filter (fun rc => fst rc =? i_row) (nonzero rng)) ->
  row_indices rng i_row = Raise IndexError.
Proof.
  intros H. unfold row_indices.
  apply (take_rows_out _ _ 2); [|simpl; lia].
  apply argsort_In. rewrite length_map. lia.
Qed.

(** ** [np.bincount] *)

Lemma list_max_In l x : In x l -> x <= list_max l.
Proof.
  intros H. assert (Hf : Forall (fun k => k <= list_max l) l)
    by now apply list_max_le.
  rewrite Forall_forall in Hf. auto.
Qed.

Lemma bincount_enumerate l i c :
  In (i, c) (enumerate (bincount l)) -> c = count_occ Nat.eq_dec l i.
Proof.
  unfold enumerate. intros H.
  destruct (In_nth _ _ (0, 0) H) as [p [Hp Hnth]].
  rewrite length_combine, length_seq, Nat.min_id in Hp.
  rewrite combine_nth in Hnth by now rewrite length_seq.
  injection Hnth as Hi Hc. rewrite seq_nth in Hi by exact Hp.
  simpl in Hi. subst p. rewrite <- Hc.
  unfold bincount in *. destruct l as [|x l]; [simpl in Hp; lia|].
  rewrite length_map, length_seq in Hp.
  rewrite (nth_indep _ 0 (count_occ Nat.eq_dec (x :: l) 0))
    by now rewrite length_map, length_seq.
  rewrite (map_nth (count_occ Nat.eq_dec (x :: l))).
  now rewrite nth_seq0.
Qed.

Lemma bincount_covers l i :
  In i l -> In (i, count_occ Nat.eq_dec l i) (enumerate (bincount l)).
Proof.
  intros Hin. unfold enumerate, bincount.
  destruct l as [|x l]; [destruct Hin|].
  set (l' := x :: l) in *. rewrite length_map, length_seq.
  pose proof (list_max_In l' i Hin) as Hle.
  assert (Hi : i < S (list_max l')) by lia.
  replace (i, count_occ Nat.eq_dec l' i)
    with (nth i (combine (seq 0 (S (list_max l')))
                         (map (count_occ Nat.eq_dec l')
                              (seq 0 (S (list_max l'))))) (0, 0)).
  - apply nth_In. rewrite length_combine, length_map, !length_seq. lia.
  - rewrite combine_nth by now rewrite length_map, !length_seq.
    rewrite nth_seq0 by exact Hi.
    rewrite (nth_indep _ 0 (count_occ Nat.eq_dec l' 0))
      by now rewrite length_map, length_seq.
    rewrite (map_nth (count_occ Nat.eq_dec l')).
    now rewrite nth_seq0.
Qed.

Lemma conn_row_In m i :
  In i (map fst (nonzero m)) <-> exists j, edge m i j = true.
Proof.
  rewrite in_map_iff. split.
  - intros [[a b] [Hf Hin]]. simpl in Hf. subst a.
    exists b. now apply nonzero_In.
  - intros [j Hj]. exists (i, j). split; [reflexivity|now apply nonzero_In].
Qed.

(** ** The inner loop of [cut_rng] *)

Lemma restore_all_cons g a b pre :
  restore_all g ([a; b] :: pre) =
  restore_all (mset (mset g a b 0%Q) a b 1%Q) pre.
Proof. reflexivity. Qed.

Lemma all_rejected_pair hp g row pre :
  all_rejected hp g (row :: pre) = true -> exists a b, row = [a; b].
Proof.
  destruct row as [|a [|b [|c row]]]; cbn [all_rejected];
    try discriminate.
  intros _. now exists a, b.
Qed.

Lemma prune_row_ok hp cands : forall g g',
  prune_row hp g cands = Ok g' <->
  exists pre i j post,
    cands = pre ++ [i; j] :: post /\
    all_rejected hp g pre = true /\
    in_range (restore_all g pre) i j = true /\
    still_joined hp (mset (restore_all g pre) i j 0%Q) i j = Ok true /\
    g' = mset (restore_all g pre) i j 0%Q.
Proof.
  induction cands as [|row rest IH]; intros g g'.
  - cbn [prune_row]. split; [discriminate|].
    intros [pre [i [j [post [H _]]]]]. now destruct pre.
  - assert (Hbad : (forall a b, row <> [a; b]) ->
              ~ exists pre i j post,
                  row :: rest = pre ++ [i; j] :: post /\
                  all_rejected hp g pre = true /\
                  in_range (restore_all g pre) i j = true /\
                  still_joined hp (mset (restore_all g pre) i j 0%Q) i j
                    = Ok true /\
                  g' = mset (restore_all g pre) i j 0%Q).
    { intros Hno [pre [i [j [post [Hc [Hrej _]]]]]].
      destruct pre as [|r pre]; cbn [app] in Hc.
      - injection Hc as Hrow _. now apply (Hno i j).
      - injection Hc as <- _.
        destruct (all_rejected_pair _ _ _ _ Hrej) as [a [b Hab]].
        now apply (Hno a b). }
    destruct row as [|a [|b [|c row]]].
    + cbn [prune_row]. split; [discriminate|].
      intros H. exfalso. apply Hbad; [discriminate|exact H].
    + cbn [prune_row]. split; [discriminate|].
      intros H. exfalso. apply Hbad; [discriminate|exact H].
    + clear Hbad. cbn [prune_row]. unfold setitem.
      destruct (in_range g a b) eqn:Hr; cbn [bind].
      2:{ split; [discriminate|].
          intros [pre [i [j [post [Hc [Hrej [Hin _]]]]]]].
          destruct pre as [|r pre]; cbn [app] in Hc.
          - injection Hc as <- <- _. cbn [restore_all fold_left] in Hin.
            congruence.
          - injection Hc as <- _. cbn [all_rejected] in Hrej.
            rewrite Hr in Hrej. discriminate. }
      destruct (still_joined hp (mset g a b 0%Q) a b) as [[|]|e] eqn:Hj;
        cbn [bind].
      * split.
        -- intros H. injection H as <-. exists [], a, b, rest.
           cbn [app all_rejected restore_all fold_left]. auto.
        -- intros [pre [i [j [post [Hc [Hrej [Hin [Hacc Hg']]]]]]]].
           destruct pre as [|r pre]; cbn [app] in Hc.
           ++ injection Hc as <- <- _. now subst g'.
           ++ injection Hc as <- _. cbn [all_rejected] in Hrej.
              rewrite Hr, Hj in Hrej. discriminate.
      * rewrite in_range_mset, Hr. cbn [bind]. rewrite IH. split.
        -- intros [pre [i [j [post [Hc [Hrej [Hin [Hacc Hg']]]]]]]].
           exists ([a; b] :: pre), i, j, post.
           rewrite restore_all_cons. cbn [all_rejected app].
           rewrite Hr, Hj. cbn [andb]. subst rest. auto.
        -- intros [pre [i [j [post [Hc [Hrej [Hin [Hacc Hg']]]]]]]].
           destruct pre as [|r pre]; cbn [app] in Hc.
           ++ injection Hc as <- <- _.
              cbn [restore_all fold_left] in Hacc. congruence.
           ++ injection Hc as <- Hrest. cbn [all_rejected] in Hrej.
              rewrite Hr, Hj in Hrej. cbn [andb] in Hrej.
              rewrite restore_all_cons in Hin, Hacc, Hg'.
              exists pre, i, j, post. auto.
      * split; [discriminate|].
        intros [pre [i [j [post [Hc [Hrej [Hin [Hacc Hg']]]]]]]].
        destruct pre as [|r pre]; cbn [app] in Hc.
        -- injection Hc as <- <- _.
           cbn [restore_all fold_left] in Hacc. congruence.
        -- injection Hc as <- _. cbn [all_rejected] in Hrej.
           rewrite Hr, Hj in Hrej. discriminate.
    + cbn [prune_row]. split; [discriminate|].
      intros H. exfalso. apply Hbad; [discriminate|exact H].
Qed.

Lemma prune_row_exhausted hp cands : forall g,
  all_rejected hp g cands = true ->
  prune_row hp g cands = Raise GraphException.
Proof.
  induction cands as [|row rest IH]; intros g H; [reflexivity|].
  destruct (all_rejected_pair _ _ _ _ H) as [a [b ->]].
  cbn [all_rejected] in H. cbn [prune_row]. unfold setitem.
  destruct (in_range g a b) eqn:Hr; [|discriminate]. cbn [andb bind] in *.
  destruct (still_joined hp (mset g a b 0%Q) a b) as [[|]|e];
    try discriminate.
  cbn [bind]. rewrite in_range_mset, Hr. cbn [bind]. now apply IH.
Qed.

Lemma cut_rng_unfold hp rng critical_conn u :
  madd rng critical_conn = Ok u ->
  cut_rng hp rng critical_conn =
  fold_left (fun acc rc => g <- acc ;; cut_row hp rng g rc)
            (enumerate (bincount (map fst (nonzero critical_conn)))) (Ok u).
Proof. intros H. unfold cut_rng. now rewrite H. Qed.

(** C1 (as the code has it). The outer loop runs the inner loop for exactly
    the rows with a critical connection, one after the other.  The inner
    loop tries the candidates of the row in turn: a candidate is cleared,
    and the removal is kept exactly when [has_path] then reports a path in
    one direction or the other, which ends the loop for the row, no further
    candidate being tried; a candidate for which it reports none is set to 1
    and the next one is tried; when every candidate is rejected the call
    raises. *)
Theorem cut_rng_row_loop
    (has_path : matrix -> nat -> nat -> result bool)
    (rng critical_conn : matrix) :
  (forall i_row n_conn,
     In (i_row, n_conn)
        (enumerate (bincount (map fst (nonzero critical_conn)))) ->
     (0 < n_conn <-> exists j, edge critical_conn i_row j = true)) /\
  (forall i_row j, edge critical_conn i_row j = true ->
     exists n_conn,
       In (i_row, n_conn)
          (enumerate (bincount (map fst (nonzero critical_conn))))) /\
  (forall u, madd rng critical_conn = Ok u ->
     cut_rng has_path rng critical_conn =
     fold_left (fun acc rc => g <- acc ;; cut_row has_path rng g rc)
               (enumerate (bincount (map fst (nonzero critical_conn))))
               (Ok u)) /\
  (forall rng_conn i_row, cut_row has_path rng rng_conn (i_row, 0)
                          = Ok rng_conn) /\
  (forall rng_conn i_row n_conn g', 0 < n_conn ->
     (cut_row has_path rng rng_conn (i_row, n_conn) = Ok g' <->
      exists pre i j post,
        row_indices rng i_row = Ok (pre ++ [i; j] :: post) /\
        all_rejected has_path rng_conn pre = true /\
        in_range (restore_all rng_conn pre) i j = true /\
        still_joined has_path (mset (restore_all rng_conn pre) i j 0%Q) i j
          = Ok true /\
        g' = mset (restore_all rng_conn pre) i j 0%Q)) /\
  (forall rng_conn i_row n_conn indices, 0 < n_conn ->
     row_indices rng i_row = Ok indices ->
     all_rejected has_path rng_conn indices = true ->
     cut_row has_path rng rng_conn (i_row, n_conn) = Raise GraphException).
Proof.
  split; [|split; [|split; [|split; [|split]]]].
  - intros i_row n_conn Hin. apply bincount_enumerate in Hin. subst n_conn.
    rewrite <- conn_row_In.
    pose proof (count_occ_In Nat.eq_dec (map fst (nonzero critical_conn))
                             i_row) as H.
    unfold gt in H. symmetry. exact H.
  - intros i_row j He. eexists. apply bincount_covers.
    apply conn_row_In. eauto.
  - intros u Hu. now apply cut_rng_unfold.
  - reflexivity.
  - intros g i_row n_conn g' Hn. unfold cut_row. cbn [fst snd].
    apply Nat.ltb_lt in Hn. rewrite Hn.
    destruct (row_indices rng i_row) as [indices|e]; cbn [bind].
    + rewrite prune_row_ok. split.
      * intros [pre [i [j [post [-> H]]]]]. exists pre, i, j, post. auto.
      * intros [pre [i [j [post [Hc H]]]]]. injection Hc as ->.
        exists pre, i, j, post. auto.
    + split; [discriminate|].
      intros [pre [i [j [post [Hc _]]]]]. discriminate.
  - intros g i_row n_conn indices Hn Hind Hrej. unfold cut_row.
    cbn [fst snd]. apply Nat.ltb_lt in Hn. rewrite Hn, Hind. cbn [bind].
    now apply prune_row_exhausted.
Qed.

(** On [tri_rng] row 0 has the base-graph edges (0, 1) and (0, 2), and the
    removal of either leaves its ends joined, so the pruning as specified
    removes both.  The code iterates over the positions (0, 0) and (1, 2)
    instead, keeps the first, whose two ends are one node, tries no other,
    and returns the sum of its arguments with no edge removed.  The same
    happens on [bridge_rng], where the pruning as specified puts the heavy
    edge (0, 1) back and stops.  On [pair_rng], whose row 0 has one
    base-graph edge, the only row of [indices] holds one number and cannot be
    unpacked. *)
Lemma cut_rng_not_as_specified :
  (candidates_as_specified tri_rng 0 = [(0, 1); (0, 2)] /\
   cut_rng_as_specified tri_rng tri_critical
     = Ok [[0; 0; 0; 1]; [1; 0; 1; 0]; [1; 0; 0; 0]; [0; 0; 0; 0]]%Q /\
   row_indices tri_rng 0 = Ok [[0; 0]; [1; 2]] /\
   cut_rng has_path_on_array tri_rng tri_critical
     = Ok [[0; 1; 1; 1]; [1; 0; 1; 0]; [1; 0; 0; 0]; [0; 0; 0; 0]]%Q) /\
  (cut_rng_as_specified bridge_rng tri_critical
     = Ok [[0; 1; 1; 1]; [0; 0; 0; 0]; [1; 0; 0; 0]; [0; 0; 0; 0]]%Q /\
   cut_rng has_path_on_array bridge_rng tri_critical
     = Ok [[0; 2; 1; 1]; [0; 0; 0; 0]; [1; 0; 0; 0]; [0; 0; 0; 0]]%Q) /\
  (cut_rng_as_specified pair_rng pair_critical = Ok [[0; 0]; [1; 0]]%Q /\
   row_indices pair_rng 0 = Ok [[0]] /\
   cut_rng has_path_on_array pair_rng pair_critical = Raise ValueError).
Proof.
  split; [|split].
  - split; [vm_compute; reflexivity|].
    split; [vm_compute; reflexivity|].
    split; vm_compute; reflexivity.
  - split; vm_compute; reflexivity.
  - split; [vm_compute; reflexivity|].
    split; vm_compute; reflexivity.
Qed.

(** ** [cut_rng] keeps the graph in one piece *)

Lemma edge_walk_wedge g u v : walk (edge g) u v -> walk (wedge g) u v.
Proof.
  apply walk_incl. intros a b H. apply walk_edge. unfold wedge.
  now rewrite H.
Qed.

Lemma pair_eq_dec (p q : nat * nat) : {p = q} + {p <> q}.
Proof. decide equality; apply Nat.eq_dec. Qed.

Lemma still_joined_walk hp g i j :
  (forall g i j, hp g i j = Ok true -> walk (edge g) i j) ->
  still_joined hp g i j = Ok true ->
  walk (edge g) i j \/ walk (edge g) j i.
Proof.
  intros Hs. unfold still_joined.
  destruct (hp g i j) as [[|]|e] eqn:H1; cbn [bind].
  - intros _. left. now apply Hs.
  - intros H2. right. now apply Hs.
  - discriminate.
Qed.

Lemma removal_keeps_walks g i j u v :
  walk (edge (mset g i j 0%Q)) i j \/ walk (edge (mset g i j 0%Q)) j i ->
  walk (wedge g) u v -> walk (wedge (mset g i j 0%Q)) u v.
Proof.
  intros Hj.
  assert (Hij : walk (wedge (mset g i j 0%Q)) i j).
  { destruct Hj as [Hj|Hj].
    - now apply edge_walk_wedge.
    - apply walk_sym; [apply wedge_sym|]. now apply edge_walk_wedge. }
  apply walk_incl. intros a b H. unfold wedge in H.
  apply orb_true_iff in H. destruct H as [H|H].
  - destruct (pair_eq_dec (a, b) (i, j)) as [Heq|Hne].
    + injection Heq as -> ->. exact Hij.
    + apply walk_edge. unfold wedge.
      now rewrite (edge_removed_other g i j a b H Hne).
  - destruct (pair_eq_dec (b, a) (i, j)) as [Heq|Hne].
    + injection Heq as -> ->. apply walk_sym; [apply wedge_sym|exact Hij].
    + apply walk_edge. unfold wedge.
      rewrite (edge_removed_other g i j b a H Hne). apply orb_true_r.
Qed.

Lemma restore_keeps_walks g i j u v :
  walk (wedge g) u v -> walk (wedge (mset (mset g i j 0%Q) i j 1%Q)) u v.
Proof.
  apply walk_incl. intros a b H. apply walk_edge. unfold wedge in *.
  apply orb_true_iff in H. apply orb_true_iff.
  destruct H as [H|H]; [left|right]; now apply edge_restored.
Qed.

Lemma restore_all_keeps n pre : forall g,
  square n g -> connected_graph n g ->
  square n (restore_all g pre) /\ connected_graph n (restore_all g pre).
Proof.
  induction pre as [|row pre IH]; intros g Hsq Hc; [now split|].
  destruct row as [|a [|b [|c row]]]; try (apply IH; assumption).
  rewrite restore_all_cons. apply IH.
  - now repeat apply mset_square.
  - intros u v Hu Hv. apply restore_keeps_walks; auto.
Qed.

Lemma prune_row_keeps hp n cands g g' :
  (forall g i j, hp g i j = Ok true -> walk (edge g) i j) ->
  square n g -> connected_graph n g -> prune_row hp g cands = Ok g' ->
  square n g' /\ connected_graph n g'.
Proof.
  intros Hs Hsq Hc H. apply prune_row_ok in H.
  destruct H as [pre [i [j [post [_ [_ [_ [Hacc ->]]]]]]]].
  destruct (restore_all_keeps n pre g Hsq Hc) as [Hsq' Hc'].
  split; [now apply mset_square|].
  intros u v Hu Hv. apply removal_keeps_walks; auto.
  now apply (still_joined_walk hp).
Qed.

Lemma fold_raise {A B} (f : result A -> B -> result A) rows e :
  (forall b, f (Raise e) b = Raise e) ->
  fold_left f rows (Raise e) = Raise e.
Proof.
  intros Hf. induction rows as [|r rows IH]; simpl; [reflexivity|].
  now rewrite Hf.
Qed.

(** A property kept by each row's pruning is kept by the whole loop. *)
Lemma cut_rows_inv hp (P : matrix -> Prop) rng rows : forall g g',
  (forall h h' indices, P h -> prune_row hp h indices = Ok h' -> P h') ->
  P g ->
  fold_left (fun acc rc => g <- acc ;; cut_row hp rng g rc) rows (Ok g)
    = Ok g' ->
  P g'.
Proof.
  induction rows as [|rc rows IH]; intros g g' Hstep Hg H.
  - simpl in H. now injection H as <-.
  - cbn [fold_left bind] in H.
    destruct (cut_row hp rng g rc) as [h|e] eqn:Hc.
    + apply (IH h g' Hstep); [|exact H].
      unfold cut_row in Hc. destruct (0 <? snd rc).
      * destruct (row_indices rng (fst rc)) as [indices|e];
          cbn [bind] in Hc; [|discriminate].
        eapply Hstep; eauto.
      * now injection Hc as <-.
    + rewrite fold_raise in H by reflexivity. discriminate.
Qed.

Lemma filter_single f n :
  length (filter f (seq 0 n)) = 1 -> f 0 = true ->
  forall u, 0 < u < n -> f u = false.
Proof.
  intros Hlen H0 u Hu. destruct n as [|n]; [lia|].
  simpl in Hlen. rewrite H0 in Hlen. simpl in Hlen.
  destruct (f u) eqn:Hfu; [|reflexivity].
  assert (Hin : In u (filter f (seq 1 n)))
    by (apply filter_In; split; [apply in_seq; lia|assumption]).
  destruct (filter f (seq 1 n)); [destruct Hin|simpl in Hlen; lia].
Qed.

Lemma one_component_connected n g :
  square n g -> 0 < n ->
  (n_components_of g = 1 <-> connected_graph n g).
Proof.
  intros Hsq Hn. pose proof Hsq as [Hl _]. unfold n_components_of.
  rewrite Hl. split.
  - intros H1.
    assert (Hroot : forall u, 0 < u < n -> is_root g u = false)
      by (apply filter_single; [exact H1|reflexivity]).
    assert (H0 : forall u, u < n -> walk (wedge g) 0 u).
    { intros u. induction u as [u IHu] using lt_wf_ind. intros Hu.
      destruct u as [|u]; [apply walk_refl|].
      destruct (is_root_ex g (S u)) as [v [Hv Hc]]; [apply Hroot; lia|].
      apply (conn_iff n) in Hc; [|exact Hsq].
      apply (walk_trans _ 0 v (S u)); [apply IHu; lia|exact Hc]. }
    intros u v Hu Hv. apply (walk_trans _ u 0 v); [|apply H0; exact Hv].
    apply walk_sym; [apply wedge_sym|]. now apply H0.
  - intros Hc. destruct n as [|n]; [lia|].
    simpl. rewrite filter_seq_none; [reflexivity|].
    intros v Hv. apply (is_root_false g v 0); [lia|].
    apply (conn_iff (S n)); [exact Hsq|]. apply Hc; lia.
Qed.

Lemma madd_inv a b u :
  madd a b = Ok u ->
  shape0 b = shape0 a /\ shape1 b = shape1 a /\
  u = tabulate (shape0 a) (shape1 a) (fun i j => (mget a i j + mget b i j)%Q).
Proof.
  unfold madd.
  destruct ((shape0 a =? shape0 b) && (shape1 a =? shape1 b)) eqn:H;
    [|discriminate].
  apply andb_true_iff in H. destruct H as [H0 H1].
  apply Nat.eqb_eq in H0, H1. intros Hu. injection Hu as <-. auto.
Qed.

Lemma madd_square a b u :
  is_square a = true -> madd a b = Ok u -> square (length a) u.
Proof.
  intros Hsq Hu. apply madd_inv in Hu. destruct Hu as [_ [_ ->]].
  apply is_square_square in Hsq.
  destruct (square_shape _ _ Hsq) as [H0 H1]. rewrite H0, H1.
  apply square_tabulate.
Qed.

Lemma cut_rng_inv hp rng critical_conn g' :
  cut_rng hp rng critical_conn = Ok g' ->
  exists u, madd rng critical_conn = Ok u /\
    fold_left (fun acc rc => g <- acc ;; cut_row hp rng g rc)
      (enumerate (bincount (map fst (nonzero critical_conn)))) (Ok u) = Ok g'.
Proof.
  unfold cut_rng. destruct (madd rng critical_conn) as [u|e]; simpl.
  - eauto.
  - discriminate.
Qed.

(** C5. Provided [has_path] answers yes only where there is a path: when
    the union of the base graph and the critical connections is one
    connected component, the graph [cut_rng] returns is one connected
    component too; and whenever the inner loop accepts a removal, the entry
    is zero in the graph it hands on and a path joins its two ends there,
    in one direction or the other. *)
Theorem cut_rng_keeps_one_component
    (has_path : matrix -> nat -> nat -> result bool)
    (rng critical_conn u g' : matrix) :
  (forall g i j, has_path g i j = Ok true -> walk (edge g) i j) ->
  is_square rng = true ->
  madd rng critical_conn = Ok u ->
  n_components_of u = 1 ->
  cut_rng has_path rng critical_conn = Ok g' ->
  n_components_of g' = 1 /\
  (forall rng_conn indices h,
     prune_row has_path rng_conn indices = Ok h ->
     exists i j, In [i; j] indices /\ mget h i j = 0%Q /\
                 (walk (edge h) i j \/ walk (edge h) j i)).
Proof.
  intros Hs Hsq Hu H1 Hcut. split.
  - pose proof (madd_square _ _ _ Hsq Hu) as Hsqu.
    pose proof (components_le_length u) as Hle.
    assert (Hn : 0 < length rng) by (destruct Hsqu as [Hl _]; lia).
    apply (one_component_connected _ _ Hsqu Hn) in H1.
    destruct (cut_rng_inv _ _ _ _ Hcut) as [u' [Hu' Hfold]].
    rewrite Hu in Hu'. injection Hu' as <-.
    assert (Hres : square (length rng) g' /\ connected_graph (length rng) g').
    { refine (cut_rows_inv has_path
                (fun g => square (length rng) g /\
                          connected_graph (length rng) g)
                rng _ u g' _ (conj Hsqu H1) Hfold).
      intros h h' indices [Hsh Hch] Hp.
      apply (prune_row_keeps has_path (length rng) indices h h'); auto. }
    destruct Hres as [Hsg Hcg]. now apply (one_component_connected _ _ Hsg Hn).
  - intros rng_conn indices h Hp. apply prune_row_ok in Hp.
    destruct Hp as [pre [i [j [post [-> [_ [_ [Hacc ->]]]]]]]].
    exists i, j. split; [apply in_or_app; right; now left|].
    split; [apply mget_mset_same|].
    now apply (still_joined_walk has_path).
Qed.

Lemma has_path_on_array_sound g i j :
  has_path_on_array g i j = Ok true -> walk (edge g) i j.
Proof.
  unfold has_path_on_array. destruct (Nat.eqb_spec i j) as [->|Hne].
  - intros _. apply walk_refl.
  - discriminate.
Qed.

Lemma cut_rng_keeps_one_component_witness :
  ((forall g i j, has_path_on_array g i j = Ok true -> walk (edge g) i j) /\
   is_square tri_rng = true /\
   madd tri_rng tri_critical
     = Ok [[0; 1; 1; 1]; [1; 0; 1; 0]; [1; 0; 0; 0]; [0; 0; 0; 0]]%Q /\
   n_components_of
     [[0; 1; 1; 1]; [1; 0; 1; 0]; [1; 0; 0; 0]; [0; 0; 0; 0]]%Q = 1 /\
   cut_rng has_path_on_array tri_rng tri_critical
     = Ok [[0; 1; 1; 1]; [1; 0; 1; 0]; [1; 0; 0; 0]; [0; 0; 0; 0]]%Q) /\
  n_components_of
    [[0; 1; 1; 1]; [1; 0; 1; 0]; [1; 0; 0; 0]; [0; 0; 0; 0]]%Q = 1 /\
  (forall rng_conn indices h,
     prune_row has_path_on_array rng_conn indices = Ok h ->
     exists i j, In [i; j] indices /\ mget h i j = 0%Q /\
                 (walk (edge h) i j \/ walk (edge h) j i)).
Proof.
  assert (H2 : is_square tri_rng = true) by reflexivity.
  assert (H3 : madd tri_rng tri_critical
               = Ok [[0; 1; 1; 1]; [1; 0; 1; 0];
                     [1; 0; 0; 0]; [0; 0; 0; 0]]%Q)
    by (vm_compute; reflexivity).
  assert (H4 : n_components_of
                 [[0; 1; 1; 1]; [1; 0; 1; 0]; [1; 0; 0; 0]; [0; 0; 0; 0]]%Q
               = 1) by (vm_compute; reflexivity).
  assert (H5 : cut_rng has_path_on_array tri_rng tri_critical
               = Ok [[0; 1; 1; 1]; [1; 0; 1; 0];
                     [1; 0; 0; 0]; [0; 0; 0; 0]]%Q)
    by (vm_compute; reflexivity).
  split.
  - split; [exact has_path_on_array_sound|].
    split; [exact H2|]. split; [exact H3|]. split; [exact H4|exact H5].
  - exact (cut_rng_keeps_one_component has_path_on_array tri_rng tri_critical
             _ _ has_path_on_array_sound H2 H3 H4 H5).
Defined.

(** ** The positions [cut_rng] clears *)

Lemma edge_madd rng critical_conn u i j :
  is_square critical_conn = true ->
  madd rng critical_conn = Ok u ->
  edge critical_conn i j = true -> edge rng i j = false ->
  edge u i j = true.
Proof.
  intros Hsq Hu Hc Hr. apply madd_inv in Hu. destruct Hu as [H0 [H1 ->]].
  apply is_square_square in Hsq.
  destruct (square_shape _ _ Hsq) as [Hs0 Hs1].
  pose proof (edge_src _ _ _ Hc) as Hi.
  pose proof (edge_dst _ _ _ _ Hsq Hc) as Hj.
  unfold edge. rewrite mget_tabulate by congruence.
  unfold edge, nonzerob in *.
  apply negb_false_iff, Qeq_bool_iff in Hr.
  apply negb_true_iff in Hc. apply negb_true_iff.
  apply not_true_is_false. intros Heq. apply Qeq_bool_iff in Heq.
  rewrite Hr, Qplus_0_l in Heq. apply Qeq_bool_iff in Heq. congruence.
Qed.

(** C6 (what the code does). The candidates of a row are not its
    base-graph edges.  A row with a critical connection and exactly one
    base-graph edge raises [ValueError], one with three or more raises
    [IndexError], and for one with the two base-graph edges (i, c1) and
    (i, c2) the candidates are the positions (i, i) and (c1, c2).  On
    [fan_rng], whose row 0 has the base-graph edges (0, 1) and (0, 2), they
    are (0, 0) and (1, 2), neither of them an edge of the base graph; with
    the critical connection of [self_critical] at (0, 0) the first candidate
    is cleared and kept cleared, so the graph returned has lost a critical
    connection, and both base-graph edges of the row are still there. *)
Theorem cut_rng_clears_critical :
  (forall has_path rng rng_conn i_row n_conn rc, 0 < n_conn ->
     filter (fun rc => fst rc =? i_row) (nonzero rng) = [rc] ->
     cut_row has_path rng rng_conn (i_row, n_conn) = Raise ValueError) /\
  (forall has_path rng rng_conn i_row n_conn, 0 < n_conn ->
     3 <= length (filter (fun rc => fst rc =? i_row) (nonzero rng)) ->
     cut_row has_path rng rng_conn (i_row, n_conn) = Raise IndexError) /\
  (forall rng i c1 c2,
     filter (fun rc => fst rc =? i) (nonzero rng) = [(i, c1); (i, c2)] ->
     row_indices rng i =
     Ok (if Qle_bool (- mget rng i c1) (- mget rng i c2)
         then [[i; i]; [c1; c2]] else [[c1; c2]; [i; i]])) /\
  row_indices fan_rng 0 = Ok [[0; 0]; [1; 2]] /\
  edge fan_rng 0 0 = false /\ edge fan_rng 1 2 = false /\
  edge self_critical 0 0 = true /\
  cut_rng has_path_on_array fan_rng self_critical
    = Ok [[0; 1; 1]; [1; 0; 0]; [1; 0; 0]]%Q /\
  edge [[0; 1; 1]; [1; 0; 0]; [1; 0; 0]]%Q 0 0 = false.
Proof.
  split; [|split; [|split]].
  - intros hp rng g i_row n_conn rc Hn Hone. unfold cut_row. cbn [fst snd].
    apply Nat.ltb_lt in Hn.
    now rewrite Hn, (row_indices_one rng i_row rc Hone).
  - intros hp rng g i_row n_conn Hn Hmany. unfold cut_row. cbn [fst snd].
    apply Nat.ltb_lt in Hn.
    now rewrite Hn, (row_indices_many rng i_row Hmany).
  - intros rng i c1 c2 Htwo.
    exact (row_indices_two rng i (i, c1) (i, c2) Htwo).
  - split; [vm_compute; reflexivity|].
    split; [reflexivity|]. split; [reflexivity|]. split; [reflexivity|].
    split; [vm_compute; reflexivity|reflexivity].
Qed.

(** ** The ratio matrix *)

(** C7 (the code at [line3] with [n_neighbors = 1]). The partitioned rows
    are [0 1 5], [0 1 4] and [0 4 5]; the code divides [D[0][1] = 1] by the
    square root of the dot product 21 of the first two, where the ratio as
    specified divides by the square root of [a[0] * a[1] = 1 * 1]. *)
Theorem ratio_matrix_line3 (np_sqrt : Q -> Q) :
  np_partition line3 1 = Ok [[0; 1; 5]; [0; 1; 4]; [0; 4; 5]]%Q /\
  mget (dot_transpose [[0; 1; 5]; [0; 1; 4]; [0; 4; 5]]%Q) 0 1 = 21%Q /\
  (exists R, ratio_matrix np_sqrt line3 1 = Ok R /\
             mget R 0 1 = (1 / np_sqrt 21)%Q /\ mget R 0 0 = 0%Q) /\
  nth_neighbor_distance line3 1 0 = 1%Q /\
  nth_neighbor_distance line3 1 1 = 1%Q /\
  ratio_as_specified np_sqrt line3 1 0 1 = (1 / np_sqrt 1)%Q.
Proof.
  split; [vm_compute; reflexivity|].
  split; [vm_compute; reflexivity|].
  split.
  - eexists. split; [reflexivity|]. split; vm_compute; reflexivity.
  - split; [vm_compute; reflexivity|].
    split; vm_compute; reflexivity.
Qed.

(** ** The graph builder *)

Section GraphBuilderFacts.
Variable np_sqrt : Q -> Q.
Variable pdist_squareform : matrix -> string -> result matrix.
Variable kernel_weights : matrix -> matrix -> Q -> matrix.
Variable library_call : graph_call -> result matrix.

Lemma finish_ckng self self1 dmatrix adjacency a self2 :
  finish kernel_weights self self1 dmatrix adjacency = (a, self2) ->
  exists m, CkNN.ckng self2 = Some (csr_matrix m) /\
            a = (if CkNN.is_sparse self then csr_matrix m else ndarray m).
Proof.
  unfold finish. intros H. injection H as <- <-.
  eexists. split; reflexivity.
Qed.

Lemma method_ckng fuel self X a self2 :
  cknneighbors_graph_method np_sqrt pdist_squareform kernel_weights
    library_call fuel self X = Some (Ok (a, self2)) ->
  exists m, CkNN.ckng self2 = Some (csr_matrix m) /\
            a = (if CkNN.is_sparse self then csr_matrix m else ndarray m).
Proof.
  unfold cknneighbors_graph_method, graph_from_ratio.
  destruct (prepare np_sqrt pdist_squareform self X) as [[dmatrix ratio]|e];
    [|discriminate].
  destruct (select_graph_call self ratio) as [c|e]; [|discriminate].
  destruct (run_graph_call library_call fuel self c)
    as [[[adjacency self1]|e]|]; try discriminate.
  intros H.
  assert (Hf : finish kernel_weights self self1 dmatrix adjacency
               = (a, self2)) by congruence.
  now apply finish_ckng in Hf.
Qed.
End GraphBuilderFacts.

(** C9 (what the code does). With [connected=False] and an input that
    passes the checks, a call with [neighbors="delta"] and no [delta] raises
    nothing of its own: the ratio matrix has been computed and the missing
    radius is handed to [radius_neighbors_graph], whose outcome is the
    outcome of the call; likewise [neighbors="k"] with no [k] and
    [kneighbors_graph]. *)
Theorem missing_threshold_reaches_library
    (np_sqrt : Q -> Q) (pdist_squareform : matrix -> string -> result matrix)
    (kernel_weights : matrix -> matrix -> Q -> matrix)
    (library_call : graph_call -> result matrix)
    (fuel : nat) (self : CkNN.t) (X dmatrix ratio : matrix) :
  prepare np_sqrt pdist_squareform self X = Ok (dmatrix, ratio) ->
  CkNN.connected self = false ->
  (CkNN.neighbors self = "delta"%string -> CkNN.delta self = None ->
   cknneighbors_graph_method np_sqrt pdist_squareform kernel_weights
     library_call fuel self X
   = Some (g <- library_call (call_radius_neighbors_graph ratio None) ;;
           Ok (finish kernel_weights self self dmatrix g))) /\
  (CkNN.neighbors self = "k"%string -> CkNN.k self = None ->
   cknneighbors_graph_method np_sqrt pdist_squareform kernel_weights
     library_call fuel self X
   = Some (g <- library_call (call_kneighbors_graph ratio None) ;;
           Ok (finish kernel_weights self self dmatrix g))).
Proof.
  intros Hprep Hconn. split; intros Hn Hnone;
    unfold cknneighbors_graph_method, graph_from_ratio, select_graph_call;
    rewrite Hprep, Hn, Hconn, Hnone; cbn [String.eqb bind build_and_drop];
    simpl; now destruct (library_call _).
Qed.

Lemma missing_threshold_reaches_library_witness :
  (prepare sqrt_down no_pdist params_no_delta line3
     = Ok (line3, [[0; 1 # 4; 5 # 5]; [1 # 4; 0; 4 # 4]; [5 # 5; 4 # 4; 0]]%Q)
   /\ CkNN.connected params_no_delta = false) /\
  (CkNN.neighbors params_no_delta = "delta"%string ->
   CkNN.delta params_no_delta = None ->
   cknneighbors_graph_method sqrt_down no_pdist no_weights none_threshold
     0 params_no_delta line3
   = Some (g <- none_threshold
                  (call_radius_neighbors_graph
                     [[0; 1 # 4; 5 # 5]; [1 # 4; 0; 4 # 4];
                      [5 # 5; 4 # 4; 0]]%Q None) ;;
           Ok (finish no_weights params_no_delta params_no_delta line3 g))) /\
  (CkNN.neighbors params_no_delta = "k"%string ->
   CkNN.k params_no_delta = None ->
   cknneighbors_graph_method sqrt_down no_pdist no_weights none_threshold
     0 params_no_delta line3
   = Some (g <- none_threshold
                  (call_kneighbors_graph
                     [[0; 1 # 4; 5 # 5]; [1 # 4; 0; 4 # 4];
                      [5 # 5; 4 # 4; 0]]%Q None) ;;
           Ok (finish no_weights params_no_delta params_no_delta line3 g))).
Proof.
  split.
  - split; [vm_compute; reflexivity|reflexivity].
  - apply (missing_threshold_reaches_library sqrt_down no_pdist no_weights
             none_threshold 0 params_no_delta line3);
      [vm_compute; reflexivity|reflexivity].
Defined.

Example select_graph_call_no_threshold :
  select_graph_call params_no_delta line3
    = Ok (call_radius_neighbors_graph line3 None) /\
  select_graph_call params_no_k line3
    = Ok (call_kneighbors_graph line3 None).
Proof. split; reflexivity. Qed.

(** C10 (what the code does). Whatever [is_sparse] says, a call of the
    module function without [return_instance] that succeeds returns the
    sparse matrix stored in the object. *)
Theorem cknneighbors_graph_returns_sparse
    (np_sqrt : Q -> Q) (pdist_squareform : matrix -> string -> result matrix)
    (kernel_weights : matrix -> matrix -> Q -> matrix)
    (library_call : graph_call -> result matrix)
    (fuel : nat) (X : matrix) (params : CkNN.t) (r : CkNN.t + array) :
  cknneighbors_graph np_sqrt pdist_squareform kernel_weights library_call
    fuel X params false = Some (Ok r) ->
  exists m, r = inr (csr_matrix m).
Proof.
  unfold cknneighbors_graph.
  destruct (cknneighbors_graph_method _ _ _ _ _ _ _)
    as [[[a cknn']|e]|] eqn:Hm; try discriminate.
  apply method_ckng in Hm. destruct Hm as [m [Hck _]]. rewrite Hck.
  intros H. injection H as <-. now exists m.
Qed.

Lemma cknneighbors_graph_returns_sparse_witness :
  cknneighbors_graph sqrt_down no_pdist no_weights none_threshold
    0 line3 params_dense false
    = Some (Ok (inr (csr_matrix [[0; 1; 1]; [1; 0; 1]; [1; 1; 0]]%Q))) /\
  exists m,
    @inr CkNN.t array (csr_matrix [[0; 1; 1]; [1; 0; 1]; [1; 1; 0]]%Q)
    = inr (csr_matrix m).
Proof.
  split.
  - vm_compute. reflexivity.
  - apply (cknneighbors_graph_returns_sparse sqrt_down no_pdist no_weights
             none_threshold 0 line3 params_dense).
    vm_compute. reflexivity.
Defined.

(** * Further properties *)

(** ** [concat_cluster] *)

Lemma next_entry_ok_min n M labels p q v :
  square n M -> length labels = n -> p <> q ->
  next_entry M labels p q = Ok v -> block_min M labels p q v.
Proof.
  intros Hsq Hlen Hpq. unfold next_entry.
  apply Nat.eqb_neq in Hpq. rewrite Hpq.
  rewrite (crop_square _ _ _ p q Hsq Hlen). cbn [bind].
  set (flat := concat _).
  destruct (argmin flat) as [a|e] eqn:Ha; cbn [bind]; [|discriminate].
  intros H. injection H as <-.
  destruct (argmin_spec _ _ Ha) as [Hlt Hmin]. split.
  - assert (Hin : In (nth a flat 0%Q) flat) by now apply nth_In.
    apply In_block in Hin. destruct Hin as [i [j [Hi [Hj Hv]]]].
    apply mask_indices_In in Hi, Hj. exists i, j. tauto.
  - intros i j Hi Hj Hli Hlj. apply Hmin, In_block. exists i, j.
    repeat split; apply mask_indices_In; auto.
Qed.

Lemma concat_cluster_entries M C labels M' :
  concat_cluster M C labels = Ok M' ->
  length M' = C /\
  forall p q, p < C -> q < C ->
    next_entry M labels p q = Ok (mget M' p q).
Proof.
  unfold concat_cluster.
  destruct (negb (shape0 M =? shape1 M)); [discriminate|].
  cbn zeta. intros HM'.
  destruct (mapM_ok_inv _ _ _ HM') as [HlenM Hrows].
  rewrite length_seq in HlenM, Hrows. split; [exact HlenM|].
  intros p q Hp Hq. specialize (Hrows p [] 0 Hp).
  rewrite nth_seq0 in Hrows by exact Hp.
  destruct (mapM_ok_inv _ _ _ Hrows) as [_ Hcells].
  rewrite length_seq in Hcells. specialize (Hcells q 0%Q 0 Hq).
  now rewrite nth_seq0 in Hcells by exact Hq.
Qed.

Lemma is_symmetric_spec M :
  is_symmetric M = true ->
  forall i j, i < length M -> j < length M -> (mget M i j == mget M j i)%Q.
Proof.
  unfold is_symmetric. intros H i j Hi Hj. rewrite forallb_forall in H.
  assert (Hrow := H i ltac:(apply in_seq; lia)).
  rewrite forallb_forall in Hrow.
  apply Qeq_bool_iff. apply Hrow. apply in_seq. lia.
Qed.

(** X1. The reduced matrix of a symmetric matrix is symmetric: the entries
    (p, q) and (q, p) of what [concat_cluster] returns are equal. *)
Theorem concat_cluster_symmetric (M : matrix) (C : nat) (labels : list nat)
    (M' : matrix) :
  is_square M = true ->
  length labels = length M ->
  is_symmetric M = true ->
  concat_cluster M C labels = Ok M' ->
  forall p q, p < C -> q < C -> (mget M' p q == mget M' q p)%Q.
Proof.
  intros Hsq Hlen Hsym HM' p q Hp Hq.
  apply is_square_square in Hsq.
  pose proof (is_symmetric_spec M Hsym) as Hs.
  destruct (concat_cluster_entries _ _ _ _ HM') as [_ Hent].
  destruct (Nat.eq_dec p q) as [->|Hpq]; [reflexivity|].
  assert (Hqp : q <> p) by congruence.
  pose proof (next_entry_ok_min _ _ _ _ _ _ Hsq Hlen Hpq (Hent p q Hp Hq))
    as [[i [j [Hi [Hj [Hli [Hlj Hv]]]]]] Hmin].
  pose proof (next_entry_ok_min _ _ _ _ _ _ Hsq Hlen Hqp (Hent q p Hq Hp))
    as [[i' [j' [Hi' [Hj' [Hli' [Hlj' Hv']]]]]] Hmin'].
  rewrite Hlen in *.
  apply Qle_antisym.
  - rewrite Hv'. rewrite (Hs i' j' Hi' Hj').
    apply Hmin; assumption.
  - rewrite Hv. rewrite (Hs i j Hi Hj).
    apply Hmin'; assumption.
Qed.

Lemma concat_cluster_symmetric_witness :
  (is_square line4 = true /\
   length [0; 0; 1; 1] = length line4 /\
   is_symmetric line4 = true /\
   concat_cluster line4 2 [0; 0; 1; 1] = Ok [[INF; 9]; [9; INF]]%Q) /\
  forall p q, p < 2 -> q < 2 ->
    (mget [[INF; 9]; [9; INF]]%Q p q == mget [[INF; 9]; [9; INF]]%Q q p)%Q.
Proof.
  split.
  - split; [reflexivity|]. split; [reflexivity|].
    split; vm_compute; reflexivity.
  - apply (concat_cluster_symmetric line4 2 [0; 0; 1; 1]);
      vm_compute; reflexivity.
Defined.

(** X2. When every point is its own cluster, [concat_cluster] returns the
    matrix itself with the diagonal replaced by [INF]. *)
Theorem concat_cluster_singletons (M : matrix) :
  is_square M = true ->
  exists M', concat_cluster M (length M) (seq 0 (length M)) = Ok M' /\
    square (length M) M' /\
    forall p q, p < length M -> q < length M ->
      mget M' p q = if p =? q then INF else mget M p q.
Proof.
  intros Hsq. apply is_square_square in Hsq.
  assert (Hlen : length (seq 0 (length M)) = length M) by apply length_seq.
  destruct (concat_cluster_spec (length M) M (length M) (seq 0 (length M))
              Hsq Hlen) as [M' [HM' [Hsq' Hent]]].
  { intros p Hp. exists p. split; [exact Hp|now apply nth_seq0]. }
  exists M'. split; [exact HM'|]. split; [exact Hsq'|].
  intros p q Hp Hq. destruct (Hent p q Hp Hq) as [Hd Hmin].
  destruct (Nat.eqb_spec p q) as [Heq|Hne]; [now apply Hd|].
  destruct (Hmin Hne) as [[i [j [Hi [Hj [Hli [Hlj Hv]]]]]] _].
  rewrite Hlen in Hi, Hj. rewrite nth_seq0 in Hli, Hlj by assumption.
  now subst.
Qed.

Lemma concat_cluster_singletons_witness :
  is_square line3 = true /\
  exists M', concat_cluster line3 (length line3) (seq 0 (length line3))
             = Ok M' /\
    square (length line3) M' /\
    forall p q, p < length line3 -> q < length line3 ->
      mget M' p q = if p =? q then INF else mget line3 p q.
Proof.
  split; [reflexivity|].
  apply (concat_cluster_singletons line3). reflexivity.
Defined.

Lemma mapM_raise {A B} (f : A -> result B) e l :
  (forall x, In x l -> (exists y, f x = Ok y) \/ f x = Raise e) ->
  (exists x, In x l /\ f x = Raise e) ->
  mapM f l = Raise e.
Proof.
  induction l as [|x l IH]; intros Hall [x0 [Hin Hx0]]; [destruct Hin|].
  simpl. destruct (Hall x (or_introl eq_refl)) as [[y Hy]|Hr].
  - rewrite Hy. cbn [bind]. destruct Hin as [->|Hin]; [congruence|].
    rewrite IH; [reflexivity| |eauto].
    intros z Hz. apply Hall. now right.
  - now rewrite Hr.
Qed.

Lemma next_entry_total n M labels p q :
  square n M -> length labels = n ->
  (exists v, next_entry M labels p q = Ok v) \/
  next_entry M labels p q = Raise ValueError.
Proof.
  intros Hsq Hlen. unfold next_entry.
  destruct (p =? q); [left; eauto|].
  rewrite (crop_square _ _ _ p q Hsq Hlen). cbn [bind].
  destruct (concat _) as [|x flat]; [right; reflexivity|left].
  simpl. eauto.
Qed.

Lemma next_entry_unused n M labels p q :
  square n M -> length labels = n -> p <> q ->
  existsb (Nat.eqb p) labels = false ->
  next_entry M labels p q = Raise ValueError.
Proof.
  intros Hsq Hlen Hpq Hun. unfold next_entry.
  apply Nat.eqb_neq in Hpq. rewrite Hpq.
  rewrite (crop_square _ _ _ p q Hsq Hlen). cbn [bind].
  assert (Hmask : mask_indices labels p = []).
  { destruct (mask_indices labels p) as [|i l] eqn:Hm; [reflexivity|].
    assert (Hin : In i (mask_indices labels p)) by (rewrite Hm; now left).
    apply mask_indices_In in Hin. destruct Hin as [Hi Hl].
    assert (He : existsb (Nat.eqb p) labels = true).
    { apply existsb_exists. exists (nth i labels 0).
      split; [now apply nth_In|]. apply Nat.eqb_eq. congruence. }
    congruence. }
  rewrite Hmask. reflexivity.
Qed.

(** X3. When one of the [n_components >= 2] labels is carried by no row,
    [concat_cluster] raises [ValueError]: the block of that cluster is
    empty and has no minimum. *)
Theorem concat_cluster_unused_label (M : matrix) (C : nat)
    (labels : list nat) (p : nat) :
  is_square M = true ->
  length labels = length M ->
  2 <= C -> p < C ->
  existsb (Nat.eqb p) labels = false ->
  concat_cluster M C labels = Raise ValueError.
Proof.
  intros Hsq Hlen HC Hp Hun. apply is_square_square in Hsq.
  destruct (square_shape _ _ Hsq) as [H0 H1].
  unfold concat_cluster. rewrite H0, H1, Nat.eqb_refl. cbn [negb]. cbn zeta.
  assert (Hrow : forall i, In i (seq 0 C) ->
            (exists y, mapM (next_entry M labels i) (seq 0 C) = Ok y) \/
            mapM (next_entry M labels i) (seq 0 C) = Raise ValueError).
  { intros i _.
    destruct (mapM (next_entry M labels i) (seq 0 C)) as [y|e] eqn:Hm;
      [left; eauto|right].
    assert (He : mapM (next_entry M labels i) (seq 0 C) = Raise ValueError
                 \/ exists y, mapM (next_entry M labels i) (seq 0 C) = Ok y).
    { clear Hm. induction (seq 0 C) as [|x l IH]; [right; simpl; eauto|].
      simpl. destruct (next_entry_total _ M labels i x Hsq Hlen)
        as [[v Hv]|Hr].
      - rewrite Hv. cbn [bind]. destruct IH as [IH|[y' IH]]; rewrite IH.
        + now left.
        + right. simpl. eauto.
      - rewrite Hr. now left. }
    destruct He as [He|[y He]]; congruence. }
  apply mapM_raise; [exact Hrow|].
  exists p. split; [apply in_seq; lia|].
  apply mapM_raise.
  - intros x _. apply (next_entry_total _ M labels p x Hsq Hlen).
  - assert (Hq : exists q, q < C /\ p <> q).
    { destruct p; [exists 1|exists 0]; split; lia. }
    destruct Hq as [q [Hq Hpq]]. exists q. split; [apply in_seq; lia|].
    now apply (next_entry_unused (length M)).
Qed.

Lemma concat_cluster_unused_label_witness :
  (is_square line3 = true /\ length [0; 0; 2] = length line3 /\
   2 <= 3 /\ 1 < 3 /\ existsb (Nat.eqb 1) [0; 0; 2] = false) /\
  concat_cluster line3 3 [0; 0; 2] = Raise ValueError.
Proof.
  split.
  - split; [reflexivity|]. split; [reflexivity|].
    split; [lia|]. split; [lia|reflexivity].
  - apply (concat_cluster_unused_label line3 3 [0; 0; 2] 1);
      try reflexivity; lia.
Defined.

(** ** [cut_rng] *)

Lemma no_element_nil {A} (l : list A) : (forall x, ~ In x l) -> l = [].
Proof.
  destruct l as [|x l]; [reflexivity|]. intros H.
  exfalso. apply (H x). now left.
Qed.

Lemma empty_row_spec g i : empty_row g i = true -> forall j, edge g i j = false.
Proof.
  unfold empty_row. intros H j. rewrite forallb_forall in H.
  destruct (Nat.lt_ge_cases j (length (nth i g []))) as [Hlt|Hge].
  - apply negb_true_iff, H, in_seq. lia.
  - unfold edge, nonzerob. now rewrite mget_out_col.
Qed.

(** X4. Without any critical connection [cut_rng] tries no removal and
    returns the sum of its two arguments (or the shape error of the sum). *)
Theorem cut_rng_no_critical
    (has_path : matrix -> nat -> nat -> result bool)
    (rng critical_conn : matrix) :
  (forall i, i < length critical_conn -> empty_row critical_conn i = true) ->
  cut_rng has_path rng critical_conn = madd rng critical_conn.
Proof.
  intros Hempty.
  assert (Hnz : nonzero critical_conn = []).
  { apply no_element_nil. intros [i j] Hin. apply nonzero_In in Hin.
    pose proof (edge_src _ _ _ Hin) as Hi.
    rewrite (empty_row_spec _ _ (Hempty i Hi) j) in Hin. discriminate. }
  unfold cut_rng. rewrite Hnz.
  destruct (madd rng critical_conn); reflexivity.
Qed.

Lemma cut_rng_no_critical_witness :
  (forall i, i < length [[0; 0]; [0; 0]]%Q ->
             empty_row [[0; 0]; [0; 0]]%Q i = true) /\
  cut_rng has_path_on_array pair_rng [[0; 0]; [0; 0]]%Q
    = madd pair_rng [[0; 0]; [0; 0]]%Q.
Proof.
  assert (H : forall i, i < length [[0; 0]; [0; 0]]%Q ->
                        empty_row [[0; 0]; [0; 0]]%Q i = true).
  { intros [|[|i]] Hi; [reflexivity|reflexivity|simpl in Hi; lia]. }
  split; [exact H|].
  apply (cut_rng_no_critical has_path_on_array pair_rng [[0; 0]; [0; 0]]%Q H).
Defined.

Lemma bincount_length_In l i : In i l -> i < length (bincount l).
Proof.
  intros Hin. unfold bincount. destruct l as [|x l]; [destruct Hin|].
  rewrite length_map, length_seq.
  pose proof (list_max_In (x :: l) i Hin). lia.
Qed.

Lemma bincount_nth l k :
  k < length (bincount l) ->
  nth k (bincount l) 0 = count_occ Nat.eq_dec l k.
Proof.
  unfold bincount. destruct l as [|x l]; [simpl; lia|].
  rewrite length_map, length_seq. intros Hk.
  rewrite (nth_indep _ 0 (count_occ Nat.eq_dec (x :: l) 0))
    by now rewrite length_map, length_seq.
  rewrite (map_nth (count_occ Nat.eq_dec (x :: l))).
  now rewrite nth_seq0.
Qed.

(** Once the loop over the rows has failed it stays failed, and the row
    without candidates fails it at the latest. *)
Lemma cut_rows_isolated hp rng rows : forall acc i c,
  In (i, c) rows -> 0 < c -> row_indices rng i = Ok [] ->
  exists e,
    fold_left (fun acc rc => g <- acc ;; cut_row hp rng g rc) rows acc
    = Raise e.
Proof.
  induction rows as [|rc rows IH]; intros acc i c Hin Hc Hnil;
    [destruct Hin|].
  cbn [fold_left]. destruct Hin as [->|Hin].
  - destruct acc as [g|e]; cbn [bind].
    + unfold cut_row. cbn [fst snd]. apply Nat.ltb_lt in Hc.
      rewrite Hc, Hnil. cbn [bind prune_row].
      exists GraphException. now apply fold_raise.
    + exists e. now apply fold_raise.
  - now apply (IH _ i c).
Qed.

(** The rows before the first one with a critical connection are passed
    over. *)
Lemma cut_rows_first hp rng i l : forall s g,
  s <= i -> i < s + length l -> 0 < nth (i - s) l 0 ->
  (forall k, s <= k -> k < i -> nth (k - s) l 0 = 0) ->
  row_indices rng i = Ok [] ->
  fold_left (fun acc rc => g <- acc ;; cut_row hp rng g rc)
            (combine (seq s (length l)) l) (Ok g)
  = Raise GraphException.
Proof.
  induction l as [|c l IH]; intros s g Hs Hi Hc Hzero Hnil;
    [simpl in Hi; lia|].
  cbn [length seq combine fold_left bind].
  destruct (Nat.eq_dec s i) as [->|Hne].
  - rewrite Nat.sub_diag in Hc. cbn [nth] in Hc.
    unfold cut_row. cbn [fst snd]. apply Nat.ltb_lt in Hc.
    rewrite Hc, Hnil. cbn [bind prune_row]. now apply fold_raise.
  - assert (Hc0 : c = 0).
    { specialize (Hzero s (Nat.le_refl s)). rewrite Nat.sub_diag in Hzero.
      apply Hzero. lia. }
    subst c. unfold cut_row at 2. cbn [fst snd Nat.ltb Nat.leb].
    apply IH; try (simpl in Hi; lia); auto.
    + replace (i - s) with (S (i - S s)) in Hc by lia. exact Hc.
    + intros k Hk Hki. specialize (Hzero k ltac:(lia) Hki).
      replace (k - s) with (S (k - S s)) in Hzero by lia. exact Hzero.
Qed.

(** X5. When some row has a critical connection but no base-graph edge,
    [cut_rng] returns no graph: at the latest that row, which offers no
    candidate, raises.  When no row before it has a critical connection the
    exception is "Difficult to find connected graph". *)
Theorem cut_rng_isolated_row
    (has_path : matrix -> nat -> nat -> result bool)
    (rng critical_conn u : matrix) (i j : nat) :
  madd rng critical_conn = Ok u ->
  edge critical_conn i j = true ->
  empty_row rng i = true ->
  (exists e, cut_rng has_path rng critical_conn = Raise e) /\
  ((forall i' j', i' < i -> edge critical_conn i' j' = false) ->
   cut_rng has_path rng critical_conn = Raise GraphException).
Proof.
  intros Hu Hc Hempty.
  assert (Hin : In i (map fst (nonzero critical_conn)))
    by (apply conn_row_In; eauto).
  assert (Hnil : row_indices rng i = Ok []).
  { apply row_indices_none. apply no_element_nil. intros [a b] Hab.
    apply filter_In in Hab. destruct Hab as [Hnz Ha]. cbn [fst] in Ha.
    apply Nat.eqb_eq in Ha. subst a. apply nonzero_In in Hnz.
    rewrite (empty_row_spec _ _ Hempty b) in Hnz. discriminate. }
  rewrite (cut_rng_unfold has_path rng critical_conn u Hu).
  split.
  - apply (cut_rows_isolated has_path rng _ (Ok u) i
             (count_occ Nat.eq_dec (map fst (nonzero critical_conn)) i)).
    + now apply bincount_covers.
    + now apply count_occ_In.
    + exact Hnil.
  - intros Hfirst. unfold enumerate.
    pose proof (bincount_length_In _ _ Hin) as Hlen.
    apply (cut_rows_first has_path rng i); try lia; auto.
    + rewrite Nat.sub_0_r, bincount_nth by exact Hlen.
      now apply count_occ_In.
    + intros k _ Hk. rewrite Nat.sub_0_r, bincount_nth by lia.
      apply count_occ_not_In. intros Hk'. apply conn_row_In in Hk'.
      destruct Hk' as [j' Hj']. rewrite (Hfirst k j' Hk) in Hj'.
      discriminate.
Qed.

Lemma cut_rng_isolated_row_witness :
  (madd tri_rng from3_critical
     = Ok [[0; 1; 1; 0]; [1; 0; 1; 0]; [1; 0; 0; 0]; [1; 0; 0; 0]]%Q /\
   edge from3_critical 3 0 = true /\
   empty_row tri_rng 3 = true) /\
  (exists e, cut_rng has_path_on_array tri_rng from3_critical = Raise e) /\
  ((forall i' j', i' < 3 -> edge from3_critical i' j' = false) ->
   cut_rng has_path_on_array tri_rng from3_critical = Raise GraphException).
Proof.
  assert (H1 : madd tri_rng from3_critical
               = Ok [[0; 1; 1; 0]; [1; 0; 1; 0];
                     [1; 0; 0; 0]; [1; 0; 0; 0]]%Q)
    by (vm_compute; reflexivity).
  split.
  - split; [exact H1|]. split; reflexivity.
  - exact (cut_rng_isolated_row has_path_on_array tri_rng from3_critical
             _ 3 0 H1 eq_refl eq_refl).
Defined.

(** ** [connect_rng]: input that is rejected *)

(** X6. An empty matrix and a matrix that is not square make [connect_rng]
    raise [ValueError] before the loop, whatever the threshold. *)
Theorem connect_rng_rejects (fuel : nat) (self : CkNN.t) (dmatrix : matrix)
    (radius : Q) :
  dmatrix = [] \/ is_square dmatrix = false ->
  connect_rng fuel self dmatrix radius = Some (Raise ValueError).
Proof.
  intros H. unfold connect_rng, connect_init.
  destruct H as [->|Hns]; [reflexivity|].
  destruct (check_array dmatrix) as [d|e] eqn:Hca.
  - unfold check_array in Hca.
    destruct ((0 <? shape0 dmatrix) && (0 <? shape1 dmatrix)
              && forallb (fun row => length row =? shape1 dmatrix) dmatrix
              && all_finite dmatrix);
      [|discriminate].
    injection Hca as <-. cbn [bind].
    unfold radius_neighbors_graph. rewrite Hns. reflexivity.
  - unfold check_array in Hca.
    destruct ((0 <? shape0 dmatrix) && (0 <? shape1 dmatrix)
              && forallb (fun row => length row =? shape1 dmatrix) dmatrix
              && all_finite dmatrix);
      [discriminate|].
    injection Hca as <-. reflexivity.
Qed.

Lemma connect_rng_rejects_witness :
  ([] = ([] : matrix) \/ is_square ([] : matrix) = false) /\
  ([[0; 1; 5]; [1; 0; 4]]%Q = [] \/
   is_square [[0; 1; 5]; [1; 0; 4]]%Q = false) /\
  connect_rng 0 cknn_delta [] 1 = Some (Raise ValueError) /\
  connect_rng 0 cknn_delta [[0; 1; 5]; [1; 0; 4]]%Q 1
    = Some (Raise ValueError).
Proof.
  split; [now left|]. split; [now right|]. split.
  - apply (connect_rng_rejects 0 cknn_delta [] 1). now left.
  - apply (connect_rng_rejects 0 cknn_delta [[0; 1; 5]; [1; 0; 4]]%Q 1).
    now right.
Defined.

(** ** The diagonal *)

Lemma mget_set_diag_list x l : forall m i j,
  mget (fold_left (fun acc k => mset acc k k x) l m) i j =
  if (i =? j) && existsb (Nat.eqb i) l && in_range m i i then x
  else mget m i j.
Proof.
  induction l as [|k l IH]; intros m i j; simpl.
  - now rewrite andb_false_r.
  - rewrite IH, in_range_mset, mget_mset.
    destruct (Nat.eqb_spec i j) as [<-|Hij]; simpl.
    + destruct (Nat.eqb_spec i k) as [<-|Hik]; simpl.
      * destruct (in_range m i i); simpl; [|now rewrite andb_false_r].
        now destruct (existsb (Nat.eqb i) l).
      * reflexivity.
    + destruct (Nat.eqb_spec i k) as [<-|Hik]; simpl; [|reflexivity].
      destruct (Nat.eqb_spec j i) as [->|Hji]; [congruence|reflexivity].
Qed.

Lemma mget_set_diagonal n m x i j :
  square n m -> i < n -> j < n ->
  mget (set_diagonal m x) i j = if i =? j then x else mget m i j.
Proof.
  intros Hsq Hi Hj. unfold set_diagonal. rewrite mget_set_diag_list.
  destruct (i =? j); simpl; [|reflexivity].
  assert (He : existsb (Nat.eqb i) (seq 0 (length m)) = true).
  { apply existsb_exists. exists i. destruct Hsq as [Hl _].
    split; [apply in_seq; lia|apply Nat.eqb_refl]. }
  assert (Hr : in_range m i i = true).
  { unfold in_range. rewrite (square_row n m i Hsq Hi).
    destruct Hsq as [Hl _]. rewrite Hl.
    apply andb_true_iff. split; now apply Nat.ltb_lt. }
  now rewrite He, Hr.
Qed.

Lemma set_diagonal_square n m x : square n m -> square n (set_diagonal m x).
Proof.
  intros Hsq. unfold set_diagonal.
  generalize (seq 0 (length m)). intros l. revert m Hsq.
  induction l as [|k l IH]; intros m Hsq; simpl; [exact Hsq|].
  apply IH. now apply mset_square.
Qed.

(** ** The ratio matrix *)
















(** ** The graph builder *)

(** X8. The method returns the graph in the representation [is_sparse] asks
    for, and in both cases stores the same graph in the object as a sparse
    matrix. *)
Theorem method_honours_is_sparse
    (np_sqrt : Q -> Q) (pdist_squareform : matrix -> string -> result matrix)
    (kernel_weights : matrix -> matrix -> Q -> matrix)
    (library_call : graph_call -> result matrix)
    (fuel : nat) (self : CkNN.t) (X : matrix) (a : array) (self' : CkNN.t) :
  cknneighbors_graph_method np_sqrt pdist_squareform kernel_weights
    library_call fuel self X = Some (Ok (a, self')) ->
  exists m, CkNN.ckng self' = Some (csr_matrix m) /\
    (CkNN.is_sparse self = true -> a = csr_matrix m) /\
    (CkNN.is_sparse self = false -> a = ndarray m).
Proof.
  intros H. apply method_ckng in H. destruct H as [m [Hck Ha]].
  exists m. split; [exact Hck|].
  split; intros Hs; rewrite Hs in Ha; exact Ha.
Qed.

Lemma method_honours_is_sparse_witness :
  cknneighbors_graph_method sqrt_down no_pdist no_weights none_threshold
    0 params_dense line3
    = Some (Ok (ndarray [[0; 1; 1]; [1; 0; 1]; [1; 1; 0]]%Q,
                CkNN.set_ckng params_dense
                  (Some (csr_matrix [[0; 1; 1]; [1; 0; 1]; [1; 1; 0]]%Q)))) /\
  exists m,
    CkNN.ckng (CkNN.set_ckng params_dense
                 (Some (csr_matrix [[0; 1; 1]; [1; 0; 1]; [1; 1; 0]]%Q)))
    = Some (csr_matrix m) /\
    (CkNN.is_sparse params_dense = true ->
     ndarray [[0; 1; 1]; [1; 0; 1]; [1; 1; 0]]%Q = csr_matrix m) /\
    (CkNN.is_sparse params_dense = false ->
     ndarray [[0; 1; 1]; [1; 0; 1]; [1; 1; 0]]%Q = ndarray m).
Proof.
  split.
  - vm_compute. reflexivity.
  - apply (method_honours_is_sparse sqrt_down no_pdist no_weights
             none_threshold 0 params_dense line3).
    vm_compute. reflexivity.
Defined.

(** X9. With [n_neighbors] below 1 or above [n_samples - 1] the call raises
    [ValueError] before any distance is computed or any library routine
    called; a single data point is always rejected this way. *)
Theorem n_neighbors_out_of_range
    (np_sqrt : Q -> Q) (pdist_squareform : matrix -> string -> result matrix)
    (kernel_weights : matrix -> matrix -> Q -> matrix)
    (library_call : graph_call -> result matrix)
    (fuel : nat) (X : matrix) (params : CkNN.t) (return_instance : bool) :
  (CkNN.n_neighbors params < 1 \/
   CkNN.n_neighbors params > Z.of_nat (length X) - 1)%Z ->
  cknneighbors_graph np_sqrt pdist_squareform kernel_weights library_call
    fuel X params return_instance = Some (Raise ValueError).
Proof.
  intros H. unfold cknneighbors_graph, cknneighbors_graph_method, graph_from_ratio, prepare.
  cbn [CkNN.set_ckng CkNN.n_neighbors]. unfold shape0.
  assert (Hb : ((CkNN.n_neighbors params <? 1)
                || (CkNN.n_neighbors params >? Z.of_nat (length X) - 1))%Z
               = true).
  { apply orb_true_iff. destruct H as [H|H].
    - left. now apply Z.ltb_lt.
    - right. apply Z.gtb_lt. lia. }
  now rewrite Hb.
Qed.

Lemma n_neighbors_out_of_range_witness :
  (CkNN.n_neighbors params_too_many < 1 \/
   CkNN.n_neighbors params_too_many > Z.of_nat (length line3) - 1)%Z /\
  cknneighbors_graph sqrt_down no_pdist no_weights none_threshold
    0 line3 params_too_many false = Some (Raise ValueError).
Proof.
  assert (H : (CkNN.n_neighbors params_too_many < 1 \/
               CkNN.n_neighbors params_too_many
               > Z.of_nat (length line3) - 1)%Z)
    by (right; vm_compute; reflexivity).
  split; [exact H|].
  apply (n_neighbors_out_of_range sqrt_down no_pdist no_weights
           none_threshold 0 line3 params_too_many false H).
Defined.

(** X10. Once the ratio matrix is there, a [neighbors] value other than
    "delta" and "k" raises [ValueError]; so does, for either of these and
    [connected=True], a [conn_type] other than "nature" and "force". *)
Theorem unknown_mode_rejected
    (np_sqrt : Q -> Q) (pdist_squareform : matrix -> string -> result matrix)
    (kernel_weights : matrix -> matrix -> Q -> matrix)
    (library_call : graph_call -> result matrix)
    (fuel : nat) (self : CkNN.t) (X dmatrix ratio : matrix) :
  prepare np_sqrt pdist_squareform self X = Ok (dmatrix, ratio) ->
  (String.eqb (CkNN.neighbors self) "delta" = false /\
   String.eqb (CkNN.neighbors self) "k" = false) \/
  (CkNN.connected self = true /\
   String.eqb (CkNN.conn_type self) "nature" = false /\
   String.eqb (CkNN.conn_type self) "force" = false) ->
  cknneighbors_graph_method np_sqrt pdist_squareform kernel_weights
    library_call fuel self X = Some (Raise ValueError).
Proof.
  intros Hprep H. unfold cknneighbors_graph_method, graph_from_ratio, select_graph_call.
  rewrite Hprep. destruct H as [[Hd Hk]|[Hc [Hn Hf]]].
  - now rewrite Hd, Hk.
  - rewrite Hc, Hn, Hf. cbn [build_and_drop bind].
    destruct (String.eqb (CkNN.neighbors self) "delta"); [reflexivity|].
    now destruct (String.eqb (CkNN.neighbors self) "k").
Qed.

Lemma unknown_mode_rejected_witness :
  (prepare sqrt_down no_pdist params_unknown line3
     = Ok (line3, [[0; 1 # 4; 5 # 5]; [1 # 4; 0; 4 # 4]; [5 # 5; 4 # 4; 0]]%Q)
   /\
   ((String.eqb (CkNN.neighbors params_unknown) "delta" = false /\
     String.eqb (CkNN.neighbors params_unknown) "k" = false) \/
    (CkNN.connected params_unknown = true /\
     String.eqb (CkNN.conn_type params_unknown) "nature" = false /\
     String.eqb (CkNN.conn_type params_unknown) "force" = false))) /\
  cknneighbors_graph_method sqrt_down no_pdist no_weights none_threshold
    0 params_unknown line3 = Some (Raise ValueError).
Proof.
  split.
  - split; [vm_compute; reflexivity|]. left. split; reflexivity.
  - apply (unknown_mode_rejected sqrt_down no_pdist no_weights
             none_threshold 0 params_unknown line3 line3
             [[0; 1 # 4; 5 # 5]; [1 # 4; 0; 4 # 4]; [5 # 5; 4 # 4; 0]]%Q).
    + vm_compute. reflexivity.
    + left. split; reflexivity.
Defined.

(** X11. Radius mode without connectivity and with [t='inf'], from the
    ratio matrix on (lines 189-252): for a square ratio matrix of finite
    numbers and a threshold that is not negative, the graph returned has its
    diagonal set as [include_self] says and, elsewhere, a 1 exactly where the
    ratio is at most [delta]. *)
Theorem radius_mode_adjacency
    (kernel_weights : matrix -> matrix -> Q -> matrix)
    (library_call : graph_call -> result matrix)
    (fuel : nat) (self : CkNN.t) (dmatrix ratio : matrix) (d : Q) :
  is_square ratio = true ->
  all_finite ratio = true ->
  (0 <= d)%Q ->
  CkNN.neighbors self = "delta"%string ->
  CkNN.delta self = Some d ->
  CkNN.connected self = false ->
  CkNN.t_ self = None ->
  exists G,
    graph_from_ratio kernel_weights library_call fuel self dmatrix ratio
    = Some (Ok (if CkNN.is_sparse self then csr_matrix G else ndarray G,
                CkNN.set_ckng self (Some (csr_matrix G)))) /\
    forall i j, i < length ratio -> j < length ratio ->
      mget G i j =
      if i =? j then (if CkNN.include_self self then 1%Q else 0%Q)
      else if Qle_bool (mget ratio i j) d then 1%Q else 0%Q.
Proof.
  intros Hsq Hfin _ Hn Hd Hc Ht.
  assert (Hsel : select_graph_call self ratio
                 = Ok (call_radius_neighbors_graph ratio (Some d)))
    by (unfold select_graph_call; rewrite Hn, Hc, Hd; reflexivity).
  unfold graph_from_ratio. rewrite Hsel.
  unfold run_graph_call.
  pose proof (is_square_square _ Hsq) as Hsqr.
  rewrite (radius_graph_square _ _ d Hsqr Hfin). cbn [bind].
  assert (Hsym : (String.eqb (CkNN.neighbors self) "k"
                  && negb (CkNN.directed self)) = false)
    by (rewrite Hn; reflexivity).
  unfold finish. rewrite Hsym, Ht.
  eexists. split; [reflexivity|].
  intros i j Hi Hj.
  rewrite (mget_set_diagonal (length ratio))
    by (auto; apply square_tabulate).
  destruct (Nat.eqb_spec i j) as [Heq|Hne]; [reflexivity|].
  rewrite mget_tabulate by assumption.
  apply Nat.eqb_neq in Hne. now rewrite Hne.
Qed.

Lemma radius_mode_adjacency_witness :
  (is_square [[0; 1 # 4; 1]; [1 # 4; 0; 3 # 2]; [1; 3 # 2; 0]]%Q = true /\
   all_finite [[0; 1 # 4; 1]; [1 # 4; 0; 3 # 2]; [1; 3 # 2; 0]]%Q = true /\
   (0 <= 1)%Q /\
   CkNN.neighbors params_delta1 = "delta"%string /\
   CkNN.delta params_delta1 = Some 1%Q /\
   CkNN.connected params_delta1 = false /\
   CkNN.t_ params_delta1 = None) /\
  exists G,
    graph_from_ratio no_weights none_threshold 0 params_delta1 line3
      [[0; 1 # 4; 1]; [1 # 4; 0; 3 # 2]; [1; 3 # 2; 0]]%Q
    = Some (Ok (if CkNN.is_sparse params_delta1
                then csr_matrix G else ndarray G,
                CkNN.set_ckng params_delta1 (Some (csr_matrix G)))) /\
    forall i j,
      i < length [[0; 1 # 4; 1]; [1 # 4; 0; 3 # 2]; [1; 3 # 2; 0]]%Q ->
      j < length [[0; 1 # 4; 1]; [1 # 4; 0; 3 # 2]; [1; 3 # 2; 0]]%Q ->
      mget G i j =
      if i =? j then (if CkNN.include_self params_delta1 then 1%Q else 0%Q)
      else if Qle_bool
                (mget [[0; 1 # 4; 1]; [1 # 4; 0; 3 # 2];
                       [1; 3 # 2; 0]]%Q i j) 1
           then 1%Q else 0%Q.
Proof.
  assert (H1 : is_square [[0; 1 # 4; 1]; [1 # 4; 0; 3 # 2]; [1; 3 # 2; 0]]%Q
               = true) by reflexivity.
  assert (H2 : all_finite [[0; 1 # 4; 1]; [1 # 4; 0; 3 # 2]; [1; 3 # 2; 0]]%Q
               = true) by (vm_compute; reflexivity).
  assert (H3 : (0 <= 1)%Q) by (vm_compute; discriminate).
  split.
  - split; [exact H1|]. split; [exact H2|]. split; [exact H3|].
    split; [reflexivity|]. split; [reflexivity|]. split; reflexivity.
  - exact (radius_mode_adjacency no_weights none_threshold 0 params_delta1
             line3 [[0; 1 # 4; 1]; [1 # 4; 0; 3 # 2]; [1; 3 # 2; 0]]%Q 1
             H1 H2 H3 eq_refl eq_refl eq_refl eq_refl).
Defined.

(** ** Count mode, undirected *)

Lemma nonzerob_Qeq x y : (x == y)%Q -> nonzerob x = nonzerob y.
Proof.
  intros H. unfold nonzerob. f_equal.
  destruct (Qeq_bool x 0) eqn:Hx, (Qeq_bool y 0) eqn:Hy; try reflexivity.
  - apply Qeq_bool_iff in Hx. apply Qeq_bool_neq in Hy.
    exfalso. apply Hy. now rewrite <- H.
  - apply Qeq_bool_iff in Hy. apply Qeq_bool_neq in Hx.
    exfalso. apply Hx. now rewrite H.
Qed.

Lemma symmetrize_entry n a i j :
  square n a -> i < n -> j < n ->
  mget (symmetrize a) i j =
  if nonzerob (mget a i j + mget a j i)%Q then 1%Q else 0%Q.
Proof.
  intros Hsq Hi Hj. unfold symmetrize.
  destruct (square_shape _ _ Hsq) as [H0 H1]. rewrite H0, H1.
  now rewrite mget_tabulate.
Qed.

Lemma symmetrize_square n a : square n a -> square n (symmetrize a).
Proof.
  intros Hsq. unfold symmetrize.
  destruct (square_shape _ _ Hsq) as [H0 H1]. rewrite H0, H1.
  apply square_tabulate.
Qed.

Lemma connect_rng_graph_square fuel self d r g s :
  connect_rng fuel self d r = Some (Ok (g, s)) -> is_square g = true.
Proof.
  unfold connect_rng. destruct (connect_init d r) as [st0|e]; [|discriminate].
  destruct (connect_loop fuel st0) as [[[ns st]|e]|]; try discriminate.
  destruct (radius_neighbors_graph d (ls_radius st)) as [g'|e] eqn:Hg;
    cbn [bind]; [|discriminate].
  intros H. injection H as <- _.
  destruct (radius_graph_length _ _ _ Hg) as [Hsq Hlen].
  apply is_square_square in Hsq.
  pose proof (radius_graph_finite _ _ _ Hg) as Hfin.
    rewrite (radius_graph_square _ _ _ Hsq Hfin) in Hg. injection Hg as <-.
  apply (square_is_square (length d)). apply square_tabulate.
Qed.

Lemma run_graph_call_square library_call fuel self c g s :
  (forall c' g', library_call c' = Ok g' -> is_square g' = true) ->
  run_graph_call library_call fuel self c = Some (Ok (g, s)) ->
  is_square g = true.
Proof.
  intros Hlib. unfold run_graph_call.
  assert (Hl : forall c', Some (g0 <- library_call c' ;; Ok (g0, self))
                          = Some (Ok (g, s)) -> is_square g = true).
  { intros c' H. destruct (library_call c') as [g'|e] eqn:Hc;
      cbn [bind] in H; [|discriminate].
    injection H as <- _. eapply Hlib; eauto. }
  destruct c as [X [radius|]|X kk|d [radius|] [|] sn]; try apply Hl.
  - destruct (radius_neighbors_graph X radius) as [g'|e] eqn:Hg;
      cbn [bind]; [|discriminate].
    intros H. injection H as <- _.
    destruct (radius_graph_length _ _ _ Hg) as [Hsq _].
    apply is_square_square in Hsq.
    pose proof (radius_graph_finite _ _ _ Hg) as Hfin.
    rewrite (radius_graph_square _ _ _ Hsq Hfin) in Hg. injection Hg as <-.
    apply (square_is_square (length X)). apply square_tabulate.
  - apply connect_rng_graph_square.
Qed.

(** X12. Count mode with [directed=False] and [t='inf']: provided the
    library routines return square matrices, the graph stored by a call that
    succeeds is symmetric and holds only zeros and ones. *)
Theorem count_mode_symmetric
    (np_sqrt : Q -> Q) (pdist_squareform : matrix -> string -> result matrix)
    (kernel_weights : matrix -> matrix -> Q -> matrix)
    (library_call : graph_call -> result matrix)
    (fuel : nat) (self : CkNN.t) (X : matrix) (a : array) (self' : CkNN.t) :
  (forall c g, library_call c = Ok g -> is_square g = true) ->
  CkNN.neighbors self = "k"%string ->
  CkNN.directed self = false ->
  CkNN.t_ self = None ->
  cknneighbors_graph_method np_sqrt pdist_squareform kernel_weights
    library_call fuel self X = Some (Ok (a, self')) ->
  exists m, CkNN.ckng self' = Some (csr_matrix m) /\
    forall i j, i < length m -> j < length m ->
      mget m i j = mget m j i /\ (mget m i j = 0%Q \/ mget m i j = 1%Q).
Proof.
  intros Hlib Hn Hdir Ht. unfold cknneighbors_graph_method, graph_from_ratio.
  destruct (prepare np_sqrt pdist_squareform self X) as [[dmatrix ratio]|e];
    [|discriminate].
  destruct (select_graph_call self ratio) as [c|e]; [|discriminate].
  destruct (run_graph_call library_call fuel self c)
    as [[[adjacency self1]|e]|] eqn:Hrun; try discriminate.
  apply run_graph_call_square in Hrun; [|exact Hlib].
  apply is_square_square in Hrun.
  unfold finish. rewrite Hn, Hdir, Ht. cbn [String.eqb negb andb].
  change (String.eqb "k" "k") with true. cbn iota.
  intros H. injection H as _ <-. eexists. split; [reflexivity|].
  set (n := length adjacency) in *.
  pose proof (symmetrize_square n adjacency Hrun) as Hsq.
  assert (Hlen : length (set_diagonal (symmetrize adjacency)
                   (if CkNN.include_self self then 1%Q else 0%Q)) = n).
  { now destruct (set_diagonal_square n _
                    (if CkNN.include_self self then 1%Q else 0%Q) Hsq). }
  rewrite Hlen. intros i j Hi Hj.
  rewrite !(mget_set_diagonal n) by assumption.
  rewrite (Nat.eqb_sym j i).
  destruct (i =? j).
  - split; [reflexivity|]. destruct (CkNN.include_self self); auto.
  - rewrite !(symmetrize_entry n) by assumption.
    rewrite (nonzerob_Qeq (mget adjacency j i + mget adjacency i j)
                          (mget adjacency i j + mget adjacency j i))
      by apply Qplus_comm.
    split; [reflexivity|].
    destruct (nonzerob _); auto.
Qed.

Lemma count_mode_symmetric_witness :
  ((forall c g, none_threshold c = Ok g -> is_square g = true) /\
   CkNN.neighbors params_k_connected = "k"%string /\
   CkNN.directed params_k_connected = false /\
   CkNN.t_ params_k_connected = None /\
   cknneighbors_graph_method sqrt_down no_pdist no_weights none_threshold
     0 params_k_connected line3
   = Some (Ok (csr_matrix [[0; 1; 1]; [1; 0; 0]; [1; 0; 0]]%Q,
               CkNN.set_ckng params_k_connected
                 (Some (csr_matrix [[0; 1; 1]; [1; 0; 0]; [1; 0; 0]]%Q))))) /\
  exists m,
    CkNN.ckng (CkNN.set_ckng params_k_connected
                 (Some (csr_matrix [[0; 1; 1]; [1; 0; 0]; [1; 0; 0]]%Q)))
    = Some (csr_matrix m) /\
    forall i j, i < length m -> j < length m ->
      mget m i j = mget m j i /\ (mget m i j = 0%Q \/ mget m i j = 1%Q).
Proof.
  assert (Hlib : forall c g, none_threshold c = Ok g -> is_square g = true)
    by (intros c g H; discriminate).
  split.
  - split; [exact Hlib|]. split; [reflexivity|]. split; [reflexivity|].
    split; [reflexivity|vm_compute; reflexivity].
  - apply (count_mode_symmetric sqrt_down no_pdist no_weights none_threshold
             0 params_k_connected line3
             (csr_matrix [[0; 1; 1]; [1; 0; 0]; [1; 0; 0]]%Q)
             (CkNN.set_ckng params_k_connected
                (Some (csr_matrix [[0; 1; 1]; [1; 0; 0]; [1; 0; 0]]%Q)))
             Hlib); [reflexivity|reflexivity|reflexivity|].
    vm_compute. reflexivity.
Defined.

(** ** Components and labels *)

Lemma filter_seq_hd f n : forall s d u,
  s <= u < s + n -> f u = true ->
  let r := hd d (filter f (seq s n)) in
  f r = true /\ s <= r <= u /\ forall v, s <= v < r -> f v = false.
Proof.
  induction n as [|n IH]; intros s d u Hu Hf; [lia|].
  simpl. destruct (f s) eqn:Hs; simpl.
  - split; [exact Hs|]. split; [lia|]. intros v Hv. lia.
  - assert (Hne : u <> s) by (intros ->; congruence).
    destruct (IH (S s) d u) as [H1 [H2 H3]]; [lia|exact Hf|].
    split; [exact H1|]. split; [lia|].
    intros v Hv. destruct (Nat.eq_dec v s) as [->|Hvs]; [exact Hs|].
    apply H3. lia.
Qed.

Lemma conn_trans n g u v w :
  square n g -> conn g u v = true -> conn g v w = true -> conn g u w = true.
Proof.
  intros Hsq H1 H2. apply (conn_iff n) in H1, H2; try exact Hsq.
  apply (conn_iff n); [exact Hsq|]. eapply walk_trans; eauto.
Qed.

Lemma conn_sym n g u v :
  square n g -> conn g u v = true -> conn g v u = true.
Proof.
  intros Hsq H. apply (conn_iff n) in H; [|exact Hsq].
  apply (conn_iff n); [exact Hsq|].
  apply walk_sym; [apply wedge_sym|exact H].
Qed.

Lemma root_of_spec n g u :
  square n g -> u < n ->
  conn g (root_of g u) u = true /\ root_of g u <= u /\
  is_root g (root_of g u) = true.
Proof.
  intros Hsq Hu. pose proof Hsq as [Hl _]. unfold root_of. rewrite Hl.
  destruct (filter_seq_hd (fun v => conn g v u) n 0 u u)
    as [H1 [H2 H3]]; [lia|apply conn_refl|].
  set (r := hd u (filter (fun v => conn g v u) (seq 0 n))) in *.
  split; [exact H1|]. split; [lia|].
  unfold is_root. apply forallb_forall. intros v Hv. apply in_seq in Hv.
  apply negb_true_iff. destruct (conn g v r) eqn:Hc; [|reflexivity].
  rewrite <- (H3 v) by lia. symmetry.
  apply (conn_trans n g v r u Hsq Hc H1).
Qed.

Lemma filter_count_lt f a b :
  a < b -> f a = true ->
  length (filter f (seq 0 a)) < length (filter f (seq 0 b)).
Proof.
  intros Hab Hf. replace b with (a + (b - a)) by lia.
  rewrite seq_app, filter_app, length_app. simpl.
  destruct (b - a) as [|m] eqn:Hm; [lia|]. simpl. rewrite Hf. simpl. lia.
Qed.

Lemma label_lt n g u :
  square n g -> u < n -> label_of g u < n_components_of g.
Proof.
  intros Hsq Hu. destruct (root_of_spec n g u Hsq Hu) as [_ [Hle Hroot]].
  unfold label_of, n_components_of. destruct Hsq as [Hl _]. rewrite Hl.
  apply filter_count_lt; [lia|exact Hroot].
Qed.

Lemma label_eq_conn n g u v :
  square n g -> u < n -> v < n ->
  label_of g u = label_of g v -> conn g u v = true.
Proof.
  intros Hsq Hu Hv Hlab.
  destruct (root_of_spec n g u Hsq Hu) as [Hcu [_ Hru]].
  destruct (root_of_spec n g v Hsq Hv) as [Hcv [_ Hrv]].
  unfold label_of in Hlab.
  assert (Heq : root_of g u = root_of g v).
  { destruct (Nat.lt_trichotomy (root_of g u) (root_of g v)) as [H|[H|H]].
    - pose proof (filter_count_lt (is_root g) _ _ H Hru). lia.
    - exact H.
    - pose proof (filter_count_lt (is_root g) _ _ H Hrv). lia. }
  rewrite Heq in Hcu.
  apply (conn_trans n g u (root_of g v) v Hsq); [|exact Hcv].
  now apply (conn_sym n).
Qed.

Lemma conn_label_eq n g u v :
  square n g -> u < n -> v < n ->
  conn g u v = true -> label_of g u = label_of g v.
Proof.
  intros Hsq Hu Hv Hc. unfold label_of. f_equal.
  pose proof Hsq as [Hl _]. unfold root_of. rewrite Hl.
  assert (Hext : filter (fun w => conn g w u) (seq 0 n)
                 = filter (fun w => conn g w v) (seq 0 n)).
  { apply filter_ext. intros w.
    destruct (conn g w u) eqn:H1, (conn g w v) eqn:H2; try reflexivity.
    - rewrite <- H2. symmetry. apply (conn_trans n g w u v Hsq H1 Hc).
    - rewrite <- H1. apply (conn_trans n g w v u Hsq H2).
      now apply (conn_sym n). }
  rewrite Hext.
  destruct (filter (fun w => conn g w v) (seq 0 n)) as [|x l] eqn:Hf;
    [|reflexivity].
  exfalso. assert (Hin : In v (filter (fun w => conn g w v) (seq 0 n)))
    by (apply filter_In; split; [apply in_seq; lia|apply conn_refl]).
  rewrite Hf in Hin. destruct Hin.
Qed.

(** ** Radius graphs *)

Lemma rgraph_ok X r :
  is_square X = true -> all_finite X = true ->
  radius_neighbors_graph X r = Ok (rgraph X r).
Proof. intros H Hf. unfold radius_neighbors_graph. now rewrite H, Hf. Qed.

Lemma rgraph_square X r : square (length X) (rgraph X r).
Proof. apply square_tabulate. Qed.

Lemma rgraph_edge X r i j :
  i < length X -> j < length X -> i <> j -> (mget X i j <= r)%Q ->
  edge (rgraph X r) i j = true.
Proof. intros. now apply radius_graph_edge. Qed.

Lemma rgraph_edge_inv X r i j :
  edge (rgraph X r) i j = true ->
  i < length X /\ j < length X /\ i <> j /\ (mget X i j <= r)%Q.
Proof.
  intros H. pose proof (rgraph_square X r) as Hsq.
  pose proof (edge_src _ _ _ H) as Hi.
  pose proof (edge_dst _ _ _ _ Hsq H) as Hj.
  destruct Hsq as [Hl _]. rewrite Hl in Hi.
  unfold edge, rgraph in H. rewrite mget_tabulate in H by assumption.
  destruct (Nat.eqb_spec i j) as [Heq|Hne]; simpl in H; [discriminate|].
  destruct (Qle_bool (mget X i j) r) eqn:Hle; [|discriminate].
  apply Qle_bool_iff in Hle. auto.
Qed.

Lemma rgraph_mono X r r' i j :
  (r <= r')%Q -> edge (rgraph X r) i j = true ->
  edge (rgraph X r') i j = true.
Proof.
  intros Hle H. apply rgraph_edge_inv in H.
  destruct H as [Hi [Hj [Hne Hd]]].
  apply rgraph_edge; auto. eapply Qle_trans; eauto.
Qed.

Lemma rgraph_walk_mono X r r' u v :
  (r <= r')%Q -> walk (wedge (rgraph X r)) u v ->
  walk (wedge (rgraph X r')) u v.
Proof.
  intros Hle. apply walk_incl. intros a b H. apply walk_edge.
  unfold wedge in *. apply orb_true_iff in H. apply orb_true_iff.
  destruct H as [H|H]; [left|right]; eapply rgraph_mono; eauto.
Qed.

(** A walk between two clusters is a walk between any two of their points. *)
Lemma lift_walk D st owner :
  clusters_of D st owner ->
  forall P Q, walk (wedge (rgraph (ls_cropped st) (ls_radius st))) P Q ->
  forall i j, i < length D -> j < length D -> owner i = P -> owner j = Q ->
  walk (wedge (rgraph D (ls_radius st))) i j.
Proof.
  intros [Hown [Hin [Hrep _]]] P Q Hw.
  induction Hw as [P|P W Q He _ IH]; intros i j Hi Hj HP HQ.
  - apply Hin; auto. congruence.
  - unfold wedge in He. apply orb_true_iff in He. destruct He as [He|He];
      apply rgraph_edge_inv in He; destruct He as [H1 [H2 [Hne Hle]]].
    + destruct (Hrep P W H1 H2 Hne) as [a [b [Ha [Hb [Hoa [Hob Hd]]]]]].
      rewrite Hd in Hle.
      apply (walk_trans _ i a j); [apply Hin; auto; congruence|].
      apply (walk_step _ a b j); [|apply IH; auto].
      unfold wedge. rewrite rgraph_edge; auto. intros ->. congruence.
    + assert (Hne' : W <> P) by congruence.
      destruct (Hrep W P H1 H2 Hne') as [a [b [Ha [Hb [Hoa [Hob Hd]]]]]].
      rewrite Hd in Hle.
      apply (walk_trans _ i b j); [apply Hin; auto; congruence|].
      apply (walk_step _ b a j); [|apply IH; auto].
      unfold wedge. rewrite (rgraph_edge D _ a b); auto.
      * apply orb_true_r.
      * intros ->. congruence.
Qed.

(** ** One round, seen from the input matrix *)

Lemma connect_step_full D st :
  loop_inv_full D st -> 2 <= ls_n_components st ->
  exists st', connect_step st = Ok st' /\ loop_inv_full D st' /\
    (ls_radius st < ls_radius st')%Q /\
    1 <= ls_n_components st' < ls_n_components st /\
    exists i j, i < length D /\ j < length D /\ i <> j /\
                ls_radius st' = mget D i j.
Proof.
  intros [Hinv [Hrng [owner Hcl]]] HC.
  destruct (connect_step_decreases st Hinv HC) as [st' [Hstep [Hinv' Hdec]]].
  destruct (connect_step_inv st st' Hstep) as [Hcc [Hmax [Hg Hcomp]]].
  exists st'. split; [exact Hstep|].
  destruct Hinv as [N [HN [HsqM [HsqG [Hbelow [Hconn Hfin]]]]]].
  destruct Hinv' as [N' [HN' [HsqM' [HsqG' [Hbelow' [Hconn' Hfin']]]]]].
  destruct Hcl as [Hown [Hin [Hrep Hlow]]].
  destruct st as [radius rng M C labels].
  destruct st' as [radius' rng' cdm C' labels'].
  cbn [ls_radius ls_rng ls_cropped ls_n_components ls_labels] in *.
  unfold connected_components in Hconn. injection Hconn as HCeq Hlab.
  assert (HlM : length M = N) by now destruct HsqM.
  assert (HlG : length rng = N) by now destruct HsqG.
  rewrite HlM in Hown, Hrep.
  assert (Hlen : length labels = N)
    by (rewrite <- Hlab, length_map, length_seq; exact HlG).
  assert (Hlabel : forall i, i < N -> nth i labels 0 = label_of rng i).
  { intros i Hi. rewrite <- Hlab.
    rewrite (nth_indep _ 0 (label_of rng 0))
      by (rewrite length_map, length_seq; lia).
    rewrite (map_nth (label_of rng)). now rewrite nth_seq0 by lia. }
  destruct (concat_cluster_entries _ _ _ _ Hcc) as [HlC Hent].
  assert (HN'C : N' = C) by (destruct HsqM' as [Hl _]; congruence).
  subst N'.
  assert (Hblock : forall p q, p < C -> q < C -> p <> q ->
            block_min M labels p q (mget cdm p q)).
  { intros p q Hp Hq Hpq.
    apply (next_entry_ok_min N); auto. }
  assert (Hdiag : forall p, p < C -> mget cdm p p = INF).
  { intros p Hp. specialize (Hent p p Hp Hp).
    rewrite next_entry_diag in Hent. congruence. }
  (* entries between two clusters exceed the old threshold *)
  assert (Hfar : forall i j, i < N -> j < N ->
            nth i labels 0 <> nth j labels 0 -> (radius < mget M i j)%Q).
  { intros i j Hi Hj Hdiff. apply Qnot_le_lt. intros Hle.
    apply Hdiff. rewrite !Hlabel by assumption.
    apply (conn_label_eq N); auto. apply conn_edge. unfold wedge.
    rewrite Hrng, rgraph_edge; auto; try lia.
    intros ->. now apply Hdiff. }
  assert (Hgt : forall p q, p < C -> q < C -> p <> q ->
            (radius < mget cdm p q)%Q).
  { intros p q Hp Hq Hpq.
    destruct (Hblock p q Hp Hq Hpq)
      as [[i [j [Hi [Hj [Hli [Hlj ->]]]]]] _].
    rewrite Hlen in Hi, Hj. apply Hfar; auto. congruence. }
  (* the new threshold is an entry off the diagonal of the reduced matrix *)
  assert (Hoff : exists p q, p < C /\ q < C /\ p <> q /\
                             mget cdm p q = radius').
  { destruct Hmax as [[p [Hp [Hinp Hmin]]] _]. rewrite HlC in Hp.
    destruct (In_nth _ _ 0%Q Hinp) as [q [Hq Hv]].
    rewrite (square_row C cdm p HsqM' Hp) in Hq.
    fold (mget cdm p q) in Hv.
    exists p, q. repeat split; auto.
    intros <-. rewrite (Hdiag p Hp) in Hv. subst radius'.
    assert (Hq' : exists q', q' < C /\ p <> q').
    { destruct p; [exists 1|exists 0]; split; lia. }
    destruct Hq' as [q' [Hq' Hne]].
    assert (Hle : (INF <= mget cdm p q')%Q).
    { apply Hmin. unfold mget. apply nth_In.
      now rewrite (square_row C cdm p HsqM' Hp). }
    apply (Qle_not_lt _ _ Hle). now apply Hbelow'. }
  assert (Hrad : (radius < radius')%Q).
  { destruct Hoff as [p [q [Hp [Hq [Hpq <-]]]]]. now apply Hgt. }
  assert (Hrng' : rng' = rgraph cdm radius').
  { rewrite (radius_graph_square C cdm radius' HsqM' Hfin') in Hg.
    injection Hg as <-. unfold rgraph. now rewrite HlC. }
  assert (Hrep' : forall p q, p < C -> q < C -> p <> q ->
            exists a b, a < length D /\ b < length D /\
              nth (owner a) labels 0 = p /\ nth (owner b) labels 0 = q /\
              mget cdm p q = mget D a b).
  { intros p q Hp Hq Hpq.
    destruct (Hblock p q Hp Hq Hpq)
      as [[i [j [Hi [Hj [Hli [Hlj Hv]]]]]] _].
    rewrite Hlen in Hi, Hj.
    assert (Hij : i <> j) by (intros ->; congruence).
    destruct (Hrep i j Hi Hj Hij) as [a [b [Ha [Hb [Hoa [Hob Hd]]]]]].
    exists a, b. rewrite Hoa, Hob. repeat split; auto. congruence. }
  split; [|split; [exact Hrad|split; [exact Hdec|]]].
  - split.
    { exists C. split; [exact HN'|]. split; [exact HsqM'|].
      split; [exact HsqG'|]. split; [exact Hbelow'|].
      split; [exact Hconn'|exact Hfin']. }
    split; [exact Hrng'|].
    exists (fun i => nth (owner i) labels 0).
    unfold clusters_of.
    cbn [ls_radius ls_rng ls_cropped ls_n_components ls_labels].
    rewrite HlC.
    split; [|split; [|split; [exact Hrep'|]]].
    + intros i Hi. rewrite Hlabel by auto. rewrite <- HCeq.
      apply (label_lt N); auto.
    + intros i j Hi Hj Hsame.
      apply (rgraph_walk_mono D radius radius'); [now apply Qlt_le_weak|].
      rewrite !Hlabel in Hsame by auto.
      apply (label_eq_conn N) in Hsame; auto.
      apply (conn_iff N) in Hsame; [|exact HsqG].
      rewrite Hrng in Hsame.
      apply (lift_walk D (mk_state radius rng M C labels) owner)
        with (P := owner i) (Q := owner j); auto.
      unfold clusters_of.
      cbn [ls_radius ls_rng ls_cropped ls_n_components ls_labels].
      rewrite HlM. split; [exact Hown|]. split; [exact Hin|].
      split; [exact Hrep|exact Hlow].
    + intros i j Hi Hj Hdiff. cbn beta in Hdiff |- *.
      assert (Hoij : owner i <> owner j) by congruence.
      apply Qle_trans with (mget M (owner i) (owner j));
        [|now apply Hlow].
      assert (Hpi : nth (owner i) labels 0 < C)
        by (rewrite Hlabel by auto; rewrite <- HCeq; apply (label_lt N); auto).
      assert (Hpj : nth (owner j) labels 0 < C)
        by (rewrite Hlabel by auto; rewrite <- HCeq; apply (label_lt N); auto).
      destruct (Hblock _ _ Hpi Hpj Hdiff) as [_ Hmin].
      apply Hmin; auto; rewrite Hlen; auto.
  - destruct Hoff as [p [q [Hp [Hq [Hpq Hv]]]]].
    destruct (Hrep' p q Hp Hq Hpq) as [a [b [Ha [Hb [Hoa [Hob Hd]]]]]].
    exists a, b. repeat split; auto; [|congruence].
    intros ->. apply Hpq. congruence.
Qed.

Lemma init_inv_full n D radius g :
  square n D -> 0 < n -> below_sentinel n D ->
  radius_neighbors_graph D radius = Ok g ->
  loop_inv_full D (mk_state radius g D (n_components_of g)
                            (map (label_of g) (seq 0 (length g)))).
Proof.
  intros Hsq Hn Hb Hg. split; [now apply (init_inv n)|].
  cbn [ls_radius ls_rng ls_cropped].
  split.
  { pose proof (radius_graph_finite _ _ _ Hg) as Hfin.
    rewrite (rgraph_ok D radius (square_is_square n D Hsq) Hfin) in Hg.
    congruence. }
  exists (fun i => i). unfold clusters_of.
  cbn [ls_radius ls_rng ls_cropped].
  split; [auto|]. split.
  - intros i j _ _ ->. apply walk_refl.
  - split.
    + intros p q Hp Hq Hpq. exists p, q. auto.
    + intros i j _ _ _. apply Qle_refl.
Qed.

(** A walk that leaves a cluster uses an edge that leaves it. *)
Lemma crossing_edge (e : nat -> nat -> bool) (f : nat -> nat) p a b :
  walk e a b -> f a = p -> f b <> p ->
  exists u v, e u v = true /\ f u = p /\ f v <> p.
Proof.
  induction 1 as [u|u w v He _ IH]; intros Ha Hb.
  - now destruct Hb.
  - destruct (Nat.eq_dec (f w) p) as [Hw|Hw].
    + now apply IH.
    + exists u, w. auto.
Qed.

(** No threshold below the greatest row minimum of the reduced matrix makes
    the radius graph of a symmetric input connected. *)
Lemma connecting_radius_bound D st r :
  loop_inv_full D st -> 2 <= length (ls_cropped st) ->
  max_of_row_minima (ls_cropped st) (ls_radius st) ->
  is_symmetric D = true ->
  connected_graph (length D) (rgraph D r) ->
  (ls_radius st <= r)%Q.
Proof.
  intros [Hinv [_ [owner [Hown [_ [Hrep Hlow]]]]]] HC Hmax Hsym Hconn.
  destruct Hinv as [N [_ [HsqM _]]].
  destruct st as [radius rng M C labels].
  cbn [ls_radius ls_rng ls_cropped ls_n_components ls_labels] in *.
  assert (HlM : length M = N) by now destruct HsqM.
  rewrite HlM in *.
  destruct Hmax as [[p [Hp [_ Hmin]]] _]. rewrite HlM in Hp.
  assert (Hq : exists q, q < N /\ p <> q).
  { destruct p; [exists 1|exists 0]; split; lia. }
  destruct Hq as [q [Hq Hpq]].
  destruct (Hrep p q Hp Hq Hpq) as [a [b [Ha [Hb [Hoa [Hob _]]]]]].
  assert (Hob' : owner b <> p) by congruence.
  destruct (crossing_edge _ owner p a b (Hconn a b Ha Hb) Hoa Hob')
    as [u [v [He [Hu Hv]]]].
  assert (Huv : u < length D /\ v < length D /\ (mget D u v <= r)%Q).
  { unfold wedge in He. apply orb_true_iff in He. destruct He as [He|He];
      apply rgraph_edge_inv in He; destruct He as [H1 [H2 [_ Hle]]].
    - auto.
    - split; [exact H2|]. split; [exact H1|].
      apply Qle_trans with (mget D v u); [|exact Hle].
      apply Qle_lteq. right. now apply is_symmetric_spec. }
  destruct Huv as [Hul [Hvl Hle]].
  apply Qle_trans with (mget D u v); [|exact Hle].
  apply Qle_trans with (mget M (owner u) (owner v));
    [|apply Hlow; auto; congruence].
  apply Hmin. rewrite Hu. unfold mget. apply nth_In.
  rewrite (square_row N M p HsqM Hp). now apply Hown.
Qed.

(** The loop, seen from the input matrix: it ends with one component, the
    threshold has never gone down, and has gone up when a round was run. *)
Lemma connect_loop_full D fuel : forall st ns st',
  loop_inv_full D st ->
  connect_loop fuel st = Some (Ok (ns, st')) ->
  loop_inv_full D st' /\ ls_n_components st' = 1 /\
  (ls_radius st <= ls_radius st')%Q /\
  (ls_n_components st <> 1 ->
   (ls_radius st < ls_radius st')%Q /\
   (exists i j, i < length D /\ j < length D /\ i <> j /\
                ls_radius st' = mget D i j) /\
   (forall r, is_symmetric D = true ->
      connected_graph (length D) (rgraph D r) -> (ls_radius st' <= r)%Q)).
Proof.
  induction fuel as [|fuel IH]; intros st ns st' Hinv Hloop;
    cbn [connect_loop] in Hloop;
    destruct (ls_n_components st =? 1) eqn:Hone.
  - injection Hloop as _ <-. apply Nat.eqb_eq in Hone.
    split; [exact Hinv|]. split; [exact Hone|].
    split; [apply Qle_refl|]. intros Hne. now destruct Hne.
  - discriminate.
  - injection Hloop as _ <-. apply Nat.eqb_eq in Hone.
    split; [exact Hinv|]. split; [exact Hone|].
    split; [apply Qle_refl|]. intros Hne. now destruct Hne.
  - apply Nat.eqb_neq in Hone.
    assert (HC : 2 <= ls_n_components st).
    { destruct Hinv as [[n [Hn [_ [HsqG [_ [Hcc _]]]]]] _].
      unfold connected_components in Hcc. injection Hcc as HCeq _.
      assert (Hl : 0 < length (ls_rng st)) by (destruct HsqG; lia).
      pose proof (components_pos (ls_rng st) Hl). lia. }
    destruct (connect_step_full D st Hinv HC)
      as [st1 [Hstep [Hinv1 [Hlt [Hdec Hentry]]]]].
    rewrite Hstep in Hloop.
    destruct (connect_loop fuel st1) as [[[ns1 st2]|e]|] eqn:Hrest;
      try discriminate.
    injection Hloop as _ <-.
    destruct (IH st1 ns1 st2 Hinv1 Hrest) as [Hinv2 [Hfin [Hle Hmore]]].
    split; [exact Hinv2|]. split; [exact Hfin|].
    split; [apply Qlt_le_weak; now apply Qlt_le_trans with (ls_radius st1)|].
    intros _. split; [now apply Qlt_le_trans with (ls_radius st1)|].
    destruct (Nat.eq_dec (ls_n_components st1) 1) as [H1|H1].
    + rewrite (connect_loop_single fuel st1 H1) in Hrest.
      injection Hrest as _ <-. split; [exact Hentry|].
      intros r Hsym Hconn.
      destruct (connect_step_inv st st1 Hstep) as [Hcc [Hmax _]].
      destruct (concat_cluster_entries _ _ _ _ Hcc) as [HlC _].
      apply (connecting_radius_bound D st1 r); auto. lia.
    + now apply Hmore.
Qed.

(** The whole of nature-mode [connect_rng], seen from the input matrix. *)
Lemma connect_rng_full fuel self D radius g :
  below_sentinelb D = true ->
  radius_neighbors_graph D radius = Ok g ->
  0 < length D -> n_components_of g - 1 <= fuel ->
  exists r',
    connect_rng fuel self D radius
      = Some (Ok (rgraph D r', store_threshold self r')) /\
    (radius <= r')%Q /\
    (n_components_of g <> 1 ->
     (radius < r')%Q /\
     (exists i j, i < length D /\ j < length D /\ i <> j /\
                  r' = mget D i j) /\
     (forall r, is_symmetric D = true ->
        connected_graph (length D) (rgraph D r) -> (r' <= r)%Q)) /\
    connected_graph (length D) (rgraph D r').
Proof.
  intros Hb Hg Hn Hfuel.
  destruct (radius_graph_length _ _ _ Hg) as [Hsqb Hlen].
  pose proof (is_square_square _ Hsqb) as Hsq.
  destruct (connect_init_ok _ _ _ _ Hsq Hn Hg) as [Hinit HsqG].
  pose proof (below_sentinelb_spec _ Hb) as Hbelow.
  set (st0 := mk_state radius g D (n_components_of g)
                       (map (label_of g) (seq 0 (length g)))) in *.
  assert (Hpos : 1 <= n_components_of g)
    by (apply components_pos; lia).
  assert (Hinv0 : loop_inv_full D st0)
    by now apply (init_inv_full (length D)).
  destruct (connect_loop_terminates fuel st0 (proj1 Hinv0))
    as [ns [st' [Hloop _]]]; [exact Hpos|cbn [st0 ls_n_components]; lia|].
  destruct (connect_loop_full D fuel st0 ns st' Hinv0 Hloop)
    as [Hinv' [Hfin [Hle Hmore]]].
  cbn [st0 ls_radius ls_n_components] in Hle, Hmore.
  exists (ls_radius st').
  split; [|split; [exact Hle|split; [exact Hmore|]]].
  - unfold connect_rng. rewrite Hinit, Hloop.
    rewrite (rgraph_ok D (ls_radius st') Hsqb (radius_graph_finite _ _ _ Hg)).
    reflexivity.
  - destruct Hinv' as [[n' [Hn' [HsqM' [HsqG' [_ [Hcc _]]]]]]
                       [Hrng' [owner Hcl]]].
    unfold connected_components in Hcc. injection Hcc as HCeq _.
    rewrite Hfin in HCeq.
    apply (one_component_connected n' _ HsqG' Hn') in HCeq.
    rewrite Hrng' in HCeq.
    intros u v Hu Hv.
    apply (lift_walk D st' owner Hcl (owner u) (owner v)); auto.
    destruct Hcl as [Hown _].
    assert (Hl : length (ls_cropped st') = n') by now destruct HsqM'.
    rewrite Hl in Hown. apply HCeq; auto.
Qed.



(** X14. Nature-mode [connect_rng] on a non-empty distance matrix whose
    distances between distinct points lie below the sentinel returns a graph
    with exactly one connected component: any two points are joined by a
    walk along its edges, read in either direction. *)
Theorem connect_rng_result_connected (fuel : nat) (self : CkNN.t)
    (dmatrix : matrix) (radius : Q) (g : matrix) :
  below_sentinelb dmatrix = true ->
  radius_neighbors_graph dmatrix radius = Ok g ->
  0 < length dmatrix ->
  n_components_of g - 1 <= fuel ->
  exists g' self',
    connect_rng fuel self dmatrix radius = Some (Ok (g', self')) /\
    n_components_of g' = 1 /\
    connected_graph (length dmatrix) g'.
Proof.
  intros Hb Hg Hn Hfuel.
  destruct (connect_rng_full fuel self dmatrix radius g Hb Hg Hn Hfuel)
    as [r' [Hrun [_ [_ Hconn]]]].
  exists (rgraph dmatrix r'), (store_threshold self r').
  split; [exact Hrun|]. split; [|exact Hconn].
  apply (one_component_connected (length dmatrix)); auto.
  apply rgraph_square.
Qed.

Lemma connect_rng_result_connected_witness :
  (below_sentinelb line3 = true /\
   radius_neighbors_graph line3 1
     = Ok [[0; 1; 0]; [1; 0; 0]; [0; 0; 0]]%Q /\
   0 < length line3 /\
   n_components_of [[0; 1; 0]; [1; 0; 0]; [0; 0; 0]]%Q - 1 <= 1) /\
  exists g' self',
    connect_rng 1 cknn_delta line3 1 = Some (Ok (g', self')) /\
    n_components_of g' = 1 /\
    connected_graph (length line3) g'.
Proof.
  assert (H1 : below_sentinelb line3 = true) by (vm_compute; reflexivity).
  assert (H2 : radius_neighbors_graph line3 1
               = Ok [[0; 1; 0]; [1; 0; 0]; [0; 0; 0]]%Q)
    by (vm_compute; reflexivity).
  assert (H3 : 0 < length line3) by (vm_compute; lia).
  assert (H4 : n_components_of [[0; 1; 0]; [1; 0; 0]; [0; 0; 0]]%Q - 1 <= 1)
    by (vm_compute; lia).
  split; [split; [exact H1|split; [exact H2|split; [exact H3|exact H4]]]|].
  exact (connect_rng_result_connected 1 cknn_delta line3 1
           [[0; 1; 0]; [1; 0; 0]; [0; 0; 0]]%Q H1 H2 H3 H4).
Defined.

(** X15. Nature-mode [connect_rng] on a symmetric distance matrix whose base
    graph has two or more components: the threshold stored and used for the
    graph returned is the least one at which the radius graph of the input
    is a single component.  The graph returned has one component, and no
    threshold whose radius graph has one component is smaller. *)
Theorem connect_rng_least_threshold (fuel : nat) (self : CkNN.t)
    (dmatrix : matrix) (radius : Q) (g : matrix) :
  below_sentinelb dmatrix = true ->
  is_symmetric dmatrix = true ->
  radius_neighbors_graph dmatrix radius = Ok g ->
  2 <= n_components_of g ->
  n_components_of g - 1 <= fuel ->
  exists r' g',
    connect_rng fuel self dmatrix radius
      = Some (Ok (g', store_threshold self r')) /\
    radius_neighbors_graph dmatrix r' = Ok g' /\
    n_components_of g' = 1 /\
    forall r h, radius_neighbors_graph dmatrix r = Ok h ->
                n_components_of h = 1 -> (r' <= r)%Q.
Proof.
  intros Hb Hsym Hg HC Hfuel.
  destruct (radius_graph_length _ _ _ Hg) as [Hsqb Hlen].
  pose proof (components_le_length g) as Hle.
  assert (Hn : 0 < length dmatrix) by lia.
  destruct (connect_rng_full fuel self dmatrix radius g Hb Hg Hn Hfuel)
    as [r' [Hrun [_ [Hmore Hconn]]]].
  destruct Hmore as [_ [_ Hleast]]; [lia|].
  pose proof (radius_graph_finite _ _ _ Hg) as Hfin.
  exists r', (rgraph dmatrix r').
  split; [exact Hrun|]. split; [now apply rgraph_ok|]. split.
  - apply (one_component_connected (length dmatrix)); auto.
    apply rgraph_square.
  - intros r h Hh Hone. apply Hleast; [exact Hsym|].
    rewrite (rgraph_ok dmatrix r Hsqb Hfin) in Hh. injection Hh as <-.
    apply (one_component_connected (length dmatrix)); auto.
    apply rgraph_square.
Qed.

Lemma connect_rng_least_threshold_witness :
  (below_sentinelb line3 = true /\
   is_symmetric line3 = true /\
   radius_neighbors_graph line3 1
     = Ok [[0; 1; 0]; [1; 0; 0]; [0; 0; 0]]%Q /\
   2 <= n_components_of [[0; 1; 0]; [1; 0; 0]; [0; 0; 0]]%Q /\
   n_components_of [[0; 1; 0]; [1; 0; 0]; [0; 0; 0]]%Q - 1 <= 2) /\
  exists r' g',
    connect_rng 2 cknn_k line3 1 = Some (Ok (g', store_threshold cknn_k r')) /\
    radius_neighbors_graph line3 r' = Ok g' /\
    n_components_of g' = 1 /\
    forall r h, radius_neighbors_graph line3 r = Ok h ->
                n_components_of h = 1 -> (r' <= r)%Q.
Proof.
  assert (H1 : below_sentinelb line3 = true) by (vm_compute; reflexivity).
  assert (H2 : is_symmetric line3 = true) by (vm_compute; reflexivity).
  assert (H3 : radius_neighbors_graph line3 1
               = Ok [[0; 1; 0]; [1; 0; 0]; [0; 0; 0]]%Q)
    by (vm_compute; reflexivity).
  assert (H4 : 2 <= n_components_of [[0; 1; 0]; [1; 0; 0]; [0; 0; 0]]%Q)
    by (vm_compute; lia).
  assert (H5 : n_components_of [[0; 1; 0]; [1; 0; 0]; [0; 0; 0]]%Q - 1 <= 2)
    by (vm_compute; lia).
  split; [split; [exact H1|split; [exact H2|split; [exact H3|
          split; [exact H4|exact H5]]]]|].
  exact (connect_rng_least_threshold 2 cknn_k line3 1
           [[0; 1; 0]; [1; 0; 0]; [0; 0; 0]]%Q H1 H2 H3 H4 H5).
Defined.

(** ** The order matrix of count mode *)

Lemma argsort_length row : length (argsort row) = length row.
Proof.
  rewrite (Permutation_length (argsort_perm row)). apply length_seq.
Qed.

Lemma argsort_NoDup row : NoDup (argsort row).
Proof.
  apply (Permutation_NoDup (Permutation_sym (argsort_perm row))).
  apply seq_NoDup.
Qed.

Lemma insert_by_sorted row c l :
  StronglySorted (fun a b => (nth a row 0 <= nth b row 0)%Q) l ->
  StronglySorted (fun a b => (nth a row 0 <= nth b row 0)%Q)
                 (insert_by row c l).
Proof.
  induction 1 as [|d l Hs IH Hall]; simpl.
  - repeat constructor.
  - destruct (Qle_bool (nth c row 0%Q) (nth d row 0%Q)) eqn:Hle.
    + apply Qle_bool_iff in Hle. constructor; [now constructor|].
      constructor; [exact Hle|].
      apply Forall_forall. intros x Hx. rewrite Forall_forall in Hall.
      apply Qle_trans with (nth d row 0%Q); auto.
    + assert (Hlt : (nth d row 0 < nth c row 0)%Q).
      { apply Qnot_le_lt. intros Hc. apply Qle_bool_iff in Hc. congruence. }
      constructor; [exact IH|].
      apply Forall_forall. intros x Hx.
      apply (Permutation_in _ (insert_by_perm row c l)) in Hx.
      destruct Hx as [<-|Hx]; [now apply Qlt_le_weak|].
      rewrite Forall_forall in Hall. now apply Hall.
Qed.

Lemma argsort_sorted row :
  StronglySorted (fun a b => (nth a row 0 <= nth b row 0)%Q) (argsort row).
Proof.
  unfold argsort. induction (seq 0 (length row)) as [|c l IH]; simpl.
  - constructor.
  - now apply insert_by_sorted.
Qed.

Lemma sorted_nth (R : nat -> nat -> Prop) l :
  StronglySorted R l ->
  forall p q, p < q -> q < length l -> R (nth p l 0) (nth q l 0).
Proof.
  induction 1 as [|a l Hs IH Hall]; intros p q Hpq Hq; simpl in Hq; [lia|].
  destruct q as [|q]; [lia|]. destruct p as [|p]; simpl.
  - rewrite Forall_forall in Hall. apply Hall, nth_In. lia.
  - apply IH; lia.
Qed.

(** The assignments of lines 213-215 never overwrite one another. *)
Lemma order_fold l : forall k acc,
  NoDup l -> (forall c, In c l -> c < length acc) ->
  (forall p, p < length l ->
     nth (nth p l 0)
         (fold_left (fun acc pc => set_nth acc (snd pc)
                                     (inject_Z (Z.of_nat (fst pc))))
                    (combine (seq k (length l)) l) acc) 0%Q
     = inject_Z (Z.of_nat (k + p))) /\
  (forall c, ~ In c l ->
     nth c (fold_left (fun acc pc => set_nth acc (snd pc)
                                       (inject_Z (Z.of_nat (fst pc))))
                      (combine (seq k (length l)) l) acc) 0%Q
     = nth c acc 0%Q) /\
  length (fold_left (fun acc pc => set_nth acc (snd pc)
                                     (inject_Z (Z.of_nat (fst pc))))
                    (combine (seq k (length l)) l) acc) = length acc.
Proof.
  induction l as [|c l IH]; intros k acc Hnd Hin.
  - simpl. split; [intros p Hp; lia|]. split; reflexivity.
  - inversion Hnd as [|c' l' Hnot Hnd']; subst.
    cbn [length seq combine fold_left fst snd].
    destruct (IH (S k) (set_nth acc c (inject_Z (Z.of_nat k))) Hnd')
      as [Hhit [Hmiss Hlen]].
    { intros d Hd. rewrite set_nth_length. apply Hin. now right. }
    assert (Hc : c < length acc) by (apply Hin; now left).
    split; [|split].
    + intros [|p] Hp.
      * cbn [nth]. rewrite (Hmiss c Hnot), nth_set_nth, Nat.eqb_refl.
        apply Nat.ltb_lt in Hc. rewrite Hc. cbn [andb].
        now rewrite Nat.add_0_r.
      * cbn [nth]. rewrite Hhit by (simpl in Hp; lia).
        do 2 f_equal. lia.
    + intros d Hd. rewrite Hmiss by (intros H; apply Hd; now right).
      rewrite nth_set_nth.
      destruct (d =? c) eqn:Hdc; [|reflexivity].
      apply Nat.eqb_eq in Hdc. subst d. destruct Hd. now left.
    + rewrite Hlen. apply set_nth_length.
Qed.

Lemma order_row_length row : length (order_row row) = length row.
Proof.
  unfold order_row, enumerate.
  destruct (order_fold (argsort row) 0 (map (fun _ => 0%Q) row)
              (argsort_NoDup row)) as [_ [_ Hlen]].
  - intros c Hc. rewrite length_map. now apply argsort_In.
  - rewrite Hlen. apply length_map.
Qed.

Lemma order_row_argsort row p :
  p < length row ->
  nth (nth p (argsort row) 0) (order_row row) 0%Q = inject_Z (Z.of_nat p).
Proof.
  intros Hp. unfold order_row, enumerate.
  destruct (order_fold (argsort row) 0 (map (fun _ => 0%Q) row)
              (argsort_NoDup row)) as [Hhit _].
  - intros c Hc. rewrite length_map. now apply argsort_In.
  - apply Hhit. now rewrite argsort_length.
Qed.

Lemma order_row_rank row c :
  c < length row ->
  exists p, p < length row /\ nth p (argsort row) 0 = c /\
            nth c (order_row row) 0%Q = inject_Z (Z.of_nat p).
Proof.
  intros Hc. apply argsort_In in Hc.
  destruct (In_nth _ _ 0 Hc) as [p [Hp Hnth]].
  rewrite argsort_length in Hp.
  exists p. split; [exact Hp|]. split; [exact Hnth|].
  rewrite <- Hnth. now apply order_row_argsort.
Qed.

Lemma order_matrix_row M r :
  nth r (order_matrix M) [] = order_row (nth r M []).
Proof.
  unfold order_matrix.
  change (@nil Q) with (order_row []) at 1. apply map_nth.
Qed.

(** X16. The order matrix of count mode keeps the order of every row of the
    ratio matrix: where one ratio of a row is strictly smaller than another,
    so is its rank. *)
Theorem order_matrix_monotone (ratio_matrix : matrix) (r c1 c2 : nat) :
  c1 < length (nth r ratio_matrix []) ->
  c2 < length (nth r ratio_matrix []) ->
  (mget ratio_matrix r c1 < mget ratio_matrix r c2)%Q ->
  (mget (order_matrix ratio_matrix) r c1
   < mget (order_matrix ratio_matrix) r c2)%Q.
Proof.
  unfold mget. rewrite order_matrix_row.
  set (row := nth r ratio_matrix []). intros H1 H2 Hlt.
  destruct (order_row_rank row c1 H1) as [p1 [Hp1 [Ha1 ->]]].
  destruct (order_row_rank row c2 H2) as [p2 [Hp2 [Ha2 ->]]].
  rewrite <- Zlt_Qlt. apply Nat2Z.inj_lt.
  destruct (Nat.lt_trichotomy p1 p2) as [Hlt'|[Heq|Hgt]]; [exact Hlt'| |].
  - exfalso. subst p2. rewrite Ha1 in Ha2. subst c2.
    now apply (Qlt_irrefl _ Hlt).
  - exfalso.
    pose proof (sorted_nth _ _ (argsort_sorted row) p2 p1 Hgt) as Hle.
    rewrite argsort_length, Ha1, Ha2 in Hle.
    apply (Qlt_not_le _ _ Hlt). now apply Hle.
Qed.

Lemma order_matrix_monotone_witness :
  (1 < length (nth 0 line3 []) /\ 2 < length (nth 0 line3 []) /\
   (mget line3 0 1 < mget line3 0 2)%Q) /\
  (mget (order_matrix line3) 0 1 < mget (order_matrix line3) 0 2)%Q.
Proof.
  assert (H1 : 1 < length (nth 0 line3 [])) by (vm_compute; lia).
  assert (H2 : 2 < length (nth 0 line3 [])) by (vm_compute; lia).
  assert (H3 : (mget line3 0 1 < mget line3 0 2)%Q)
    by (vm_compute; reflexivity).
  split; [split; [exact H1|split; [exact H2|exact H3]]|].
  exact (order_matrix_monotone line3 0 1 2 H1 H2 H3).
Defined.

(** X17. Every row of the order matrix holds the ranks [0, 1, ..., n - 1],
    each of them once, where [n] is the length of the row of the ratio
    matrix it was computed from. *)
Theorem order_matrix_row_permutation (ratio_matrix : matrix) (r : nat) :
  Permutation (nth r (order_matrix ratio_matrix) [])
    (map (fun p => inject_Z (Z.of_nat p))
         (seq 0 (length (nth r ratio_matrix [])))).
Proof.
  rewrite order_matrix_row. set (row := nth r ratio_matrix []).
  set (f := fun c => nth c (order_row row) 0%Q).
  set (rank := fun p => inject_Z (Z.of_nat p)).
  assert (Hout : order_row row = map f (seq 0 (length row))).
  { apply (nth_ext _ _ 0%Q 0%Q).
    - now rewrite length_map, length_seq, order_row_length.
    - intros c Hc. rewrite order_row_length in Hc.
      rewrite (nth_indep (map f (seq 0 (length row))) 0%Q (f 0))
        by (rewrite length_map, length_seq; exact Hc).
      rewrite (map_nth f). now rewrite seq_nth. }
  assert (Hranks : map f (argsort row) = map rank (seq 0 (length row))).
  { apply (nth_ext _ _ 0%Q 0%Q).
    - now rewrite !length_map, length_seq, argsort_length.
    - intros p Hp. rewrite length_map, argsort_length in Hp.
      rewrite (nth_indep (map f (argsort row)) 0%Q (f 0))
        by (rewrite length_map, argsort_length; exact Hp).
      rewrite (map_nth f). unfold f at 1.
      rewrite order_row_argsort by exact Hp.
      rewrite (nth_indep (map rank (seq 0 (length row))) 0%Q (rank 0))
        by (rewrite length_map, length_seq; exact Hp).
      rewrite (map_nth rank). now rewrite seq_nth. }
  rewrite Hout at 1. rewrite <- Hranks.
  apply Permutation_map, Permutation_sym, argsort_perm.
Qed.

(** X18. Count mode, nature-mode [connect_rng] on the order matrix with a
    base graph of two or more components: the threshold the loop ends with
    is one of the ranks, a whole number below the number of rows, so
    [int(radius + 0.5)] stores exactly that rank in [self.k], and the graph
    returned is the radius graph of the order matrix at that rank. *)
Theorem connect_rng_stores_rank (fuel : nat) (self : CkNN.t)
    (ratio_matrix : matrix) (radius : Q) (g : matrix) :
  CkNN.neighbors self <> "delta"%string ->
  below_sentinelb (order_matrix ratio_matrix) = true ->
  radius_neighbors_graph (order_matrix ratio_matrix) radius = Ok g ->
  2 <= n_components_of g ->
  n_components_of g - 1 <= fuel ->
  exists (c : nat) g' self',
    connect_rng fuel self (order_matrix ratio_matrix) radius
      = Some (Ok (g', self')) /\
    c < length ratio_matrix /\
    (radius < inject_Z (Z.of_nat c))%Q /\
    CkNN.k self' = Some (Z.of_nat c) /\
    radius_neighbors_graph (order_matrix ratio_matrix)
                           (inject_Z (Z.of_nat c)) = Ok g'.
Proof.
  intros Hmode Hb Hg HC Hfuel.
  set (D := order_matrix ratio_matrix) in *.
  destruct (radius_graph_length _ _ _ Hg) as [Hsqb Hlen].
  pose proof (is_square_square _ Hsqb) as Hsq.
  pose proof (components_le_length g) as Hle.
  assert (Hn : 0 < length D) by lia.
  destruct (connect_rng_full fuel self D radius g Hb Hg Hn Hfuel)
    as [r' [Hrun [_ [Hmore _]]]].
  destruct Hmore as [Hlt [[i [j [Hi [Hj [_ Hr']]]]] _]]; [lia|].
  assert (HlD : length D = length ratio_matrix)
    by (unfold D, order_matrix; apply length_map).
  assert (Hrow : length (nth i ratio_matrix []) = length ratio_matrix).
  { rewrite <- (order_row_length (nth i ratio_matrix [])).
    rewrite <- order_matrix_row. fold D.
    rewrite (square_row (length D) D i Hsq Hi). exact HlD. }
  destruct (order_row_rank (nth i ratio_matrix []) j) as [c [Hc [_ Hrank]]];
    [rewrite Hrow; lia|].
  assert (Hr : r' = inject_Z (Z.of_nat c)).
  { rewrite Hr'. unfold mget, D. rewrite order_matrix_row. exact Hrank. }
  rewrite Hr in Hrun, Hlt.
  exists c, (rgraph D (inject_Z (Z.of_nat c))),
    (store_threshold self (inject_Z (Z.of_nat c))).
  split; [exact Hrun|]. split; [lia|]. split; [exact Hlt|].
  split; [|apply rgraph_ok; [exact Hsqb|exact (radius_graph_finite _ _ _ Hg)]].
  unfold store_threshold. apply String.eqb_neq in Hmode. rewrite Hmode.
  cbn [CkNN.set_k CkNN.k].
  now rewrite (py_int_count _ c (Qeq_refl _)).
Qed.

Lemma connect_rng_stores_rank_witness :
  (CkNN.neighbors cknn_k <> "delta"%string /\
   below_sentinelb (order_matrix line4) = true /\
   radius_neighbors_graph (order_matrix line4) 1
     = Ok [[0; 1; 0; 0]; [1; 0; 0; 0]; [0; 0; 0; 1]; [0; 0; 1; 0]]%Q /\
   2 <= n_components_of
          [[0; 1; 0; 0]; [1; 0; 0; 0]; [0; 0; 0; 1]; [0; 0; 1; 0]]%Q /\
   n_components_of
     [[0; 1; 0; 0]; [1; 0; 0; 0]; [0; 0; 0; 1]; [0; 0; 1; 0]]%Q - 1 <= 1) /\
  exists (c : nat) g' self',
    connect_rng 1 cknn_k (order_matrix line4) 1 = Some (Ok (g', self')) /\
    c < length line4 /\
    (1 < inject_Z (Z.of_nat c))%Q /\
    CkNN.k self' = Some (Z.of_nat c) /\
    radius_neighbors_graph (order_matrix line4) (inject_Z (Z.of_nat c))
      = Ok g'.
Proof.
  assert (H1 : CkNN.neighbors cknn_k <> "delta"%string)
    by (vm_compute; discriminate).
  assert (H2 : below_sentinelb (order_matrix line4) = true)
    by (vm_compute; reflexivity).
  assert (H3 : radius_neighbors_graph (order_matrix line4) 1
               = Ok [[0; 1; 0; 0]; [1; 0; 0; 0];
                     [0; 0; 0; 1]; [0; 0; 1; 0]]%Q)
    by (vm_compute; reflexivity).
  assert (H4 : 2 <= n_components_of
                 [[0; 1; 0; 0]; [1; 0; 0; 0]; [0; 0; 0; 1]; [0; 0; 1; 0]]%Q)
    by (vm_compute; lia).
  assert (H5 : n_components_of
                 [[0; 1; 0; 0]; [1; 0; 0; 0]; [0; 0; 0; 1]; [0; 0; 1; 0]]%Q
               - 1 <= 1)
    by (vm_compute; lia).
  split; [split; [exact H1|split; [exact H2|split; [exact H3|
          split; [exact H4|exact H5]]]]|].
  exact (connect_rng_stores_rank 1 cknn_k line4 1
           [[0; 1; 0; 0]; [1; 0; 0; 0]; [0; 0; 0; 1]; [0; 0; 1; 0]]%Q
           H1 H2 H3 H4 H5).
Defined.
